(** * advanced-vector: RawMemory<T> and Vector<T> (vector.h)

    A shallow embedding of [src/advanced-vector/vector.h].

    Memory model.  Raw storage obtained from [operator new] is a block of
    slots; a slot is either uninitialised ([None]) or holds a constructed
    element ([Some x]).  Blocks live in a heap indexed by addresses that are
    never handed out twice, so a pointer into a released block is dangling.
    A [T*] is [nullptr] or a block address with an offset.  [RawMemory] and
    [Vector] objects live in an object store, indexed by object identifiers,
    because the assignment operators and [Swap] take a second object by
    reference and that object may be [*this].  A [Vector] and its first member
    [data_] share one identifier (they share one address in C++).

    Control model.  A computation takes a world to an outcome: normal return,
    a propagating C++ exception, [std::terminate] (an exception leaving a
    [noexcept] function), or undefined behaviour (a failed [assert], a read
    of an uninitialised slot, a dangling pointer, an invalid iterator range).
    Exceptions come from two oracles carried by the world, one consulted by
    every [operator new] call and one by every element operation that may
    throw.

    Index arithmetic is done in [nat].  The code computes in [size_t], and
    narrows [delta] to [int] when [Emplace] hands it to [TryInitMove] or
    [TryInitCopy]; [Allocate(n)] asks [operator new] for [n * sizeof(T)]
    bytes, a product taken in [size_t].  The two agree as long as [delta]
    is at most [INT_MAX] and [n * sizeof(T)] at most [SIZE_MAX]: the
    predicates [fits_int], [allocatable] and [insertable] state these
    ranges.  Move assignment of elements does not throw ([Erase] is declared
    [noexcept] on that assumption). *)

From stdpp Require Import base option list gmap.

Set Default Proof Using "Type".

(** ** Element types *)

(** What the container needs to know of [T]: the value of [T()], the state a
    move leaves in its source, and the two traits tested by the
    [if constexpr] in [Reserve] and [Emplace]. *)
Class Element (T : Type) := {
  value_init : T;
  moved_from : T → T;
  nothrow_move_constructible : bool;
  copy_constructible : bool;
}.

(** [int]-like elements: moves are copies and never throw. *)
Definition trivial_element (T : Type) (d : T) : Element T :=
  {| value_init := d; moved_from := λ x, x;
     nothrow_move_constructible := true; copy_constructible := true |}.

(** Elements whose move constructor may throw and that can be copied: the
    container migrates them by copy. *)
Definition throwing_element (T : Type) (d : T) : Element T :=
  {| value_init := d; moved_from := λ _, d;
     nothrow_move_constructible := false; copy_constructible := true |}.

(** Elements with a non-throwing move that empties the source
    ([std::string]-like). *)
Definition resource_element (T : Type) (d : T) : Element T :=
  {| value_init := d; moved_from := λ _, d;
     nothrow_move_constructible := true; copy_constructible := true |}.

(** ** Pointers *)

(** Block addresses and object identifiers are numbers. *)
Abbreviation addr := nat (only parsing).
Abbreviation oid := nat (only parsing).

(** [T*]: [None] is [nullptr]. *)
Definition ptr : Type := option (addr * nat).

Definition ptr_add (p : ptr) (n : nat) : ptr :=
  match p with
  | None => None
  | Some (a, i) => Some (a, i + n)
  end.

(** [p - q] for two pointers into one array. *)
Definition ptr_diff (p q : ptr) : option Z :=
  match p, q with
  | None, None => Some 0%Z
  | Some (a, i), Some (b, j) =>
      if decide (a = b) then Some (Z.of_nat i - Z.of_nat j)%Z else None
  | _, _ => None
  end.

(** ** The integer types of the code *)

(** The largest [int] and the largest [size_t] (LP64). *)
Definition INT_MAX : Z := 2147483647.
Definition SIZE_MAX : Z := 18446744073709551615.

(** [sizeof(T)], in bytes; it is at least one. *)
Class Sized (T : Type) := {
  sizeof : nat;
  sizeof_pos : 0 < sizeof;
}.

(** [n] fits [int]: converting it to the [int delta] that [TryInitMove] and
    [TryInitCopy] take keeps its value. *)
Definition fits_int (n : nat) : Prop := (Z.of_nat n ≤ INT_MAX)%Z.

#[global] Instance fits_int_dec n : Decision (fits_int n).
Proof. unfold fits_int. apply _. Defined.

(** The growth events in a sequence of observed capacities: the
    capacities that differ from the one observed before, [prev] at first. *)
Fixpoint growth_events (prev : nat) (cs : list nat) : list nat :=
  match cs with
  | [] => []
  | c :: cs' =>
      if decide (c = prev) then growth_events c cs'
      else c :: growth_events c cs'
  end.

Section vector.
Context {T : Type} `{!Element T}.

(** ** Worlds *)

(** A slot of raw storage: uninitialised, or holding an element. *)
Local Abbreviation slot := (option T).

(** [RawMemory<T>]'s data members. *)
Record RawMemory := mkRaw { buffer_ : ptr; capacity_ : nat }.

Record World := mkWorld {
  heap : gmap addr (list slot);   (* live raw blocks *)
  next_addr : addr;               (* next block address *)
  raws : gmap oid RawMemory;      (* RawMemory objects ([Vector::data_]) *)
  sizes : gmap oid nat;           (* [Vector::size_] *)
  next_oid : oid;                 (* next object identifier *)
  alloc_faults : list bool;       (* oracle of [operator new] *)
  elem_faults : list bool;        (* oracle of throwing element operations *)
  constructed : nat;              (* constructor calls of [T] so far *)
  destroyed : nat;                (* destructor calls of [T] so far *)
}.

Definition set_heap (h : gmap addr (list slot)) (w : World) : World :=
  mkWorld h (next_addr w) (raws w) (sizes w) (next_oid w)
          (alloc_faults w) (elem_faults w) (constructed w) (destroyed w).
Definition set_next_addr (a : addr) (w : World) : World :=
  mkWorld (heap w) a (raws w) (sizes w) (next_oid w)
          (alloc_faults w) (elem_faults w) (constructed w) (destroyed w).
Definition set_raws (r : gmap oid RawMemory) (w : World) : World :=
  mkWorld (heap w) (next_addr w) r (sizes w) (next_oid w)
          (alloc_faults w) (elem_faults w) (constructed w) (destroyed w).
Definition set_sizes (s : gmap oid nat) (w : World) : World :=
  mkWorld (heap w) (next_addr w) (raws w) s (next_oid w)
          (alloc_faults w) (elem_faults w) (constructed w) (destroyed w).
Definition set_next_oid (o : oid) (w : World) : World :=
  mkWorld (heap w) (next_addr w) (raws w) (sizes w) o
          (alloc_faults w) (elem_faults w) (constructed w) (destroyed w).
Definition set_alloc_faults (l : list bool) (w : World) : World :=
  mkWorld (heap w) (next_addr w) (raws w) (sizes w) (next_oid w)
          l (elem_faults w) (constructed w) (destroyed w).
Definition set_elem_faults (l : list bool) (w : World) : World :=
  mkWorld (heap w) (next_addr w) (raws w) (sizes w) (next_oid w)
          (alloc_faults w) l (constructed w) (destroyed w).
Definition count_ctor (w : World) : World :=
  mkWorld (heap w) (next_addr w) (raws w) (sizes w) (next_oid w)
          (alloc_faults w) (elem_faults w) (S (constructed w)) (destroyed w).
Definition count_dtor (w : World) : World :=
  mkWorld (heap w) (next_addr w) (raws w) (sizes w) (next_oid w)
          (alloc_faults w) (elem_faults w) (constructed w) (S (destroyed w)).

(** ** Outcomes and the monad of computations *)

Inductive outcome (A : Type) : Type :=
  | Ok (w : World) (a : A)     (* normal return *)
  | Throw (w : World)          (* an exception propagates *)
  | Terminate                  (* std::terminate *)
  | Undefined.                 (* contract violation, undefined behaviour *)
Global Arguments Ok {A} w a.
Global Arguments Throw {A} w.
Global Arguments Terminate {A}.
Global Arguments Undefined {A}.

Definition M (A : Type) : Type := World → outcome A.

Definition ret {A} (a : A) : M A := λ w, Ok w a.

Definition bind {A B} (m : M A) (k : A → M B) : M B := λ w,
  match m w with
  | Ok w' a => k a w'
  | Throw w' => Throw w'
  | Terminate => Terminate
  | Undefined => Undefined
  end.

Local Notation "x <- m ;; k" := (bind m (λ x, k))
  (at level 100, m at next level, k at level 200, right associativity).
Local Notation "m ;;; k" := (bind m (λ _, k))
  (at level 100, k at level 200, right associativity).

Definition throw {A} : M A := λ w, Throw w.
Definition undefined {A} : M A := λ _, Undefined.

(** [assert(b)]. *)
Definition assert (b : bool) : M unit := if b then ret tt else undefined.

(** [try { m } catch (...) { h; throw; }]. *)
Definition catch_rethrow {A} (m : M A) (h : M unit) : M A := λ w,
  match m w with
  | Throw w' => (h ;;; throw) w'
  | o => o
  end.

(** A function declared [noexcept]: an exception that would leave it calls
    [std::terminate]. *)
Definition noexcept {A} (m : M A) : M A := λ w,
  match m w with
  | Throw _ => Terminate
  | o => o
  end.

(** A block with a local object: [cleanup] is the object's destructor, run
    when the block is left, normally or by an exception. *)
Definition scoped {A} (m : M A) (cleanup : M unit) : M A := λ w,
  match m w with
  | Ok w' a => (cleanup ;;; ret a) w'
  | Throw w' => (cleanup ;;; throw) w'
  | o => o
  end.

(** A counted loop [for (i = lo; i < hi; ++i) body]. *)
Fixpoint for_loop (lo n : nat) (body : nat → M unit) : M unit :=
  match n with
  | 0 => ret tt
  | S n' => body lo ;;; for_loop (S lo) n' body
  end.
Definition for_range (lo hi : nat) (body : nat → M unit) : M unit :=
  for_loop lo (hi - lo) body.

(** ** The allocator *)

Definition next_fault (l : list bool) : bool * list bool :=
  match l with
  | [] => (false, [])
  | b :: l' => (b, l')
  end.

(** [operator new(n * sizeof(T))]: throws [std::bad_alloc] when the oracle
    says so, otherwise returns a fresh block of [n] uninitialised slots. *)
Definition operator_new (n : nat) : M ptr := λ w,
  let '(fault, rest) := next_fault (alloc_faults w) in
  let w1 := set_alloc_faults rest w in
  if fault then Throw w1
  else Ok (set_next_addr (S (next_addr w1))
             (set_heap (<[next_addr w1 := replicate n None]> (heap w1)) w1))
          (Some (next_addr w1, 0)).

(** [operator delete(buf)]: nothing for [nullptr]; otherwise [buf] must be
    the start of a live block. *)
Definition operator_delete (buf : ptr) : M unit := λ w,
  match buf with
  | None => Ok w tt
  | Some (a, i) =>
      match heap w !! a with
      | Some _ => if decide (i = 0) then Ok (set_heap (delete a (heap w)) w) tt
                  else Undefined
      | None => Undefined
      end
  end.

(** ** Slots *)

Definition read_slot (p : ptr) (w : World) : option slot :=
  match p with
  | None => None
  | Some (a, i) => blk ← heap w !! a; blk !! i
  end.

Definition write_slot (p : ptr) (s : slot) : M unit := λ w,
  match p with
  | None => Undefined
  | Some (a, i) =>
      match heap w !! a with
      | Some blk =>
          if decide (i < length blk)
          then Ok (set_heap (<[a := <[i := s]> blk]> (heap w)) w) tt
          else Undefined
      | None => Undefined
      end
  end.

(** Reading the object at [p]: the slot must hold a constructed element. *)
Definition load (p : ptr) : M T := λ w,
  match read_slot p w with
  | Some (Some x) => Ok w x
  | _ => Undefined
  end.

(** Whether the next element operation that may throw does throw. *)
Definition elem_fault : M bool := λ w,
  let '(fault, rest) := next_fault (elem_faults w) in
  Ok (set_elem_faults rest w) fault.

Definition may_throw : M unit :=
  fault <- elem_fault ;;
  if fault then throw else ret tt.

Definition tick_ctor : M unit := λ w, Ok (count_ctor w) tt.
Definition tick_dtor : M unit := λ w, Ok (count_dtor w) tt.

(** [new (p) T(...)] once the constructor is known to yield [x]: the
    storage at [p] must exist; whatever it held is overwritten. *)
Definition construct_at (p : ptr) (x : T) : M unit :=
  write_slot p (Some x) ;;; tick_ctor.

(** [std::destroy_at(p)]: ends the lifetime of the element at [p]. *)
Definition destroy_at (p : ptr) : M unit :=
  _ <- load p ;;
  write_slot p None ;;; tick_dtor.

(** Assignment of [x] to the live element at [p]. *)
Definition assign_at (p : ptr) (x : T) : M unit :=
  _ <- load p ;;
  write_slot p (Some x).

(** Copy construction at [p] from the element at [q]. *)
Definition copy_construct (p q : ptr) : M unit :=
  x <- load q ;;
  may_throw ;;;
  construct_at p x.

(** Move construction at [p] from the element at [q]. *)
Definition move_construct (p q : ptr) : M unit :=
  x <- load q ;;
  (if nothrow_move_constructible then ret tt else may_throw) ;;;
  construct_at p x ;;;
  assign_at q (moved_from x).

(** [new (p) T()]. *)
Definition value_construct (p : ptr) : M unit :=
  may_throw ;;;
  construct_at p value_init.

(** Copy assignment of the element at [q] to the element at [p]. *)
Definition copy_assign (p q : ptr) : M unit :=
  x <- load q ;;
  _ <- load p ;;
  may_throw ;;;
  assign_at p x.

(** Move assignment of the element at [q] to the element at [p]. *)
Definition move_assign (p q : ptr) : M unit :=
  x <- load q ;;
  assign_at p x ;;;
  assign_at q (moved_from x).

(** The arguments of [Emplace]/[EmplaceBack] are represented by the
    element [T(args...)] evaluates to; the constructor may throw. *)
Definition construct_from_args (p : ptr) (x : T) : M unit :=
  may_throw ;;;
  construct_at p x.

(** ** Algorithms of <memory> and <algorithm> *)

(** [std::destroy_n(first, n)]. *)
Fixpoint destroy_n (first : ptr) (n : nat) : M unit :=
  match n with
  | 0 => ret tt
  | S n' => destroy_at first ;;; destroy_n (ptr_add first 1) n'
  end.

(** The common shape of [std::uninitialized_*_n]: construct [count]
    elements from [current] on; when a constructor throws, destroy the
    elements constructed so far, [d_first .. current), and rethrow.
    [built] is [current - d_first]. *)
Fixpoint uninitialized_loop (construct : ptr → ptr → M unit)
    (first d_first : ptr) (built count : nat) : M unit :=
  match count with
  | 0 => ret tt
  | S count' =>
      catch_rethrow
        (construct (ptr_add d_first built) (ptr_add first built))
        (destroy_n d_first built) ;;;
      uninitialized_loop construct first d_first (S built) count'
  end.

Definition uninitialized_copy_n (first : ptr) (count : nat) (d_first : ptr) : M unit :=
  uninitialized_loop copy_construct first d_first 0 count.

Definition uninitialized_move_n (first : ptr) (count : nat) (d_first : ptr) : M unit :=
  uninitialized_loop move_construct first d_first 0 count.

Definition uninitialized_value_construct_n (first : ptr) (count : nat) : M unit :=
  uninitialized_loop (λ p _, value_construct p) None first 0 count.

(** [std::move_backward(first, last, d_last)] on pointers into one block:
    [first .. last) must be a range, and is moved, last element first, to
    the range ending at [d_last]. *)
Fixpoint move_backward_loop (a : addr) (last d_last n : nat) {struct n} : M unit :=
  match n with
  | 0 => ret tt
  | S n' =>
      match last, d_last with
      | S last', S d_last' =>
          move_assign (Some (a, d_last')) (Some (a, last')) ;;;
          move_backward_loop a last' d_last' n'
      | _, _ => undefined
      end
  end.

Definition move_backward (first last d_last : ptr) : M unit :=
  match first, last, d_last with
  | Some (a, i), Some (b, j), Some (c, k) =>
      if decide (a = b ∧ b = c ∧ i ≤ j)
      then move_backward_loop a j k (j - i)
      else undefined
  | None, None, None => ret tt
  | _, _, _ => undefined
  end.

(** ** The object store *)

(** Storage for a local object or a new [Vector]. *)
Definition new_object : M oid := λ w,
  Ok (set_next_oid (S (next_oid w)) w) (next_oid w).

Definition get_raw (r : oid) : M RawMemory := λ w,
  match raws w !! r with
  | Some m => Ok w m
  | None => Undefined
  end.
Definition put_raw (r : oid) (m : RawMemory) : M unit := λ w,
  Ok (set_raws (<[r := m]> (raws w)) w) tt.
Definition drop_raw (r : oid) : M unit := λ w,
  Ok (set_raws (delete r (raws w)) w) tt.

Definition get_buffer (r : oid) : M ptr := m <- get_raw r ;; ret (buffer_ m).
Definition get_capacity (r : oid) : M nat := m <- get_raw r ;; ret (capacity_ m).
Definition set_buffer (r : oid) (b : ptr) : M unit :=
  m <- get_raw r ;; put_raw r (mkRaw b (capacity_ m)).
Definition set_capacity (r : oid) (c : nat) : M unit :=
  m <- get_raw r ;; put_raw r (mkRaw (buffer_ m) c).

Definition get_size (v : oid) : M nat := λ w,
  match sizes w !! v with
  | Some n => Ok w n
  | None => Undefined
  end.
Definition put_size (v : oid) (n : nat) : M unit := λ w,
  Ok (set_sizes (<[v := n]> (sizes w)) w) tt.
Definition set_size (v : oid) (n : nat) : M unit :=
  _ <- get_size v ;; put_size v n.
Definition drop_size (v : oid) : M unit := λ w,
  Ok (set_sizes (delete v (sizes w)) w) tt.

(** ** RawMemory<T> *)

(** [Allocate(n)]: raw storage for [n] elements, [nullptr] for [n = 0].
    The code asks for [n * sizeof(T)] bytes, a product in [size_t]: the
    block has [n] slots as long as the product does not wrap, which is
    [allocatable n] below. *)
Definition Allocate (n : nat) : M ptr :=
  if decide (n ≠ 0) then operator_new n else ret None.

Definition Deallocate (buf : ptr) : M unit := operator_delete buf.

(** [RawMemory() = default]. *)
Definition RawMemory_default (this : oid) : M unit :=
  put_raw this (mkRaw None 0).

(** [explicit RawMemory(size_t capacity)]. *)
Definition RawMemory_new (this : oid) (capacity : nat) : M unit :=
  b <- Allocate capacity ;;
  put_raw this (mkRaw b capacity).

(** [RawMemory(RawMemory&& other) noexcept]. *)
Definition RawMemory_move (this other : oid) : M unit :=
  noexcept (
    put_raw this (mkRaw None 0) ;;;
    b <- get_buffer other ;;
    set_buffer other None ;;;
    set_buffer this b ;;;
    c <- get_capacity other ;;
    set_capacity other 0 ;;;
    set_capacity this c).

(** [RawMemory& operator=(RawMemory&& rhs) noexcept]. *)
Definition RawMemory_assign (this rhs : oid) : M unit :=
  noexcept (
    old <- get_buffer this ;;
    Deallocate old ;;;
    b <- get_buffer rhs ;;
    set_buffer rhs None ;;;
    set_buffer this b ;;;
    c <- get_capacity rhs ;;
    set_capacity rhs 0 ;;;
    set_capacity this c).

(** [~RawMemory()]; the object's storage goes with it. *)
Definition RawMemory_delete (this : oid) : M unit :=
  b <- get_buffer this ;;
  Deallocate b ;;;
  drop_raw this.

(** [T* operator+(size_t offset) noexcept]. *)
Definition RawMemory_plus (this : oid) (offset : nat) : M ptr :=
  m <- get_raw this ;;
  assert (bool_decide (offset ≤ capacity_ m)) ;;;
  ret (ptr_add (buffer_ m) offset).

(** [T& operator[](size_t index) noexcept]: the address of the slot. *)
Definition RawMemory_index (this : oid) (i : nat) : M ptr :=
  m <- get_raw this ;;
  assert (bool_decide (i < capacity_ m)) ;;;
  ret (ptr_add (buffer_ m) i).

(** [void Swap(RawMemory& other) noexcept]. *)
Definition RawMemory_Swap (this other : oid) : M unit :=
  b1 <- get_buffer this ;;
  b2 <- get_buffer other ;;
  set_buffer this b2 ;;;
  set_buffer other b1 ;;;
  c1 <- get_capacity this ;;
  c2 <- get_capacity other ;;
  set_capacity this c2 ;;;
  set_capacity other c1.

Definition GetAddress (this : oid) : M ptr := get_buffer this.
Definition RawMemory_Capacity (this : oid) : M nat := get_capacity this.


(** ** Vector<T> *)

(** [p - 1]. *)
Definition ptr_pred (p : ptr) : M ptr :=
  match p with
  | Some (a, S i) => ret (Some (a, i))
  | _ => undefined
  end.

(** [pos - begin()] as an index.  A position before [begin()] or in another
    array is a contract violation. *)
Definition ptr_offset (pos b : ptr) : M nat :=
  match ptr_diff pos b with
  | Some z => if decide (0 ≤ z)%Z then ret (Z.to_nat z) else undefined
  | None => undefined
  end.

(** What [Emplace] forwards to [T]'s constructor: an lvalue (copy
    construction), an rvalue (move construction) or other arguments; in each
    case the element the constructor yields. *)
Inductive Args := ByCopy (x : T) | ByMove (x : T) | ByValues (x : T).

Definition args_value (a : Args) : T :=
  match a with ByCopy x | ByMove x | ByValues x => x end.

Definition args_may_throw (a : Args) : bool :=
  match a with
  | ByMove _ => negb nothrow_move_constructible
  | _ => true
  end.

(** [new (p) T(std::forward<Args>(args)...)]. *)
Definition construct (p : ptr) (a : Args) : M unit :=
  (if args_may_throw a then may_throw else ret tt) ;;;
  construct_at p (args_value a).

Definition Destroy (buf : ptr) : M unit := destroy_at buf.

Definition DestroyN (buf : ptr) (n : nat) : M unit :=
  for_range 0 n (λ i, Destroy (ptr_add buf i)).

Definition CopyConstruct (buf elem : ptr) : M unit := copy_construct buf elem.

Definition begin (this : oid) : M ptr := GetAddress this.

Definition end_ (this : oid) : M ptr :=
  s <- get_size this ;;
  RawMemory_plus this s.

Definition Size (this : oid) : M nat := get_size this.
Definition Capacity (this : oid) : M nat := RawMemory_Capacity this.

(** [T& operator[](size_t index) noexcept]. *)
Definition Vector_index (this : oid) (i : nat) : M ptr :=
  s <- get_size this ;;
  assert (bool_decide (i < s)) ;;;
  RawMemory_index this i.

(** Destruction of the members of a partly constructed [Vector], when the
    body of a constructor throws. *)
Definition unwind_members (this : oid) : M unit :=
  drop_size this ;;;
  RawMemory_delete this.

(** [Vector() = default]. *)
Definition Vector_default (this : oid) : M unit :=
  RawMemory_default this ;;;
  put_size this 0.

(** [explicit Vector(size_t size)]. *)
Definition Vector_new (this : oid) (size : nat) : M unit :=
  RawMemory_new this size ;;;
  put_size this size ;;;
  catch_rethrow
    (b <- GetAddress this ;;
     uninitialized_value_construct_n b size)
    (unwind_members this).

(** [Vector(const Vector& other)]. *)
Definition Vector_copy (this other : oid) : M unit :=
  n <- get_size other ;;
  RawMemory_new this n ;;;
  put_size this n ;;;
  catch_rethrow
    (src <- GetAddress other ;;
     k <- get_size other ;;
     dst <- GetAddress this ;;
     uninitialized_copy_n src k dst)
    (unwind_members this).

(** [Vector(Vector&& other) noexcept]. *)
Definition Vector_move (this other : oid) : M unit :=
  noexcept (
    n <- get_size other ;;
    RawMemory_new this n ;;;
    put_size this n ;;;
    RawMemory_assign this other ;;;
    s <- get_size other ;;
    set_size other 0 ;;;
    set_size this s).

(** [~Vector()], followed by the destruction of the members. *)
Definition Vector_delete (this : oid) : M unit :=
  b <- GetAddress this ;;
  s <- get_size this ;;
  DestroyN b s ;;;
  drop_size this ;;;
  RawMemory_delete this.

(** [void Swap(Vector& other) noexcept]. *)
Definition Swap (this other : oid) : M unit :=
  RawMemory_Swap this other ;;;
  s1 <- get_size this ;;
  s2 <- get_size other ;;
  set_size this s2 ;;;
  set_size other s1.

(** [Vector& operator=(const Vector& rhs)]. *)
Definition assign_copy (this rhs : oid) : M unit :=
  if decide (this ≠ rhs) then
    rs <- get_size rhs ;;
    cap <- RawMemory_Capacity this ;;
    if decide (cap < rs) then
      rhs_copy <- new_object ;;
      Vector_copy rhs_copy rhs ;;;
      scoped (Swap this rhs_copy) (Vector_delete rhs_copy)
    else
      s <- get_size this ;;
      if decide (rs < s) then
        for_range 0 rs (λ i,
          p <- RawMemory_index this i ;;
          q <- Vector_index rhs i ;;
          copy_assign p q) ;;;
        p <- RawMemory_plus this rs ;;
        DestroyN p (s - rs) ;;;
        set_size this rs
      else
        for_range 0 s (λ i,
          p <- RawMemory_index this i ;;
          q <- Vector_index rhs i ;;
          copy_assign p q) ;;;
        src <- RawMemory_plus rhs s ;;
        dst <- GetAddress this ;;
        uninitialized_copy_n src (rs - s) dst ;;;
        set_size this rs
  else ret tt.

(** [Vector& operator=(Vector&& rhs) noexcept]. *)
Definition assign_move (this rhs : oid) : M unit :=
  noexcept (
    RawMemory_assign this rhs ;;;
    s <- get_size rhs ;;
    set_size rhs 0 ;;;
    set_size this s).

(** The test of the [if constexpr] in [Reserve] and [Emplace]. *)
Definition migrate_by_move : bool :=
  nothrow_move_constructible || negb copy_constructible.

(** [void Reserve(size_t new_capacity)]. *)
Definition Reserve (this : oid) (new_capacity : nat) : M unit :=
  cap <- RawMemory_Capacity this ;;
  if decide (new_capacity ≤ cap) then ret tt
  else
    new_data <- new_object ;;
    RawMemory_new new_data new_capacity ;;;
    scoped
      (src <- GetAddress this ;;
       s <- get_size this ;;
       dst <- GetAddress new_data ;;
       (if migrate_by_move then uninitialized_move_n src s dst
        else uninitialized_copy_n src s dst) ;;;
       old <- GetAddress this ;;
       n <- get_size this ;;
       destroy_n old n ;;;
       RawMemory_Swap this new_data)
      (RawMemory_delete new_data).

(** [void Resize(size_t new_size)]. *)
Definition Resize (this : oid) (new_size : nat) : M unit :=
  s <- get_size this ;;
  (if decide (new_size < s) then
     p <- RawMemory_plus this new_size ;;
     DestroyN p (s - new_size)
   else if decide (s < new_size) then
     Reserve this new_size ;;;
     s' <- get_size this ;;
     p <- RawMemory_plus this s' ;;
     uninitialized_value_construct_n p (new_size - s')
   else ret tt) ;;;
  set_size this new_size.

(** [void TryInitMove(int delta, RawMemory<T>& new_data)].  [delta] is the
    value of the [int] parameter; it is the [ptrdiff_t] that [Emplace]
    passes as long as that one fits [int], which is [fits_int] above. *)
Definition TryInitMove (this : oid) (delta : nat) (new_data : oid) : M unit :=
  catch_rethrow
    (src <- GetAddress this ;;
     dst <- GetAddress new_data ;;
     uninitialized_move_n src delta dst)
    (p <- RawMemory_plus new_data delta ;;
     Destroy p) ;;;
  catch_rethrow
    (src <- RawMemory_plus this delta ;;
     s <- get_size this ;;
     dst <- RawMemory_plus new_data delta ;;
     uninitialized_move_n src (s - delta) (ptr_add dst 1))
    (b <- GetAddress new_data ;;
     DestroyN b (delta + 1)).

(** [void TryInitCopy(int delta, RawMemory<T>& new_data)], with [delta] as
    in [TryInitMove]. *)
Definition TryInitCopy (this : oid) (delta : nat) (new_data : oid) : M unit :=
  catch_rethrow
    (src <- GetAddress this ;;
     dst <- GetAddress new_data ;;
     uninitialized_copy_n src delta dst)
    (p <- RawMemory_plus new_data delta ;;
     Destroy p) ;;;
  catch_rethrow
    (src <- RawMemory_plus this delta ;;
     s <- get_size this ;;
     dst <- RawMemory_plus new_data delta ;;
     uninitialized_copy_n src (s - delta) (ptr_add dst 1))
    (b <- GetAddress new_data ;;
     DestroyN b (delta + 1)).

(** [iterator Emplace(const_iterator pos, Args&&... args)]. *)
Definition Emplace (this : oid) (pos : ptr) (args : Args) : M ptr :=
  b <- begin this ;;
  delta <- ptr_offset pos b ;;
  s <- get_size this ;;
  cap <- Capacity this ;;
  (if decide (s = cap) then
     new_data <- new_object ;;
     RawMemory_new new_data (if decide (s = 0) then 1 else s * 2) ;;;
     scoped
       (p <- RawMemory_plus new_data delta ;;
        construct p args ;;;
        (if migrate_by_move then TryInitMove this delta new_data
         else TryInitCopy this delta new_data) ;;;
        old <- GetAddress this ;;
        n <- get_size this ;;
        destroy_n old n ;;;
        RawMemory_assign this new_data)
       (RawMemory_delete new_data)
   else if decide (s = 0) then
     p <- begin this ;;
     construct p args
   else
     (* T tmp(args...) *)
     (if args_may_throw args then may_throw else ret tt) ;;;
     tick_ctor ;;;
     scoped
       (e <- end_ this ;;
        last <- ptr_pred e ;;
        move_construct e last ;;;
        b1 <- begin this ;;
        e1 <- end_ this ;;
        e2 <- ptr_pred e1 ;;
        e3 <- end_ this ;;
        move_backward (ptr_add b1 delta) e2 e3 ;;;
        p <- RawMemory_index this delta ;;
        assign_at p (args_value args))
       tick_dtor) ;;;
  n <- get_size this ;;
  set_size this (S n) ;;;
  b' <- begin this ;;
  ret (ptr_add b' delta).

(** [void PushBack(const T& value)]. *)
Definition PushBack (this : oid) (value : T) : M unit :=
  s <- get_size this ;;
  cap <- Capacity this ;;
  if decide (s = cap) then
    b <- begin this ;;
    s' <- get_size this ;;
    _ <- Emplace this (ptr_add b s') (ByCopy value) ;;
    ret tt
  else
    s' <- get_size this ;;
    p <- RawMemory_plus this s' ;;
    construct p (ByCopy value) ;;;
    n <- get_size this ;;
    set_size this (S n).

(** [void PushBack(T&& value)]. *)
Definition PushBack_move (this : oid) (value : T) : M unit :=
  s <- get_size this ;;
  cap <- Capacity this ;;
  if decide (s = cap) then
    b <- begin this ;;
    s' <- get_size this ;;
    _ <- Emplace this (ptr_add b s') (ByMove value) ;;
    ret tt
  else
    s' <- get_size this ;;
    p <- RawMemory_plus this s' ;;
    construct p (ByMove value) ;;;
    n <- get_size this ;;
    set_size this (S n).

(** [void PopBack() noexcept]. *)
Definition PopBack (this : oid) : M unit :=
  noexcept (
    s <- get_size this ;;
    if decide (s ≠ 0) then
      p <- RawMemory_plus this (s - 1) ;;
      Destroy p ;;;
      n <- get_size this ;;
      set_size this (n - 1)
    else ret tt).

(** [T& EmplaceBack(Args&&... args)]: the address of the element the
    returned reference is bound to. *)
Definition EmplaceBack (this : oid) (args : Args) : M ptr :=
  s <- get_size this ;;
  cap <- Capacity this ;;
  if decide (s = cap) then
    b <- begin this ;;
    s' <- get_size this ;;
    Emplace this (ptr_add b s') args
  else
    s' <- get_size this ;;
    p <- RawMemory_plus this s' ;;
    construct p args ;;;
    n <- get_size this ;;
    set_size this (S n) ;;;
    n' <- get_size this ;;
    RawMemory_index this (n' - 1).

(** [iterator Erase(const_iterator pos) noexcept]. *)
Definition Erase (this : oid) (pos : ptr) : M ptr :=
  noexcept (
    b <- begin this ;;
    delta <- ptr_offset pos b ;;
    s <- get_size this ;;
    for_range (delta + 1) s (λ i,
      p <- RawMemory_index this (i - 1) ;;
      q <- RawMemory_index this i ;;
      move_assign p q) ;;;
    e <- end_ this ;;
    last <- ptr_pred e ;;
    Destroy last ;;;
    n <- get_size this ;;
    set_size this (n - 1) ;;;
    b' <- begin this ;;
    ret (ptr_add b' delta)).

(** [iterator Insert(const_iterator pos, const T& value)]. *)
Definition Insert (this : oid) (pos : ptr) (value : T) : M ptr :=
  Emplace this pos (ByCopy value).

(** [iterator Insert(const_iterator pos, T&& value)]. *)
Definition Insert_move (this : oid) (pos : ptr) (value : T) : M ptr :=
  Emplace this pos (ByMove value).

(** ** Specification vocabulary *)

(** The slots of a block of [cap] slots whose first [length xs] slots hold
    the elements [xs]; the others are uninitialised. *)
Definition live (xs : list T) (cap : nat) : list slot :=
  (Some <$> xs) ++ replicate (cap - length xs) None.

(** [holds w v b cap xs]: in [w], the [Vector] object [v] has buffer [b],
    capacity [cap] and the elements [xs], in this order, in slots
    [0 .. length xs); the invariant of the data model. *)
Definition holds (w : World) (v : oid) (b : ptr) (cap : nat) (xs : list T) : Prop :=
  raws w !! v = Some (mkRaw b cap) ∧
  sizes w !! v = Some (length xs) ∧
  length xs ≤ cap ∧
  match b with
  | None => cap = 0
  | Some (a, i) => i = 0 ∧ 0 < cap ∧ heap w !! a = Some (live xs cap)
  end.

(** Addresses and identifiers from the counters on are unused. *)
Definition wf (w : World) : Prop :=
  (∀ a, next_addr w ≤ a → heap w !! a = None) ∧
  (∀ o, next_oid w ≤ o → raws w !! o = None ∧ sizes w !! o = None).

(** No allocation and no element operation is scheduled to fail. *)
Definition quiet (w : World) : Prop :=
  alloc_faults w = [] ∧ elem_faults w = [].

(** Constructor calls not yet matched by a destructor call agree in [w]
    and [w']. *)
Definition same_balance (w w' : World) : Prop :=
  constructed w' + destroyed w = constructed w + destroyed w'.

(** [w'] has the objects and the raw blocks of [w], and as many live
    elements. *)
Definition restored (w w' : World) : Prop :=
  heap w' = heap w ∧ raws w' = raws w ∧ sizes w' = sizes w ∧
  same_balance w w'.

(** Weakest precondition of [m] for the postcondition [Q] on normal
    return and [E] on a propagating exception; [U] is what is asked when
    [m] terminates the program or has undefined behaviour. *)
Definition wp {A} (U : Prop) (m : M A) (Q : World → A → Prop)
    (E : World → Prop) (w : World) : Prop :=
  match m w with
  | Ok w' a => Q w' a
  | Throw w' => E w'
  | Terminate | Undefined => U
  end.

(** [returns m Q w]: from [w], [m] returns normally in a world satisfying
    [Q], unless an oracle makes an operation fail. *)
Definition returns {A} (m : M A) (Q : World → A → Prop) (w : World) : Prop :=
  match m w with
  | Ok w' a => Q w' a ∧ (quiet w → quiet w')
  | _ => ¬ quiet w
  end.

(** [w] with the block at [a] replaced by [blk]. *)
Definition store (a : addr) (blk : list slot) (w : World) : World :=
  set_heap (<[a := blk]> (heap w)) w.

(** [w] after [n] more destructor calls. *)
Definition count_dtors (n : nat) (w : World) : World :=
  mkWorld (heap w) (next_addr w) (raws w) (sizes w) (next_oid w)
          (alloc_faults w) (elem_faults w) (constructed w) (n + destroyed w).

(** [frame w w']: from [w] to [w'] only raw blocks, the oracle of element
    operations and the counters of constructor and destructor calls may
    have changed, and the oracle has not gained faults. *)
Definition frame (w w' : World) : Prop :=
  next_addr w' = next_addr w ∧ raws w' = raws w ∧ sizes w' = sizes w ∧
  next_oid w' = next_oid w ∧ alloc_faults w' = alloc_faults w ∧
  (elem_faults w = [] → elem_faults w' = []).

(** The capacity after appending to an array of [size] elements and
    capacity [cap]: [Emplace] allocates [size_ == 0 ? 1 : size_ * 2] slots
    when [size_ == Capacity()]. *)
Definition capacity_after_append (cap size : nat) : nat :=
  if decide (size = cap) then (if decide (size = 0) then 1 else size * 2)
  else cap.

(** [PushBack] of each element of [xs] in turn, observing [Capacity()]
    after each call. *)
Fixpoint push_all (v : oid) (xs : list T) : M (list nat) :=
  match xs with
  | [] => ret []
  | x :: xs' =>
      PushBack v x ;;;
      c <- Capacity v ;;
      cs <- push_all v xs' ;;
      ret (c :: cs)
  end.


(** [m] never lets an exception out. *)
Definition nothrow {A} (m : M A) : Prop := ∀ w w', m w ≠ Throw w'.

(** [w'] has the [RawMemory] objects of [w] and no new object. *)
Definition unmoved (w w' : World) : Prop :=
  raws w' = raws w ∧ next_oid w' = next_oid w.

(** [m] leaves the [RawMemory] objects alone, whatever its outcome. *)
Definition kept {A} (m : M A) : Prop :=
  ∀ w, wp True m (λ w' _, unmoved w w') (unmoved w) w.

(** The object [v] exists and has capacity at least [c]. *)
Definition at_least (v : oid) (c : nat) (w : World) : Prop :=
  v < next_oid w ∧ ∃ m, raws w !! v = Some m ∧ c ≤ capacity_ m.

(** [m] keeps the object [v] with capacity at least [c], whether it
    returns or throws. *)
Definition grows {A} (v : oid) (c : nat) (m : M A) : Prop :=
  ∀ w, at_least v c w → wp True m (λ w' _, at_least v c w') (at_least v c) w.

(** The operations on one container, other than move-from and swap and
    move assignment. *)
Inductive Op :=
  | OpAssign (rhs : oid)
  | OpReserve (n : nat)
  | OpResize (n : nat)
  | OpPushBack (x : T)
  | OpPushBackMove (x : T)
  | OpPopBack
  | OpEmplaceBack (a : Args)
  | OpEmplace (pos : ptr) (a : Args)
  | OpInsert (pos : ptr) (x : T)
  | OpInsertMove (pos : ptr) (x : T)
  | OpErase (pos : ptr).

Definition run_op (v : oid) (op : Op) : M unit :=
  match op with
  | OpAssign rhs => assign_copy v rhs
  | OpReserve n => Reserve v n
  | OpResize n => Resize v n
  | OpPushBack x => PushBack v x
  | OpPushBackMove x => PushBack_move v x
  | OpPopBack => PopBack v
  | OpEmplaceBack a => _ <- EmplaceBack v a ;; ret tt
  | OpEmplace pos a => _ <- Emplace v pos a ;; ret tt
  | OpInsert pos x => _ <- Insert v pos x ;; ret tt
  | OpInsertMove pos x => _ <- Insert_move v pos x ;; ret tt
  | OpErase pos => _ <- Erase v pos ;; ret tt
  end.

(** A decidable version of [wf]. *)
Definition wf_check (w : World) : bool :=
  bool_decide (map_Forall (λ a _, a < next_addr w) (heap w)) &&
  bool_decide (map_Forall (λ o _, o < next_oid w) (raws w)) &&
  bool_decide (map_Forall (λ o _, o < next_oid w) (sizes w)).

(** Storage for the object [v] has been set aside, by [new_object], and no
    object has been constructed in it yet. *)
Definition fresh (w : World) (v : oid) : Prop :=
  v < next_oid w ∧ raws w !! v = None ∧ sizes w !! v = None.

(** The buffers [p] and [q] are not in the same raw block. *)
Definition apart (p q : ptr) : Prop :=
  match p, q with
  | Some (a, _), Some (b, _) => a ≠ b
  | _, _ => True
  end.

(** The argument of a [PushBack] call: an lvalue selects
    [PushBack(const T&)], an rvalue [PushBack(T&&)]. *)
Inductive Pushed := Lvalue (x : T) | Rvalue (x : T).


Definition push (v : oid) (a : Pushed) : M unit :=
  match a with
  | Lvalue x => PushBack v x
  | Rvalue x => PushBack_move v x
  end.

(** [PushBack] of each argument of [ps] in turn, by the overload the
    argument selects, observing [Capacity()] after each call. *)
Fixpoint push_each (v : oid) (ps : list Pushed) : M (list nat) :=
  match ps with
  | [] => ret []
  | a :: ps' =>
      push v a ;;;
      c <- Capacity v ;;
      cs <- push_each v ps' ;;
      ret (c :: cs)
  end.

Context `{!Sized T}.

(** [n * sizeof(T)] fits [size_t]: the argument of [operator new] in
    [Allocate(n)] is the byte size of [n] elements. *)
Definition allocatable (n : nat) : Prop :=
  (Z.of_nat n * Z.of_nat sizeof ≤ SIZE_MAX)%Z.

#[global] Instance allocatable_dec n : Decision (allocatable n).
Proof. unfold allocatable. apply _. Defined.

(** Inserting at position [d] of a container of [size] elements and
    capacity [cap] stays within the integer types of the code: when the
    container is full, [d] fits the [int delta] of [TryInitMove] and
    [TryInitCopy], and the new block, of [capacity_after_append cap size]
    elements, is allocatable. *)
Definition insertable (cap size d : nat) : Prop :=
  size = cap → fits_int d ∧ allocatable (capacity_after_append cap size).

#[global] Instance insertable_dec cap size d : Decision (insertable cap size d).
Proof. unfold insertable. apply _. Defined.

(** [Capacity()] of [v] as a function of the world. *)
Definition capacity_of (v : oid) (w : World) : option nat :=
  capacity_ <$> raws w !! v.

(** [Size()] of [v] as a function of the world. *)
Definition size_of (v : oid) (w : World) : option nat := sizes w !! v.

(** The world an outcome leaves, when it leaves one. *)
Definition world_of {A} (o : outcome A) : option World :=
  match o with
  | Ok w _ | Throw w => Some w
  | Terminate | Undefined => None
  end.

(** A sequence of operations on [v]; the caller catches the exceptions and
    goes on.  [None] when an operation ends the program or has undefined
    behaviour. *)
Fixpoint run_ops (v : oid) (ops : list Op) (w : World) : option World :=
  match ops with
  | [] => Some w
  | op :: ops' => w' ← world_of (run_op v op w); run_ops v ops' w'
  end.

End vector.

Notation "x <- m ;; k" := (bind m (λ x, k))
  (at level 100, m at next level, k at level 200, right associativity,
   format "'[v' x  <-  m  ;; '/' k ']'").
Notation "m ;;; k" := (bind m (λ _, k))
  (at level 100, k at level 200, right associativity,
   format "'[v' m  ;;; '/' k ']'").

(** * Reasoning rules *)

Section rules.
Context {T : Type} `{!Element T} `{!Sized T}.
Implicit Types (w : World (T:=T)) (p q : ptr) (x y : T) (xs ys : list T).
Implicit Types (blk : list (option T)).

Lemma bind_ok {A B} (m : M A) (k : A → M B) w w1 a :
  m w = Ok w1 a → bind m k w = k a w1.
Proof. unfold bind. by intros ->. Qed.

Lemma bind_throw {A B} (m : M A) (k : A → M B) w w1 :
  m w = Throw w1 → bind m k w = Throw w1.
Proof. unfold bind. by intros ->. Qed.

(** ** Rules of [wp] *)

Lemma wp_ret {A} U (a : A) Q E w : Q w a → wp U (ret a) Q E w.
Proof. done. Qed.

Lemma wp_bind {A B} U (m : M A) (k : A → M B) Q E w :
  wp U m (λ w1 a, wp U (k a) Q E w1) E w → wp U (bind m k) Q E w.
Proof. unfold wp, bind. by destruct (m w). Qed.

Lemma wp_eq {A} U (m : M A) Q E w w1 a :
  m w = Ok w1 a → Q w1 a → wp U m Q E w.
Proof. unfold wp. by intros ->. Qed.

Lemma wp_mono {A} U (m : M A) (Q Q' : World → A → Prop) (E E' : World → Prop) w :
  wp U m Q E w → (∀ w1 a, Q w1 a → Q' w1 a) → (∀ w1, E w1 → E' w1) →
  wp U m Q' E' w.
Proof. unfold wp. destruct (m w); eauto. Qed.

Lemma wp_catch_rethrow {A} U (m : M A) (h : M unit) Q E w :
  wp U m Q (λ w1, wp U h (λ w2 _, E w2) E w1) w →
  wp U (catch_rethrow m h) Q E w.
Proof.
  unfold wp, catch_rethrow. destruct (m w) as [w1 a|w1| |]; try done.
  unfold bind. by destruct (h w1).
Qed.

Lemma wp_scoped {A} U (m : M A) (c : M unit) Q E w :
  wp U m (λ w1 a, wp U c (λ w2 _, Q w2 a) E w1)
         (λ w1, wp U c (λ w2 _, E w2) E w1) w →
  wp U (scoped m c) Q E w.
Proof.
  unfold wp, scoped. destruct (m w) as [w1 a|w1| |]; try done.
  - unfold bind. by destruct (c w1).
  - unfold bind. by destruct (c w1).
Qed.

Lemma wp_may_throw U Q E w :
  (∀ rest, (elem_faults w = [] → rest = []) → Q (set_elem_faults rest w) tt) →
  (∀ rest, elem_faults w = true :: rest → E (set_elem_faults rest w)) →
  wp U may_throw Q E w.
Proof.
  intros HQ HE. unfold wp, may_throw, bind, elem_fault.
  destruct (elem_faults w) as [|[] rest] eqn:Hf; simpl.
  - by apply HQ.
  - by apply HE.
  - by apply HQ.
Qed.

Lemma wp_operator_new U n Q E w :
  (∀ rest,
     Q (set_next_addr (S (next_addr w))
          (store (next_addr w) (replicate n None) (set_alloc_faults rest w)))
       (Some (next_addr w, 0))) →
  (∀ rest, alloc_faults w = true :: rest → E (set_alloc_faults rest w)) →
  wp U (operator_new n) Q E w.
Proof.
  intros HQ HE. unfold wp, operator_new.
  destruct (alloc_faults w) as [|[] rest] eqn:Hf; cbn [next_fault].
  - apply HQ.
  - by apply HE.
  - apply HQ.
Qed.

(** ** Rules of [returns] *)

Lemma returns_ret {A} (a : A) Q w : Q w a → returns (ret a) Q w.
Proof. by split. Qed.

Lemma returns_bind {A B} (m : M A) (k : A → M B) Q w :
  returns m (λ w1 a, returns (k a) Q w1) w → returns (bind m k) Q w.
Proof.
  unfold returns, bind. destruct (m w) as [w1 a|w1| |]; try done.
  intros [H Hq]. destruct (k a w1); naive_solver.
Qed.

Lemma returns_eq {A} (m : M A) Q w w1 a :
  m w = Ok w1 a → (quiet w → quiet w1) → Q w1 a → returns m Q w.
Proof. unfold returns. by intros ->. Qed.

Lemma returns_mono {A} (m : M A) (Q Q' : World → A → Prop) w :
  returns m Q w → (∀ w1 a, Q w1 a → Q' w1 a) → returns m Q' w.
Proof. unfold returns. destruct (m w); naive_solver. Qed.

Lemma returns_catch_rethrow {A} (m : M A) (h : M unit) Q w :
  returns m Q w → returns (catch_rethrow m h) Q w.
Proof.
  unfold returns, catch_rethrow. destruct (m w) as [w1 a|w1| |]; try done.
  intros Hq. unfold bind, throw. by destruct (h w1).
Qed.

Lemma returns_noexcept {A} (m : M A) Q w :
  returns m Q w → returns (noexcept m) Q w.
Proof. unfold returns, noexcept. by destruct (m w). Qed.

Lemma returns_scoped {A} (m : M A) (c : M unit) Q w :
  returns m (λ w1 a, returns c (λ w2 _, Q w2 a) w1) w →
  returns (scoped m c) Q w.
Proof.
  unfold returns, scoped. destruct (m w) as [w1 a|w1| |]; try done.
  - intros [H Hq]. unfold bind. destruct (c w1); naive_solver.
  - intros Hq. unfold bind, throw. by destruct (c w1).
Qed.

Lemma returns_may_throw Q w :
  (∀ rest, (elem_faults w = [] → rest = []) → Q (set_elem_faults rest w) tt) →
  returns may_throw Q w.
Proof.
  intros HQ. unfold returns, may_throw, bind, elem_fault, quiet.
  destruct (elem_faults w) as [|[] rest] eqn:Hf; simpl.
  - split; [by apply HQ|done].
  - intros [_ ?]. done.
  - split; [by apply HQ|]. intros [_ ?]. done.
Qed.

Lemma returns_operator_new n Q w :
  (∀ rest, (alloc_faults w = [] → rest = []) →
     Q (set_next_addr (S (next_addr w))
          (store (next_addr w) (replicate n None) (set_alloc_faults rest w)))
       (Some (next_addr w, 0))) →
  returns (operator_new n) Q w.
Proof.
  intros HQ. unfold returns, operator_new, quiet.
  destruct (alloc_faults w) as [|[] rest] eqn:Hf; cbn [next_fault].
  - split; [by apply HQ|done].
  - intros [? _]. done.
  - split; [by apply HQ|]. intros [? _]. done.
Qed.



(** ** World bookkeeping *)

Lemma world_eta w :
  mkWorld (heap w) (next_addr w) (raws w) (sizes w) (next_oid w)
          (alloc_faults w) (elem_faults w) (constructed w) (destroyed w) = w.
Proof. by destruct w. Qed.

Lemma store_id a blk w : heap w !! a = Some blk → store a blk w = w.
Proof.
  intros H. unfold store, set_heap. rewrite insert_id by done. apply world_eta.
Qed.

Lemma store_store a blk1 blk2 w :
  store a blk2 (store a blk1 w) = store a blk2 w.
Proof. unfold store, set_heap. simpl. by rewrite insert_insert_eq. Qed.

Lemma heap_store a blk w : heap (store a blk w) !! a = Some blk.
Proof. apply lookup_insert_eq. Qed.

Lemma heap_store_ne a b blk w : a ≠ b → heap (store a blk w) !! b = heap w !! b.
Proof. intros. by apply lookup_insert_ne. Qed.

(** ** Equations of the primitives *)

Lemma get_raw_eq r m w : raws w !! r = Some m → get_raw r w = Ok w m.
Proof. unfold get_raw. by intros ->. Qed.

Lemma get_buffer_eq r m w : raws w !! r = Some m → get_buffer r w = Ok w (buffer_ m).
Proof. intros H. unfold get_buffer. by rewrite (bind_ok _ _ _ _ _ (get_raw_eq _ _ _ H)). Qed.

Lemma GetAddress_eq r m w : raws w !! r = Some m → GetAddress r w = Ok w (buffer_ m).
Proof. apply get_buffer_eq. Qed.

Lemma begin_eq r m w : raws w !! r = Some m → begin r w = Ok w (buffer_ m).
Proof. apply get_buffer_eq. Qed.

Lemma get_capacity_eq r m w :
  raws w !! r = Some m → get_capacity r w = Ok w (capacity_ m).
Proof. intros H. unfold get_capacity. by rewrite (bind_ok _ _ _ _ _ (get_raw_eq _ _ _ H)). Qed.

Lemma Capacity_eq r m w : raws w !! r = Some m → Capacity r w = Ok w (capacity_ m).
Proof. apply get_capacity_eq. Qed.

Lemma set_buffer_eq r m b w :
  raws w !! r = Some m →
  set_buffer r b w = Ok (set_raws (<[r := mkRaw b (capacity_ m)]> (raws w)) w) tt.
Proof. intros H. unfold set_buffer. by rewrite (bind_ok _ _ _ _ _ (get_raw_eq _ _ _ H)). Qed.

Lemma set_capacity_eq r m c w :
  raws w !! r = Some m →
  set_capacity r c w = Ok (set_raws (<[r := mkRaw (buffer_ m) c]> (raws w)) w) tt.
Proof. intros H. unfold set_capacity. by rewrite (bind_ok _ _ _ _ _ (get_raw_eq _ _ _ H)). Qed.

Lemma get_size_eq v n w : sizes w !! v = Some n → get_size v w = Ok w n.
Proof. unfold get_size. by intros ->. Qed.

Lemma set_size_eq v n k w :
  sizes w !! v = Some n →
  set_size v k w = Ok (set_sizes (<[v := k]> (sizes w)) w) tt.
Proof. intros H. unfold set_size. by rewrite (bind_ok _ _ _ _ _ (get_size_eq _ _ _ H)). Qed.

Lemma RawMemory_plus_eq r b c off w :
  raws w !! r = Some (mkRaw b c) → off ≤ c →
  RawMemory_plus r off w = Ok w (ptr_add b off).
Proof.
  intros H Hle. unfold RawMemory_plus.
  rewrite (bind_ok _ _ _ _ _ (get_raw_eq _ _ _ H)). simpl.
  by rewrite bool_decide_eq_true_2.
Qed.

Lemma RawMemory_index_eq r b c i w :
  raws w !! r = Some (mkRaw b c) → i < c →
  RawMemory_index r i w = Ok w (ptr_add b i).
Proof.
  intros H Hle. unfold RawMemory_index.
  rewrite (bind_ok _ _ _ _ _ (get_raw_eq _ _ _ H)). simpl.
  by rewrite bool_decide_eq_true_2.
Qed.

Lemma end_eq v b c n w :
  raws w !! v = Some (mkRaw b c) → sizes w !! v = Some n → n ≤ c →
  end_ v w = Ok w (ptr_add b n).
Proof.
  intros Hr Hs Hle. unfold end_.
  rewrite (bind_ok _ _ _ _ _ (get_size_eq _ _ _ Hs)).
  by apply (RawMemory_plus_eq _ _ c).
Qed.

Lemma ptr_offset_eq a i j w : j ≤ i → ptr_offset (Some (a, i)) (Some (a, j)) w = Ok w (i - j).
Proof.
  intros Hle. unfold ptr_offset, ptr_diff. rewrite decide_True by done.
  rewrite decide_True by lia. unfold ret. f_equal. lia.
Qed.

Lemma load_eq a i blk x w :
  heap w !! a = Some blk → blk !! i = Some (Some x) → load (Some (a, i)) w = Ok w x.
Proof. intros H1 H2. unfold load, read_slot. rewrite H1. simpl. by rewrite H2. Qed.

Lemma write_slot_eq a i s blk w :
  heap w !! a = Some blk → i < length blk →
  write_slot (Some (a, i)) s w = Ok (store a (<[i := s]> blk) w) tt.
Proof. intros H1 H2. unfold write_slot. rewrite H1. by rewrite decide_True. Qed.

Lemma construct_at_eq a i x blk w :
  heap w !! a = Some blk → i < length blk →
  construct_at (Some (a, i)) x w = Ok (count_ctor (store a (<[i := Some x]> blk) w)) tt.
Proof.
  intros H1 H2. unfold construct_at.
  by rewrite (bind_ok _ _ _ _ _ (write_slot_eq _ _ _ _ _ H1 H2)).
Qed.

Lemma destroy_at_eq a i x blk w :
  heap w !! a = Some blk → blk !! i = Some (Some x) →
  destroy_at (Some (a, i)) w = Ok (count_dtor (store a (<[i := None]> blk) w)) tt.
Proof.
  intros H1 H2. unfold destroy_at.
  rewrite (bind_ok _ _ _ _ _ (load_eq _ _ _ _ _ H1 H2)).
  apply lookup_lt_Some in H2.
  by rewrite (bind_ok _ _ _ _ _ (write_slot_eq _ _ _ _ _ H1 H2)).
Qed.

Lemma assign_at_eq a i x y blk w :
  heap w !! a = Some blk → blk !! i = Some (Some y) →
  assign_at (Some (a, i)) x w = Ok (store a (<[i := Some x]> blk) w) tt.
Proof.
  intros H1 H2. unfold assign_at.
  rewrite (bind_ok _ _ _ _ _ (load_eq _ _ _ _ _ H1 H2)).
  apply lookup_lt_Some in H2. by apply write_slot_eq.
Qed.

Lemma move_assign_eq a i j x y blk w :
  heap w !! a = Some blk → blk !! j = Some (Some x) → blk !! i = Some (Some y) →
  i ≠ j →
  move_assign (Some (a, i)) (Some (a, j)) w
  = Ok (store a (<[j := Some (moved_from x)]> (<[i := Some x]> blk)) w) tt.
Proof.
  intros H1 Hj Hi Hne. unfold move_assign.
  rewrite (bind_ok _ _ _ _ _ (load_eq _ _ _ _ _ H1 Hj)).
  rewrite (bind_ok _ _ _ _ _ (assign_at_eq _ _ x _ _ _ H1 Hi)).
  erewrite assign_at_eq; [by rewrite store_store|apply heap_store|].
  by rewrite list_lookup_insert_ne.
Qed.

Lemma noexcept_ok {A} (m : M A) w w1 a : m w = Ok w1 a → noexcept m w = Ok w1 a.
Proof. unfold noexcept. by intros ->. Qed.

(** ** Blocks of live elements *)

Lemma length_live xs cap : length xs ≤ cap → length (live xs cap) = cap.
Proof.
  intros. unfold live. rewrite length_app, length_fmap, length_replicate. lia.
Qed.

Lemma live_lookup_lt xs cap i x :
  xs !! i = Some x → live xs cap !! i = Some (Some x).
Proof.
  intros H. unfold live. apply lookup_app_l_Some.
  by rewrite list_lookup_fmap, H.
Qed.

Lemma live_lookup_ge xs cap i :
  length xs ≤ i → i < cap → live xs cap !! i = Some None.
Proof.
  intros H1 H2. unfold live. rewrite lookup_app_r by (rewrite length_fmap; lia).
  rewrite length_fmap. apply lookup_replicate_2. lia.
Qed.

Lemma live_snoc xs x cap :
  length xs < cap →
  live (xs ++ [x]) cap = (Some <$> xs) ++ Some x :: replicate (cap - S (length xs)) None.
Proof.
  intros. unfold live. rewrite fmap_app, length_app. simpl.
  rewrite <- app_assoc. simpl. do 3 f_equal. lia.
Qed.

Lemma live_cons_tail xs cap :
  length xs < cap →
  live xs cap = (Some <$> xs) ++ None :: replicate (cap - S (length xs)) None.
Proof.
  intros. unfold live. rewrite <- replicate_S. do 2 f_equal. lia.
Qed.

Lemma live_insert_end xs x cap :
  length xs < cap → <[length xs := Some x]> (live xs cap) = live (xs ++ [x]) cap.
Proof.
  intros. rewrite live_snoc, (live_cons_tail xs) by done.
  rewrite insert_app_r_alt by (rewrite length_fmap; lia).
  by rewrite length_fmap, Nat.sub_diag.
Qed.

Lemma live_remove_end xs x cap :
  length xs < cap → <[length xs := None]> (live (xs ++ [x]) cap) = live xs cap.
Proof.
  intros. rewrite live_snoc, (live_cons_tail xs) by done.
  rewrite insert_app_r_alt by (rewrite length_fmap; lia).
  by rewrite length_fmap, Nat.sub_diag.
Qed.

Ltac side :=
  simpl; first [eassumption | apply lookup_insert_eq | lia | done].
Ltac step L := erewrite bind_ok; [| eapply L; side]; simpl.

(** C8: [PopBack] on a non-empty container destroys the last element (one
    destructor call, the slot is uninitialised afterwards) and decrements
    the size, leaving the other elements, the buffer and the capacity as
    they were; on an empty container it returns normally and changes
    nothing. *)
Theorem PopBack_destroys_last v b cap xs w :
  holds w v b cap xs →
  ∃ w', PopBack v w = Ok w' tt ∧
    match xs with
    | [] => w' = w
    | _ => holds w' v b cap (removelast xs) ∧
           size_of v w' = Some (length xs - 1) ∧
           constructed w' = constructed w ∧ destroyed w' = S (destroyed w) ∧
           read_slot (ptr_add b (length xs - 1)) w' = Some None
    end.
Proof.
  intros (Hr & Hs & Hle & Hb).
  destruct xs as [|x0 xs0 _] using rev_ind.
  - exists w. split; [|done]. apply noexcept_ok.
    by step get_size_eq.
  - rewrite length_app in Hs, Hle. simpl in *.
    destruct b as [[a i]|]; [|lia]. destruct Hb as (-> & Hc & Hh).
    eexists. split.
    + apply noexcept_ok. step get_size_eq.
      rewrite decide_True by lia.
      step RawMemory_plus_eq.
      unfold Destroy. erewrite bind_ok; cycle 1.
      { eapply destroy_at_eq; [done|]. apply live_lookup_lt.
        replace (length xs0 + 1 - 1) with (length xs0) by lia.
        apply list_lookup_middle. done. }
      step get_size_eq. eapply set_size_eq. side.
    + replace (length xs0 + 1 - 1) with (length xs0) by lia.
      rewrite live_remove_end by lia.
      destruct (xs0 ++ [x0]) eqn:Heq; [by destruct xs0|]. rewrite <- Heq.
      rewrite removelast_last, length_app. simpl.
      replace (length xs0 + 1 - 1) with (length xs0) by lia.
      unfold size_of. repeat split; simpl; try done; try lia.
      * by rewrite lookup_insert_eq.
      * by rewrite lookup_insert_eq.
      * by rewrite lookup_insert_eq.
      * rewrite lookup_insert_eq. simpl. apply live_lookup_ge; lia.
Qed.

(** ** [Erase] *)

Lemma shift_left_loop v a cap zs : ∀ pre y post w,
  raws w !! v = Some (mkRaw (Some (a, 0)) cap) →
  heap w !! a = Some (pre ++ Some y :: (Some <$> zs) ++ post) →
  length pre + 1 + length zs ≤ cap →
  ∃ z, for_loop (S (length pre)) (length zs)
         (λ i, p <- RawMemory_index v (i - 1) ;;
               q <- RawMemory_index v i ;;
               move_assign p q) w
       = Ok (store a (pre ++ (Some <$> zs) ++ Some z :: post) w) tt.
Proof.
  induction zs as [|z zs IH]; intros pre y post w Hr Hh Hle.
  - exists y. simpl. unfold ret. by rewrite store_id.
  - simpl in Hle.
    set (blk1 := pre ++ Some z :: Some (moved_from z) :: (Some <$> zs) ++ post).
    destruct (IH (pre ++ [Some z]) (moved_from z) post (store a blk1 w))
      as [z' Hz'].
    + done.
    + rewrite heap_store. unfold blk1. by rewrite <- app_assoc.
    + rewrite length_app. simpl. lia.
    + exists z'. simpl.
      erewrite bind_ok; cycle 1.
      { step RawMemory_index_eq. step RawMemory_index_eq.
        rewrite Nat.sub_0_r.
        eapply (move_assign_eq _ _ _ z y); [done| | |lia].
        - rewrite (cons_middle (Some y)), app_assoc.
          apply list_lookup_middle. rewrite length_app. simpl. lia.
        - by apply list_lookup_middle. }
      replace (<[S (length pre):=Some (moved_from z)]>
                 (<[length pre:=Some z]>
                    (pre ++ Some y :: (Some <$> z :: zs) ++ post))) with blk1.
      * rewrite length_app in Hz'. simpl in Hz'.
        replace (length pre + 1) with (S (length pre)) in Hz' by lia.
        rewrite Hz', store_store. by rewrite <- !app_assoc.
      * unfold blk1. simpl.
        rewrite (insert_app_r_alt pre _ (length pre)) by lia.
        rewrite Nat.sub_diag. simpl.
        rewrite insert_app_r_alt by lia.
        by replace (S (length pre) - length pre) with 1 by lia.
Qed.

Lemma ret_eq {A} (a : A) w : ret a w = Ok w a.
Proof. done. Qed.

Lemma ptr_pred_eq a i w : 0 < i → ptr_pred (Some (a, i)) w = Ok w (Some (a, i - 1)).
Proof. intros. destruct i; [lia|]. simpl. by rewrite Nat.sub_0_r. Qed.

Lemma live_split xs cap d x :
  xs !! d = Some x →
  live xs cap = (Some <$> take d xs) ++ Some x ::
                (Some <$> drop (S d) xs) ++ replicate (cap - length xs) None.
Proof.
  intros H. unfold live. rewrite <- (take_drop_middle xs d x H) at 1.
  rewrite fmap_app. simpl. by rewrite <- app_assoc.
Qed.

(** C9: for a non-empty container and a position [d] in [0, size),
    [Erase] returns the position it was given; the elements are then the
    former ones without the one at [d], so the returned position holds the
    element that followed the erased one, or is [end()] when the last
    element was erased. *)
Theorem Erase_returns_position v a cap xs d w :
  holds w v (Some (a, 0)) cap xs → d < length xs →
  ∃ w', Erase v (Some (a, d)) w = Ok w' (Some (a, d)) ∧
        holds w' v (Some (a, 0)) cap (delete d xs) ∧
        (∀ y, xs !! S d = Some y → read_slot (Some (a, d)) w' = Some (Some y)) ∧
        (xs !! S d = None → end_ v w' = Ok w' (Some (a, d))).
Proof.
  intros (Hr & Hs & Hle & _ & Hc & Hh) Hd.
  destruct (lookup_lt_is_Some_2 xs d Hd) as [x Hx].
  rewrite (live_split _ _ _ _ Hx) in Hh.
  assert (Hlt : length (take d xs) = d) by (rewrite length_take; lia).
  assert (Hld : length (drop (S d) xs) = length xs - S d) by apply length_drop.
  destruct (shift_left_loop v a cap (drop (S d) xs) (Some <$> take d xs) x
              (replicate (cap - length xs) None) w) as [z Hz]; [done|done| |].
  { rewrite length_fmap. lia. }
  rewrite !length_fmap, Hlt, Hld in Hz.
  set (blk1 := (Some <$> take d xs) ++ (Some <$> drop (S d) xs) ++
               Some z :: replicate (cap - length xs) None) in Hz.
  assert (Hlast : blk1 !! (length xs - 1) = Some (Some z)).
  { unfold blk1. rewrite app_assoc. apply list_lookup_middle.
    rewrite length_app, !length_fmap. lia. }
  assert (Hblk : <[length xs - 1 := None]> blk1 = live (delete d xs) cap).
  { unfold blk1, live. rewrite delete_take_drop, fmap_app, <- !app_assoc.
    rewrite insert_app_r_alt by (rewrite length_fmap; lia).
    rewrite insert_app_r_alt by (rewrite !length_fmap; lia).
    rewrite !length_fmap, Hlt, Hld, length_app, Hlt, Hld.
    replace (length xs - 1 - d - (length xs - S d)) with 0 by lia. simpl.
    rewrite <- replicate_S. do 3 f_equal. lia. }
  eexists. split; [|split; [|split]].
  - apply noexcept_ok. step begin_eq. step ptr_offset_eq. step get_size_eq.
    rewrite Nat.sub_0_r. unfold for_range.
    replace (d + 1) with (S d) by lia.
    rewrite (bind_ok _ _ _ _ _ Hz).
    erewrite bind_ok; [|by eapply end_eq]. simpl.
    step ptr_pred_eq.
    erewrite bind_ok; cycle 1.
    { unfold Destroy. eapply destroy_at_eq; [apply heap_store|done]. }
    rewrite store_store.
    step get_size_eq. erewrite bind_ok; [|eapply set_size_eq; side].
    step begin_eq. done.
  - simpl. rewrite Hblk.
    repeat split; simpl; try done.
    + rewrite lookup_insert_eq, length_delete by eauto. done.
    + rewrite length_delete by eauto. lia.
    + by rewrite lookup_insert_eq.
  - intros y Hy. simpl. rewrite lookup_insert_eq. simpl.
    rewrite Hblk. apply live_lookup_lt.
    rewrite delete_take_drop, lookup_app_r by lia.
    rewrite Hlt, Nat.sub_diag, lookup_drop. by rewrite Nat.add_0_r.
  - intros Hn. apply lookup_ge_None in Hn.
    assert (length xs = S d) as Hl by lia.
    change (Some (a, d)) with (ptr_add (Some (a, 0)) d).
    eapply (end_eq _ _ cap); simpl; [done| |lia].
    rewrite lookup_insert_eq. f_equal. lia.
Qed.

(** ** Frames *)

Lemma frame_refl w : frame w w.
Proof. by repeat split. Qed.

Lemma frame_trans w1 w2 w3 : frame w1 w2 → frame w2 w3 → frame w1 w3.
Proof.
  intros (?&?&?&?&?&?) (?&?&?&?&?&?). repeat split; try congruence. auto.
Qed.

Lemma frame_quiet w w' : frame w w' → quiet w → quiet w'.
Proof. intros (?&?&?&?&Ha&He) [? ?]. split; [congruence|auto]. Qed.

Lemma count_dtors_0 w : count_dtors 0 w = w.
Proof. by destruct w. Qed.

Lemma set_elem_faults_id w : set_elem_faults (elem_faults w) w = w.
Proof. by destruct w. Qed.

(** ** Destruction of a range *)

Lemma destroy_n_eq a ys : ∀ pre post w,
  heap w !! a = Some (pre ++ (Some <$> ys) ++ post) →
  destroy_n (Some (a, length pre)) (length ys) w
  = Ok (count_dtors (length ys)
          (store a (pre ++ replicate (length ys) None ++ post) w)) tt.
Proof.
  induction ys as [|y ys IH]; intros pre post w Hh.
  - simpl. unfold ret. by rewrite store_id, count_dtors_0.
  - simpl. erewrite bind_ok; cycle 1.
    { eapply destroy_at_eq; [done|]. by apply list_lookup_middle. }
    replace (length pre + 1) with (length (pre ++ [@None T]))
      by (rewrite length_app; simpl; lia).
    rewrite (IH (pre ++ [None]) post).
    + f_equal. unfold count_dtors, count_dtor, store, set_heap. simpl.
      rewrite insert_insert_eq, <- app_assoc. simpl. do 2 f_equal. lia.
    + simpl. rewrite lookup_insert_eq.
      rewrite insert_app_r_alt, Nat.sub_diag by lia. simpl.
      by rewrite <- app_assoc.
Qed.

Lemma DestroyN_loop_eq a base ys : ∀ pre post w,
  heap w !! a = Some (pre ++ (Some <$> ys) ++ post) →
  base ≤ length pre →
  for_loop (length pre - base) (length ys)
    (λ i, Destroy (ptr_add (Some (a, base)) i)) w
  = Ok (count_dtors (length ys)
          (store a (pre ++ replicate (length ys) None ++ post) w)) tt.
Proof.
  induction ys as [|y ys IH]; intros pre post w Hh Hb.
  - simpl. unfold ret. by rewrite store_id, count_dtors_0.
  - simpl. erewrite bind_ok; cycle 1.
    { unfold Destroy. replace (base + (length pre - base)) with (length pre) by lia.
      eapply destroy_at_eq; [done|]. by apply list_lookup_middle. }
    replace (S (length pre - base)) with (length (pre ++ [@None T]) - base)
      by (rewrite length_app; simpl; lia).
    rewrite (IH (pre ++ [None]) post).
    + f_equal. unfold count_dtors, count_dtor, store, set_heap. simpl.
      rewrite insert_insert_eq, <- app_assoc. simpl. do 2 f_equal. lia.
    + simpl. rewrite lookup_insert_eq.
      rewrite insert_app_r_alt, Nat.sub_diag by lia. simpl.
      by rewrite <- app_assoc.
    + rewrite length_app. simpl. lia.
Qed.

Lemma DestroyN_eq a ys pre post w :
  heap w !! a = Some (pre ++ (Some <$> ys) ++ post) →
  DestroyN (Some (a, length pre)) (length ys) w
  = Ok (count_dtors (length ys)
          (store a (pre ++ replicate (length ys) None ++ post) w)) tt.
Proof.
  intros Hh. unfold DestroyN, for_range. rewrite Nat.sub_0_r.
  rewrite <- (DestroyN_loop_eq a (length pre) ys pre post w Hh) by lia.
  by rewrite Nat.sub_diag.
Qed.

(** ** The loop of [std::uninitialized_*_n] *)

Lemma returns_uninitialized_loop construct first d_first
    (I : nat → World → Prop) Q count : ∀ built w,
  I built w →
  (∀ b w1, built ≤ b → b < built + count → I b w1 →
     returns (construct (ptr_add d_first b) (ptr_add first b))
       (λ w2 _, I (S b) w2) w1) →
  (∀ w1, I (built + count) w1 → Q w1 tt) →
  returns (uninitialized_loop construct first d_first built count) Q w.
Proof.
  induction count as [|count IH]; intros built w HI Hstep HQ.
  - apply returns_ret. apply HQ. by rewrite Nat.add_0_r.
  - simpl. apply returns_bind, returns_catch_rethrow.
    eapply returns_mono; [apply Hstep; [lia..|done]|].
    intros w1 [] HI1. apply IH; [done| |].
    + intros b w2 ? ? ?. apply Hstep; [lia..|done].
    + intros w2 ?. apply HQ. by replace (built + S count) with (S built + count) by lia.
Qed.

Lemma returns_copy_construct sa si da di y sblk dblk Q w :
  heap w !! sa = Some sblk → sblk !! si = Some (Some y) →
  heap w !! da = Some dblk → di < length dblk →
  (∀ rest, (elem_faults w = [] → rest = []) →
     Q (count_ctor (store da (<[di := Some y]> dblk) (set_elem_faults rest w))) tt) →
  returns (copy_construct (Some (da, di)) (Some (sa, si))) Q w.
Proof.
  intros Hs Hy Hd Hlt HQ. unfold copy_construct.
  apply returns_bind. eapply returns_eq; [by eapply load_eq|done|].
  apply returns_bind, returns_may_throw. intros rest Hrest.
  eapply returns_eq; [by eapply construct_at_eq|done|]. by apply HQ.
Qed.

Lemma returns_move_construct sa si da di y sblk dblk Q w :
  sa ≠ da →
  heap w !! sa = Some sblk → sblk !! si = Some (Some y) →
  heap w !! da = Some dblk → di < length dblk →
  (∀ rest, (elem_faults w = [] → rest = []) →
     Q (store sa (<[si := Some (moved_from y)]> sblk)
          (count_ctor (store da (<[di := Some y]> dblk)
             (set_elem_faults rest w)))) tt) →
  returns (move_construct (Some (da, di)) (Some (sa, si))) Q w.
Proof.
  intros Hne Hs Hy Hd Hlt HQ. unfold move_construct.
  apply returns_bind. eapply returns_eq; [by eapply load_eq|done|].
  assert (∀ w1 (Q1 : World → unit → Prop),
    heap w1 = heap w →
    Q1 (store sa (<[si := Some (moved_from y)]> sblk)
          (count_ctor (store da (<[di := Some y]> dblk) w1))) tt →
    returns (construct_at (Some (da, di)) y ;;;
             assign_at (Some (sa, si)) (moved_from y)) Q1 w1) as Hrest.
  { intros w1 Q1 Hw1 HQ1. apply returns_bind.
    eapply returns_eq; [eapply construct_at_eq; [by rewrite Hw1|done]|done|].
    eapply returns_eq;
      [eapply assign_at_eq; [|done]; simpl; by rewrite lookup_insert_ne, Hw1
      |done|exact HQ1]. }
  apply returns_bind. destruct nothrow_move_constructible.
  - apply returns_ret. apply Hrest; [done|].
    specialize (HQ (elem_faults w) (λ H, H)).
    by rewrite set_elem_faults_id in HQ.
  - apply returns_may_throw. intros rest Hr. apply Hrest; [done|]. by apply HQ.
Qed.

Lemma fill_step (pre post : list (option T)) ys b y :
  ys !! b = Some y →
  <[length pre + b := Some y]>
    (pre ++ (Some <$> take b ys) ++ replicate (length ys - b) None ++ post)
  = pre ++ (Some <$> take (S b) ys) ++ replicate (length ys - S b) None ++ post.
Proof.
  intros Hy. assert (b < length ys) by by eapply lookup_lt_Some.
  rewrite insert_app_r. f_equal.
  rewrite insert_app_r_alt by (rewrite length_fmap, length_take; lia).
  rewrite length_fmap, length_take, Nat.min_l by lia. rewrite Nat.sub_diag.
  replace (length ys - b) with (S (length ys - S b)) by lia. simpl.
  rewrite (take_S_r _ _ _ Hy), fmap_app, <- app_assoc. done.
Qed.

Lemma drain_step (f : T → T) (pre post : list (option T)) ys b y :
  ys !! b = Some y →
  <[length pre + b := Some (f y)]>
    (pre ++ (Some <$> (f <$> take b ys)) ++ (Some <$> drop b ys) ++ post)
  = pre ++ (Some <$> (f <$> take (S b) ys)) ++ (Some <$> drop (S b) ys) ++ post.
Proof.
  intros Hy. assert (b < length ys) by by eapply lookup_lt_Some.
  rewrite insert_app_r. f_equal.
  rewrite insert_app_r_alt by (rewrite !length_fmap, length_take; lia).
  rewrite !length_fmap, length_take, Nat.min_l by lia. rewrite Nat.sub_diag.
  rewrite (drop_S _ _ _ Hy). simpl.
  rewrite (take_S_r _ _ _ Hy), !fmap_app, <- app_assoc. done.
Qed.

Lemma drain_lookup (f : T → T) (pre post : list (option T)) ys b y :
  ys !! b = Some y →
  (pre ++ (Some <$> (f <$> take b ys)) ++ (Some <$> drop b ys) ++ post)
    !! (length pre + b) = Some (Some y).
Proof.
  intros Hy. assert (b < length ys) by by eapply lookup_lt_Some.
  rewrite lookup_app_r by lia.
  rewrite lookup_app_r by (rewrite !length_fmap, length_take; lia).
  rewrite !length_fmap, length_take, Nat.min_l by lia.
  replace (length pre + b - length pre - b) with 0 by lia.
  by rewrite (drop_S _ _ _ Hy).
Qed.

Lemma mid_lookup (pre post : list (option T)) ys b y :
  ys !! b = Some y →
  (pre ++ (Some <$> ys) ++ post) !! (length pre + b) = Some (Some y).
Proof.
  intros Hy. rewrite lookup_app_r by lia.
  replace (length pre + b - length pre) with b by lia.
  apply lookup_app_l_Some. by rewrite list_lookup_fmap, Hy.
Qed.

Lemma insert_twice {V} (h : gmap addr V) (a b : addr) (u u' v v' : V) :
  a ≠ b →
  <[a := u']> (<[b := v']> (<[a := u]> (<[b := v]> h))) = <[a := u']> (<[b := v']> h).
Proof.
  intros Hne. apply map_eq. intros k.
  destruct (decide (k = a)) as [->|]; [by simplify_map_eq|].
  destruct (decide (k = b)) as [->|]; by simplify_map_eq.
Qed.

Lemma returns_uninitialized_copy_n sa da ys spre spost pre post Q w :
  sa ≠ da →
  heap w !! sa = Some (spre ++ (Some <$> ys) ++ spost) →
  heap w !! da = Some (pre ++ replicate (length ys) None ++ post) →
  (∀ w', frame w w' →
         heap w' = <[da := pre ++ (Some <$> ys) ++ post]> (heap w) → Q w' tt) →
  returns (uninitialized_copy_n (Some (sa, length spre)) (length ys)
             (Some (da, length pre))) Q w.
Proof.
  intros Hne Hs Hd HQ. unfold uninitialized_copy_n.
  apply (returns_uninitialized_loop _ _ _ (λ b w',
    frame w w' ∧
    heap w' = <[da := pre ++ (Some <$> take b ys) ++
                       replicate (length ys - b) None ++ post]> (heap w))).
  - split; [apply frame_refl|]. simpl. rewrite Nat.sub_0_r.
    by rewrite insert_id.
  - intros b w1 _ Hb [Hf Hh]. simpl in Hb.
    destruct (lookup_lt_is_Some_2 ys b Hb) as [y Hy]. simpl.
    eapply returns_copy_construct.
    + by rewrite Hh, lookup_insert_ne, Hs.
    + by apply mid_lookup.
    + rewrite Hh. apply lookup_insert_eq.
    + rewrite !length_app, length_fmap, length_take, length_replicate. lia.
    + intros rest Hrest. split.
      * eapply frame_trans; [done|]. repeat split; simpl; done.
      * simpl. rewrite Hh, insert_insert_eq. f_equal. by apply fill_step.
  - intros w1 [Hf Hh]. apply HQ; [done|]. rewrite Hh. simpl.
    by rewrite firstn_all, Nat.sub_diag.
Qed.

Lemma returns_uninitialized_move_n sa da ys spre spost pre post Q w :
  sa ≠ da →
  heap w !! sa = Some (spre ++ (Some <$> ys) ++ spost) →
  heap w !! da = Some (pre ++ replicate (length ys) None ++ post) →
  (∀ w', frame w w' →
         heap w' = <[sa := spre ++ (Some <$> (moved_from <$> ys)) ++ spost]>
                     (<[da := pre ++ (Some <$> ys) ++ post]> (heap w)) →
         Q w' tt) →
  returns (uninitialized_move_n (Some (sa, length spre)) (length ys)
             (Some (da, length pre))) Q w.
Proof.
  intros Hne Hs Hd HQ. unfold uninitialized_move_n.
  apply (returns_uninitialized_loop _ _ _ (λ b w',
    frame w w' ∧
    heap w' = <[sa := spre ++ (Some <$> (moved_from <$> take b ys)) ++
                        (Some <$> drop b ys) ++ spost]>
              (<[da := pre ++ (Some <$> take b ys) ++
                        replicate (length ys - b) None ++ post]> (heap w)))).
  - split; [apply frame_refl|]. simpl. rewrite Nat.sub_0_r, drop_0.
    rewrite (insert_id _ da) by done. by rewrite insert_id.
  - intros b w1 _ Hb [Hf Hh]. simpl in Hb.
    destruct (lookup_lt_is_Some_2 ys b Hb) as [y Hy]. simpl.
    eapply returns_move_construct; [done| | | | |].
    + rewrite Hh. apply lookup_insert_eq.
    + by apply drain_lookup.
    + rewrite Hh, lookup_insert_ne by done. apply lookup_insert_eq.
    + rewrite !length_app, length_fmap, length_take, length_replicate. lia.
    + intros rest Hrest. split.
      * eapply frame_trans; [done|]. repeat split; simpl; done.
      * simpl. rewrite Hh, insert_twice by done. f_equal.
        -- by apply drain_step.
        -- f_equal. by apply fill_step.
  - intros w1 [Hf Hh]. apply HQ; [done|]. rewrite Hh. simpl.
    by rewrite firstn_all, drop_all, Nat.sub_diag.
Qed.

(** Migration of a range by the policy of [Reserve] and [Emplace]: the
    destination receives the elements; the source keeps elements, the same
    ones after copies and what the moves leave after moves. *)
Lemma returns_migrate sa da ys spre spost pre post Q w :
  sa ≠ da →
  heap w !! sa = Some (spre ++ (Some <$> ys) ++ spost) →
  heap w !! da = Some (pre ++ replicate (length ys) None ++ post) →
  (∀ w' zs, frame w w' → length zs = length ys →
         heap w' = <[sa := spre ++ (Some <$> zs) ++ spost]>
                     (<[da := pre ++ (Some <$> ys) ++ post]> (heap w)) →
         Q w' tt) →
  returns ((if migrate_by_move then uninitialized_move_n else uninitialized_copy_n)
             (Some (sa, length spre)) (length ys) (Some (da, length pre))) Q w.
Proof.
  intros Hne Hs Hd HQ. destruct migrate_by_move.
  - eapply returns_uninitialized_move_n; [done..|].
    intros w' Hf Hh. apply (HQ w' (moved_from <$> ys)); [done| |done].
    by rewrite length_fmap.
  - eapply returns_uninitialized_copy_n; [done..|].
    intros w' Hf Hh. apply (HQ w' ys); [done..|].
    rewrite Hh. symmetry. apply insert_id. by rewrite lookup_insert_ne.
Qed.

Ltac qside := first [done | unfold quiet; simpl; tauto].
Ltac rstep L :=
  apply returns_bind; eapply returns_eq; [eapply L; side | qside | simpl].

Lemma new_object_eq w :
  new_object w = Ok (set_next_oid (S (next_oid w)) w) (next_oid w).
Proof. done. Qed.

Lemma put_raw_eq r m w :
  put_raw r m w = Ok (set_raws (<[r := m]> (raws w)) w) tt.
Proof. done. Qed.

Lemma drop_raw_eq r w : drop_raw r w = Ok (set_raws (delete r (raws w)) w) tt.
Proof. done. Qed.

Lemma operator_delete_eq a blk w :
  heap w !! a = Some blk →
  operator_delete (Some (a, 0)) w = Ok (set_heap (delete a (heap w)) w) tt.
Proof. intros H. unfold operator_delete. by rewrite H. Qed.

Lemma returns_construct a i blk args Q w :
  heap w !! a = Some blk → i < length blk →
  (∀ rest, (elem_faults w = [] → rest = []) →
     Q (count_ctor (store a (<[i := Some (args_value args)]> blk)
          (set_elem_faults rest w))) tt) →
  returns (construct (Some (a, i)) args) Q w.
Proof.
  intros Hh Hi HQ. unfold construct. apply returns_bind.
  destruct (args_may_throw args).
  - apply returns_may_throw. intros rest Hrest.
    eapply returns_eq; [by eapply construct_at_eq|done|by apply HQ].
  - apply returns_ret.
    eapply returns_eq; [by eapply construct_at_eq|done|].
    specialize (HQ (elem_faults w) (λ H, H)).
    by rewrite set_elem_faults_id in HQ.
Qed.

Lemma frame_lookups w w' :
  frame w w' → raws w' = raws w ∧ sizes w' = sizes w.
Proof. intros (?&?&?&?&?&?). done. Qed.

Lemma returns_TryInit v nd a na cap newcap xs d x Q w :
  a ≠ na →
  raws w !! v = Some (mkRaw (Some (a, 0)) cap) →
  raws w !! nd = Some (mkRaw (Some (na, 0)) newcap) →
  sizes w !! v = Some (length xs) →
  length xs ≤ cap → d ≤ length xs → length xs < newcap →
  heap w !! a = Some (live xs cap) →
  heap w !! na = Some (replicate d None ++ Some x :: replicate (newcap - S d) None) →
  (∀ w' zs, frame w w' → length zs = length xs →
     heap w' = <[a := live zs cap]>
                 (<[na := live (take d xs ++ x :: drop d xs) newcap]> (heap w)) →
     Q w' tt) →
  returns (if migrate_by_move then TryInitMove v d nd else TryInitCopy v d nd) Q w.
Proof.
  intros Hne Hr Hrn Hs Hle Hd Hlt Hh Hhn HQ.
  assert (Hlt1 : length (take d xs) = d) by (rewrite length_take; lia).
  assert (Hld : length (drop d xs) = length xs - d) by apply length_drop.
  pose proof (returns_migrate a na (take d xs) []
    ((Some <$> drop d xs) ++ replicate (cap - length xs) None) []
    (Some x :: replicate (newcap - S d) None)) as Hpre.
  pose proof (λ zs1 Q w, returns_migrate a na (drop d xs) (Some <$> zs1)
    (replicate (cap - length xs) None) ((Some <$> take d xs) ++ [Some x])
    (replicate (newcap - S (length xs)) None) Q w) as Hsuf.
  simpl in Hpre.
  assert (returns
    (catch_rethrow
       (src <- GetAddress v ;; dst <- GetAddress nd ;;
        (if migrate_by_move then uninitialized_move_n else uninitialized_copy_n)
          src d dst)
       (p <- RawMemory_plus nd d ;; Destroy p) ;;;
     catch_rethrow
       (src <- RawMemory_plus v d ;; s <- get_size v ;;
        dst <- RawMemory_plus nd d ;;
        (if migrate_by_move then uninitialized_move_n else uninitialized_copy_n)
          src (s - d) (ptr_add dst 1))
       (b <- GetAddress nd ;; DestroyN b (d + 1))) Q w) as Hgoal.
  2: { unfold TryInitMove, TryInitCopy. by destruct migrate_by_move. }
  apply returns_bind, returns_catch_rethrow.
  rstep GetAddress_eq. rstep GetAddress_eq.
  rewrite <- Hlt1 at 1.
  apply Hpre; [done| |by rewrite Hlt1|].
  { rewrite Hh. unfold live. rewrite <- (take_drop d xs) at 1.
    by rewrite fmap_app, <- app_assoc. }
  intros w1 zs1 Hf1 Hz1 Hh1. destruct (frame_lookups _ _ Hf1) as [Hr1 Hs1].
  apply returns_catch_rethrow.
  apply returns_bind.
  eapply returns_eq; [eapply (RawMemory_plus_eq _ _ cap); [by rewrite Hr1|lia]|done|].
  apply returns_bind.
  eapply returns_eq; [eapply get_size_eq; by rewrite Hs1|done|].
  apply returns_bind.
  eapply returns_eq; [eapply (RawMemory_plus_eq _ _ newcap); [by rewrite Hr1|lia]|done|].
  simpl.
  replace (length xs - d) with (length (drop d xs)) by done.
  replace (Some (a, d)) with (Some (a, length (Some <$> zs1)))
    by (by rewrite length_fmap, Hz1, Hlt1).
  replace (Some (na, d + 1))
    with (Some (na, length ((Some <$> take d xs) ++ [Some x])))
    by (by rewrite length_app, length_fmap, Hlt1).
  apply Hsuf; [done| | |].
  { rewrite Hh1. apply lookup_insert_eq. }
  { rewrite Hh1, lookup_insert_ne, lookup_insert_eq by done.
    f_equal. rewrite <- app_assoc. simpl. do 2 f_equal.
    rewrite <- replicate_add. f_equal. lia. }
  intros w2 zs2 Hf2 Hz2 Hh2.
  apply (HQ w2 (zs1 ++ zs2)).
  - by eapply frame_trans.
  - rewrite length_app, Hz1, Hz2, Hlt1, Hld. lia.
  - rewrite Hh2, Hh1, insert_twice by done. unfold live.
    rewrite fmap_app, <- !app_assoc, !length_app, Hz1, Hz2, Hlt1, Hld.
    simpl. rewrite fmap_app, <- app_assoc, Hld. simpl.
    replace (cap - (d + (length xs - d))) with (cap - length xs) by lia.
    by replace (newcap - (d + S (length xs - d)))
      with (newcap - S (length xs)) by lia.
Qed.

Lemma insert_replicate_None (n d : nat) (s : option T) :
  d < n →
  <[d := s]> (replicate n None) = replicate d None ++ s :: replicate (n - S d) None.
Proof.
  intros. replace n with (d + S (n - S d)) at 1 by lia.
  rewrite replicate_add. simpl.
  rewrite insert_app_r_alt by (rewrite length_replicate; lia).
  by rewrite length_replicate, Nat.sub_diag.
Qed.

Lemma live_all_None (zs : list T) cap :
  length zs ≤ cap →
  [] ++ replicate (length zs) None ++ replicate (cap - length zs) None
  = replicate cap (@None T).
Proof. intros. simpl. rewrite <- replicate_add. f_equal. lia. Qed.

Ltac lk :=
  simpl; repeat first [rewrite lookup_insert_eq | rewrite lookup_insert_ne by done
                      | rewrite lookup_delete_eq | rewrite lookup_delete_ne by done].

Ltac side2 := lk; first [eassumption | done | lia].
Ltac rstep2 L :=
  apply returns_bind; eapply returns_eq; [eapply L; side2 | qside | simpl].

Lemma Emplace_realloc_returns v a cap xs d args w :
  holds w v (Some (a, 0)) cap xs → length xs = cap → d ≤ length xs → wf w →
  returns (Emplace v (Some (a, d)) args)
    (λ w' p,
       p = Some (next_addr w, d) ∧
       holds w' v (Some (next_addr w, 0)) (cap * 2)
         (take d xs ++ args_value args :: drop d xs) ∧
       wf w' ∧ heap w' !! a = None) w.
Proof.
  intros (Hr & Hs & Hle & _ & Hc & Hh) Hfull Hd [Hwa Hwo].
  assert (Hvn : v ≠ next_oid w).
  { intros Heq. destruct (Hwo v) as [Hn _]; [lia|]. rewrite Hn in Hr. done. }
  assert (Han : a ≠ next_addr w).
  { intros Heq. rewrite Hwa in Hh; [done|lia]. }
  unfold Emplace.
  rstep begin_eq. rstep ptr_offset_eq. rewrite Nat.sub_0_r.
  rstep get_size_eq. rstep Capacity_eq.
  rewrite decide_True by done.
  apply returns_bind.
  rstep new_object_eq.
  rewrite decide_False by lia.
  apply returns_bind. unfold RawMemory_new, Allocate.
  rewrite decide_True by lia.
  apply returns_bind, returns_operator_new. intros arest Harest.
  eapply returns_eq; [apply put_raw_eq|qside|]. simpl.
  apply returns_scoped.
  set (na := next_addr w) in *. set (nd := next_oid w) in *.
  apply returns_bind.
  eapply returns_eq; [eapply RawMemory_plus_eq; [lk; done|lia]|done|].
  apply returns_bind.
  eapply returns_construct; [lk; done|rewrite length_replicate; lia|].
  intros erest Herest. rewrite insert_replicate_None by lia.
  apply returns_bind.
  eapply (returns_TryInit v nd a na cap (length xs * 2) xs d);
    [done|lk; done|lk; done|done|lia|done|lia|by lk|by lk|].
  intros w1 zs Hf1 Hzs Hh1. destruct Hf1 as (Hna1 & Hr1 & Hs1 & Hno1 & _ & _).
  simpl in Hna1, Hr1, Hs1, Hno1, Hh1. clear Harest Herest.
  assert (Hrv1 : raws w1 !! v = Some (mkRaw (Some (a, 0)) cap))
    by (rewrite Hr1; by lk).
  assert (Hrn1 : raws w1 !! nd = Some (mkRaw (Some (na, 0)) (length xs * 2)))
    by (rewrite Hr1; by lk).
  assert (Hsv1 : sizes w1 !! v = Some (length xs)) by (by rewrite Hs1).
  assert (Hha1 : heap w1 !! a = Some (live zs cap)) by (rewrite Hh1; by lk).
  assert (Hhn1 : heap w1 !! na = Some
    (live (take d xs ++ args_value args :: drop d xs) (length xs * 2)))
    by (rewrite Hh1; by lk).
  assert (Hothers : ∀ a', a' ≠ a → a' ≠ na → heap w1 !! a' = heap w !! a').
  { intros a' ? ?. rewrite Hh1. by lk. }
  clear Hh1.
  rstep2 GetAddress_eq. rstep2 get_size_eq.
  apply returns_bind. rewrite <- Hzs.
  eapply returns_eq;
    [by eapply (destroy_n_eq a zs [] (replicate (cap - length zs) None))|qside|].
  rewrite live_all_None by lia.
  unfold RawMemory_assign. apply returns_noexcept.
  rstep2 get_buffer_eq.
  apply returns_bind.
  eapply returns_eq; [eapply operator_delete_eq; by lk|qside|]. simpl.
  rstep2 get_buffer_eq. rstep2 set_buffer_eq. rstep2 set_buffer_eq.
  rstep2 get_capacity_eq. rstep2 set_capacity_eq.
  eapply returns_eq; [eapply set_capacity_eq; side2|qside|]. simpl.
  unfold RawMemory_delete.
  rstep2 get_buffer_eq.
  apply returns_bind. eapply returns_eq; [done|qside|].
  eapply returns_eq; [apply drop_raw_eq|qside|]. simpl.
  rstep2 get_size_eq.
  apply returns_bind. eapply returns_eq; [eapply set_size_eq; side2|qside|]. simpl.
  rstep2 begin_eq.
  apply returns_ret.
  assert (Hv_lt : v < nd).
  { destruct (decide (v < nd)); [done|].
    destruct (Hwo v) as [Hn _]; [lia|]. by rewrite Hn in Hr. }
  split; [done|]. split; [|split].
  - repeat split; simpl.
    + lk. by rewrite Hfull.
    + lk. rewrite length_app. simpl. rewrite length_take, length_drop.
      do 2 f_equal. lia.
    + rewrite length_app. simpl. rewrite length_take, length_drop. lia.
    + lia.
    + lk. by rewrite Hhn1, Hfull.
  - split; simpl.
    + intros a' Ha'. rewrite Hna1 in Ha'.
      destruct (decide (a' = a)) as [->|]; [by lk|].
      lk. rewrite Hothers by lia. apply Hwa. lia.
    + intros o Ho. rewrite Hno1 in Ho. split.
      * rewrite lookup_delete_ne by lia. rewrite !lookup_insert_ne by lia.
        rewrite Hr1. rewrite lookup_insert_ne by lia. apply Hwo. lia.
      * rewrite lookup_insert_ne by lia. rewrite Hs1. apply Hwo. lia.
  - by lk.
Qed.

Lemma Emplace_first_returns v args w :
  holds w v None 0 [] → wf w →
  returns (Emplace v None args)
    (λ w' p,
       p = Some (next_addr w, 0) ∧
       holds w' v (Some (next_addr w, 0)) 1 [args_value args] ∧ wf w') w.
Proof.
  intros (Hr & Hs & _ & _) [Hwa Hwo].
  assert (Hvn : v ≠ next_oid w).
  { intros Heq. destruct (Hwo v) as [Hn _]; [lia|]. by rewrite Hn in Hr. }
  assert (Hv_lt : v < next_oid w).
  { destruct (decide (v < next_oid w)); [done|].
    destruct (Hwo v) as [Hn _]; [lia|]. by rewrite Hn in Hr. }
  unfold Emplace.
  rstep begin_eq.
  apply returns_bind. eapply returns_eq; [done|done|]. simpl.
  rstep get_size_eq. rstep Capacity_eq.
  apply returns_bind.
  rstep new_object_eq.
  apply returns_bind. unfold RawMemory_new, Allocate. simpl.
  apply returns_bind, returns_operator_new. intros arest _.
  eapply returns_eq; [apply put_raw_eq|qside|]. simpl.
  set (na := next_addr w) in *. set (nd := next_oid w) in *.
  apply returns_scoped.
  rstep2 RawMemory_plus_eq.
  apply returns_bind.
  eapply returns_construct; [lk; done|simpl; lia|].
  intros erest _. simpl.
  apply returns_bind.
  assert (∀ (un : ptr → nat → ptr → M unit) Q w,
    (∀ p q, un p 0 q = ret tt) →
    raws w !! v = Some (mkRaw None 0) → sizes w !! v = Some 0 →
    raws w !! nd = Some (mkRaw (Some (na, 0)) 1) →
    Q w tt →
    returns
      (catch_rethrow
         (src <- GetAddress v ;; dst <- GetAddress nd ;; un src 0 dst)
         (p <- RawMemory_plus nd 0 ;; Destroy p) ;;;
       catch_rethrow
         (src <- RawMemory_plus v 0 ;; s <- get_size v ;;
          dst <- RawMemory_plus nd 0 ;; un src (s - 0) (ptr_add dst 1))
         (b <- GetAddress nd ;; DestroyN b (0 + 1))) Q w) as Hinit.
  { intros un Q w0 Hun Hr0 Hs0 Hn0 HQ.
    apply returns_bind, returns_catch_rethrow.
    rstep GetAddress_eq. rstep GetAddress_eq. rewrite Hun.
    apply returns_ret, returns_catch_rethrow.
    rstep RawMemory_plus_eq. rstep get_size_eq. rstep RawMemory_plus_eq.
    rewrite Hun. by apply returns_ret. }
  assert (returns
    (if migrate_by_move then TryInitMove v 0 nd else TryInitCopy v 0 nd)
    (λ w' _, w' = count_ctor (store na [Some (args_value args)]
       (set_elem_faults erest
          (set_raws (<[nd := mkRaw (Some (na, 0)) 1]> (raws w))
             (set_next_addr (S na)
                (store na [None]
                   (set_alloc_faults arest (set_next_oid (S nd) w))))))))
    (count_ctor (store na [Some (args_value args)]
       (set_elem_faults erest
          (set_raws (<[nd := mkRaw (Some (na, 0)) 1]> (raws w))
             (set_next_addr (S na)
                (store na [None]
                   (set_alloc_faults arest (set_next_oid (S nd) w))))))))) as Hm.
  { destruct migrate_by_move; apply Hinit; try done; by lk. }
  eapply returns_mono; [exact Hm|]. clear Hm Hinit.
  intros w1 [] ->.
  rstep2 GetAddress_eq. rstep2 get_size_eq.
  apply returns_bind, returns_ret.
  unfold RawMemory_assign. apply returns_noexcept.
  rstep2 get_buffer_eq.
  apply returns_bind. eapply returns_eq; [done|qside|]. simpl.
  rstep2 get_buffer_eq. rstep2 set_buffer_eq. rstep2 set_buffer_eq.
  rstep2 get_capacity_eq. rstep2 set_capacity_eq.
  eapply returns_eq; [eapply set_capacity_eq; side2|qside|]. simpl.
  unfold RawMemory_delete.
  rstep2 get_buffer_eq.
  apply returns_bind. eapply returns_eq; [done|qside|].
  eapply returns_eq; [apply drop_raw_eq|qside|]. simpl.
  rstep2 get_size_eq.
  apply returns_bind. eapply returns_eq; [eapply set_size_eq; side2|qside|]. simpl.
  rstep2 begin_eq.
  apply returns_ret.
  split; [done|]. split.
  - repeat split; simpl; try by lk. lia.
  - split; simpl.
    + intros a' Ha'. rewrite insert_insert_eq, lookup_insert_ne by lia.
      apply Hwa. lia.
    + intros o Ho. split.
      * rewrite lookup_delete_ne by lia. rewrite !lookup_insert_ne by lia.
        apply Hwo. lia.
      * rewrite lookup_insert_ne by lia. apply Hwo. lia.
Qed.

(** ** Appending *)

Lemma Emplace_end_returns v b cap xs args w :
  holds w v b cap xs → length xs = cap → wf w →
  returns (Emplace v (ptr_add b (length xs)) args)
    (λ w' p, ∃ a',
       p = Some (a', length xs) ∧
       holds w' v (Some (a', 0)) (capacity_after_append cap (length xs))
         (xs ++ [args_value args]) ∧
       wf w') w.
Proof.
  intros Hh Hfull Hwf. unfold capacity_after_append.
  rewrite decide_True by done.
  destruct b as [[a i]|].
  - pose proof Hh as (_ & _ & _ & -> & Hc & _). simpl.
    rewrite decide_False by lia.
    eapply returns_mono;
      [by apply (Emplace_realloc_returns v a cap xs (length xs))|].
    intros w' p (-> & Hh' & Hwf' & _). exists (next_addr w).
    rewrite firstn_all, drop_all in Hh'. by rewrite Hfull.
  - pose proof Hh as (_ & _ & _ & Hc). subst cap.
    destruct xs; [|done]. simpl.
    eapply returns_mono; [by apply Emplace_first_returns|].
    intros w' p (-> & Hh' & Hwf'). by exists (next_addr w).
Qed.

Lemma append_in_place_returns v b cap xs args w :
  holds w v b cap xs → length xs < cap → wf w →
  returns
    (s' <- get_size v ;;
     p <- RawMemory_plus v s' ;;
     construct p args ;;;
     n <- get_size v ;;
     set_size v (S n))
    (λ w' _, holds w' v b cap (xs ++ [args_value args]) ∧ wf w') w.
Proof.
  intros (Hr & Hs & Hle & Hb) Hlt [Hwa Hwo].
  destruct b as [[a i]|]; [|lia]. destruct Hb as (-> & Hc & Hh).
  rstep get_size_eq. rstep RawMemory_plus_eq.
  apply returns_bind.
  eapply returns_construct; [done|by rewrite length_live|].
  intros erest _. rewrite live_insert_end by done.
  rstep2 get_size_eq.
  eapply returns_eq; [eapply set_size_eq; side2|qside|]. simpl.
  split.
  - repeat split; simpl; try done.
    + lk. rewrite length_app. simpl. f_equal. lia.
    + rewrite length_app. simpl. lia.
    + by lk.
  - split; simpl.
    + intros a' Ha'. destruct (decide (a' = a)) as [->|].
      * by rewrite Hwa in Hh.
      * rewrite lookup_insert_ne by done. by apply Hwa.
    + intros o Ho. split; [by apply Hwo|].
      destruct (decide (o = v)) as [->|].
      * destruct (Hwo v Ho) as [_ Hn]. by rewrite Hn in Hs.
      * rewrite lookup_insert_ne by done. by apply Hwo.
Qed.

Lemma PushBack_returns v b cap xs x w :
  holds w v b cap xs → wf w →
  returns (PushBack v x)
    (λ w' _, ∃ b',
       holds w' v b' (capacity_after_append cap (length xs)) (xs ++ [x]) ∧
       wf w') w.
Proof.
  intros Hh Hwf. pose proof Hh as (Hr & Hs & Hle & Hb). unfold PushBack.
  rstep get_size_eq. rstep Capacity_eq.
  destruct (decide (length xs = cap)) as [Hfull|Hnf].
  - rstep begin_eq. rstep get_size_eq.
    apply returns_bind.
    eapply returns_mono; [by apply Emplace_end_returns|].
    intros w' p (a' & -> & Hh' & Hwf'). apply returns_ret. eauto.
  - eapply returns_mono; [apply append_in_place_returns; [done|lia|done]|].
    intros w' [] [Hh' Hwf']. exists b. unfold capacity_after_append.
    by rewrite decide_False.
Qed.

Lemma PushBack_move_returns v b cap xs x w :
  holds w v b cap xs → wf w →
  returns (PushBack_move v x)
    (λ w' _, ∃ b',
       holds w' v b' (capacity_after_append cap (length xs)) (xs ++ [x]) ∧
       wf w' ∧ (length xs < cap → b' = b)) w.
Proof.
  intros Hh Hwf. pose proof Hh as (Hr & Hs & Hle & Hb). unfold PushBack_move.
  rstep get_size_eq. rstep Capacity_eq.
  destruct (decide (length xs = cap)) as [Hfull|Hnf].
  - rstep begin_eq. rstep get_size_eq.
    apply returns_bind.
    eapply returns_mono;
      [by apply (Emplace_end_returns v b cap xs (ByMove x))|].
    intros w' p (a' & -> & Hh' & Hwf'). apply returns_ret.
    exists (Some (a', 0)). split; [done|]. split; [done|]. intros ?. lia.
  - eapply returns_mono;
      [apply (append_in_place_returns v b cap xs (ByMove x)); [done|lia|done]|].
    intros w' [] [Hh' Hwf']. exists b. unfold capacity_after_append.
    by rewrite decide_False.
Qed.




(** ** Growth by repeated [PushBack] *)




(** ** Computations that do not throw *)

Lemma nothrow_ret {A} (a : A) : nothrow (ret (T:=T) a).
Proof. by intros w w'. Qed.

Lemma nothrow_undefined {A} : nothrow (@undefined T A).
Proof. by intros w w'. Qed.

Lemma nothrow_bind {A B} (m : M (T:=T) A) (k : A → M (T:=T) B) :
  nothrow m → (∀ a, nothrow (k a)) → nothrow (bind m k).
Proof.
  intros Hm Hk w w'. unfold bind. destruct (m w) as [w1 a|w1| |] eqn:E; try done.
  - apply Hk.
  - by apply Hm in E.
Qed.

Lemma nothrow_noexcept {A} (m : M (T:=T) A) : nothrow (noexcept m).
Proof. intros w w'. unfold noexcept. by destruct (m w). Qed.

Lemma nothrow_assert c : nothrow (assert (T:=T) c).
Proof. destruct c; [apply nothrow_ret|apply nothrow_undefined]. Qed.

Lemma nothrow_get_raw r : nothrow (get_raw (T:=T) r).
Proof. intros w w'. unfold get_raw. by destruct (raws w !! r). Qed.

Lemma nothrow_put_raw r m : nothrow (put_raw (T:=T) r m).
Proof. by intros w w'. Qed.

Lemma nothrow_drop_raw r : nothrow (drop_raw (T:=T) r).
Proof. by intros w w'. Qed.

Lemma nothrow_get_size v : nothrow (get_size (T:=T) v).
Proof. intros w w'. unfold get_size. by destruct (sizes w !! v). Qed.

Lemma nothrow_put_size v n : nothrow (put_size (T:=T) v n).
Proof. by intros w w'. Qed.

Lemma nothrow_load p : nothrow (load (T:=T) p).
Proof. intros w w'. unfold load. by destruct (read_slot p w) as [[]|]. Qed.

Lemma nothrow_write_slot p (s : option T) : nothrow (write_slot p s).
Proof.
  intros w w'. unfold write_slot. destruct p as [[a i]|]; [|done].
  destruct (heap w !! a); [|done]. by case_decide.
Qed.

Lemma nothrow_operator_delete p : nothrow (operator_delete (T:=T) p).
Proof.
  intros w w'. unfold operator_delete. destruct p as [[a i]|]; [|done].
  destruct (heap w !! a); [|done]. by case_decide.
Qed.

Lemma nothrow_tick_dtor : nothrow (tick_dtor (T:=T)).
Proof. by intros w w'. Qed.

Create HintDb nothrow.
Hint Resolve nothrow_ret nothrow_undefined nothrow_noexcept nothrow_assert
  nothrow_get_raw nothrow_put_raw nothrow_drop_raw nothrow_get_size
  nothrow_put_size nothrow_load nothrow_write_slot nothrow_operator_delete
  nothrow_tick_dtor : nothrow.

Ltac nothrow_tac :=
  repeat first
    [ apply nothrow_bind; [|intros ?]
    | solve [auto with nothrow] ].

Lemma nothrow_get_buffer r : nothrow (get_buffer (T:=T) r).
Proof. unfold get_buffer. nothrow_tac. Qed.

Lemma nothrow_get_capacity r : nothrow (get_capacity (T:=T) r).
Proof. unfold get_capacity. nothrow_tac. Qed.

Lemma nothrow_set_buffer r b : nothrow (set_buffer (T:=T) r b).
Proof. unfold set_buffer. nothrow_tac. Qed.

Lemma nothrow_set_capacity r c : nothrow (set_capacity (T:=T) r c).
Proof. unfold set_capacity. nothrow_tac. Qed.

Lemma nothrow_set_size v n : nothrow (set_size (T:=T) v n).
Proof. unfold set_size. nothrow_tac. Qed.

Lemma nothrow_destroy_at p : nothrow (destroy_at (T:=T) p).
Proof. unfold destroy_at. nothrow_tac. Qed.

Hint Resolve nothrow_get_buffer nothrow_get_capacity nothrow_set_buffer
  nothrow_set_capacity nothrow_set_size nothrow_destroy_at : nothrow.

Lemma nothrow_destroy_n n : ∀ p, nothrow (destroy_n (T:=T) p n).
Proof. induction n; intros p; simpl; nothrow_tac. Qed.

Lemma nothrow_RawMemory_Swap r1 r2 : nothrow (RawMemory_Swap (T:=T) r1 r2).
Proof. unfold RawMemory_Swap. nothrow_tac. Qed.

Lemma nothrow_RawMemory_delete r : nothrow (RawMemory_delete (T:=T) r).
Proof. unfold RawMemory_delete, Deallocate. nothrow_tac. Qed.

Lemma nothrow_RawMemory_assign r1 r2 : nothrow (RawMemory_assign (T:=T) r1 r2).
Proof. apply nothrow_noexcept. Qed.

Hint Resolve nothrow_destroy_n nothrow_RawMemory_Swap nothrow_RawMemory_delete
  nothrow_RawMemory_assign : nothrow.

Lemma wp_nothrow {A} (m : M A) (Q : World → A → Prop) E w :
  nothrow m → (∀ w1 a, Q w1 a) → wp True m Q E w.
Proof.
  intros Hm HQ. unfold wp. destruct (m w) eqn:Hw; try done.
  by apply Hm in Hw.
Qed.

(** ** Copies that may fail *)

Lemma wp_uninitialized_loop U construct first d_first
    (I : nat → World → Prop) Q E count : ∀ built w,
  I built w →
  (∀ b w1, built ≤ b → b < built + count → I b w1 →
     wp U (construct (ptr_add d_first b) (ptr_add first b))
       (λ w2 _, I (S b) w2)
       (λ w2, wp U (destroy_n d_first b) (λ w3 _, E w3) E w2) w1) →
  (∀ w1, I (built + count) w1 → Q w1 tt) →
  wp U (uninitialized_loop construct first d_first built count) Q E w.
Proof.
  induction count as [|count IH]; intros built w HI Hstep HQ.
  - apply wp_ret. apply HQ. by rewrite Nat.add_0_r.
  - simpl. apply wp_bind, wp_catch_rethrow.
    eapply wp_mono; [apply Hstep; [lia..|done]| |done].
    intros w1 [] HI1. apply IH; [done| |].
    + intros b w2 ? ? ?. apply Hstep; [lia..|done].
    + intros w2 ?. apply HQ. by replace (built + S count) with (S built + count) by lia.
Qed.

Lemma wp_copy_construct U sa si da di y sblk dblk Q E w :
  heap w !! sa = Some sblk → sblk !! si = Some (Some y) →
  heap w !! da = Some dblk → di < length dblk →
  (∀ rest, (elem_faults w = [] → rest = []) →
     Q (count_ctor (store da (<[di := Some y]> dblk)
          (set_elem_faults rest w))) tt) →
  (∀ rest, elem_faults w = true :: rest → E (set_elem_faults rest w)) →
  wp U (copy_construct (Some (da, di)) (Some (sa, si))) Q E w.
Proof.
  intros Hs Hy Hd Hlt HQ HE. unfold copy_construct.
  apply wp_bind. eapply wp_eq; [by eapply load_eq|].
  apply wp_bind, wp_may_throw; [|done].
  intros rest Hrest. eapply wp_eq; [by eapply construct_at_eq|]. by apply HQ.
Qed.

Lemma wp_uninitialized_copy_n U sa da ys spre spost pre post Q E w :
  sa ≠ da →
  heap w !! sa = Some (spre ++ (Some <$> ys) ++ spost) →
  heap w !! da = Some (pre ++ replicate (length ys) None ++ post) →
  (∀ w', frame w w' →
         heap w' = <[da := pre ++ (Some <$> ys) ++ post]> (heap w) →
         constructed w' = constructed w + length ys →
         destroyed w' = destroyed w → Q w' tt) →
  (∀ w', frame w w' → heap w' = heap w → same_balance w w' → E w') →
  wp U (uninitialized_copy_n (Some (sa, length spre)) (length ys)
          (Some (da, length pre))) Q E w.
Proof.
  intros Hne Hs Hd HQ HE. unfold uninitialized_copy_n.
  apply (wp_uninitialized_loop U _ _ _ (λ b w',
    frame w w' ∧
    heap w' = <[da := pre ++ (Some <$> take b ys) ++
                       replicate (length ys - b) None ++ post]> (heap w) ∧
    constructed w' = constructed w + b ∧ destroyed w' = destroyed w)).
  - split; [apply frame_refl|]. simpl. rewrite Nat.sub_0_r.
    rewrite insert_id by done. split; [done|]. lia.
  - intros b w1 _ Hb (Hf & Hh & Hc & Hdt). simpl in Hb.
    destruct (lookup_lt_is_Some_2 ys b Hb) as [y Hy]. simpl.
    eapply wp_copy_construct.
    + by rewrite Hh, lookup_insert_ne, Hs.
    + by apply mid_lookup.
    + rewrite Hh. apply lookup_insert_eq.
    + rewrite !length_app, length_fmap, length_take, length_replicate. lia.
    + intros rest Hrest. split; [|split; [|split]].
      * eapply frame_trans; [done|]. repeat split; simpl; done.
      * simpl. rewrite Hh, insert_insert_eq. f_equal. by apply fill_step.
      * simpl. lia.
      * done.
    + intros rest Hrest.
      assert (Hlt : length (take b ys) = b) by (rewrite length_take; lia).
      pose proof (destroy_n_eq da (take b ys) pre
        (replicate (length ys - b) None ++ post) (set_elem_faults rest w1)) as Heq.
      rewrite Hlt in Heq. eapply wp_eq.
      { apply Heq. simpl. rewrite Hh. apply lookup_insert_eq. }
      apply HE.
      * eapply frame_trans; [done|]. repeat split; simpl; try done.
        intros Hnil. by rewrite Hnil in Hrest.
      * simpl. rewrite Hh, insert_insert_eq.
        rewrite (app_assoc (replicate b None)), <- replicate_add.
        replace (b + (length ys - b)) with (length ys) by lia.
        by apply insert_id.
      * unfold same_balance. simpl. lia.
  - intros w1 (Hf & Hh & Hc & Hdt). apply HQ; try done. rewrite Hh. simpl.
    by rewrite firstn_all, Nat.sub_diag.
Qed.

(** ** The strong guarantee of [Reserve] and [Emplace] *)

Lemma nothrow_GetAddress r : nothrow (GetAddress (T:=T) r).
Proof. apply nothrow_get_buffer. Qed.

Lemma nothrow_RawMemory_plus r n : nothrow (RawMemory_plus (T:=T) r n).
Proof. unfold RawMemory_plus. nothrow_tac. Qed.

Hint Resolve nothrow_GetAddress nothrow_RawMemory_plus : nothrow.

Lemma wp_construct U a i blk args Q E w :
  heap w !! a = Some blk → i < length blk →
  (∀ rest, Q (count_ctor (store a (<[i := Some (args_value args)]> blk)
                (set_elem_faults rest w))) tt) →
  (∀ rest, E (set_elem_faults rest w)) →
  wp U (construct (Some (a, i)) args) Q E w.
Proof.
  intros Hh Hi HQ HE. unfold construct. apply wp_bind.
  destruct (args_may_throw args).
  - apply wp_may_throw; [|intros rest _; apply HE].
    intros rest _. eapply wp_eq; [by eapply construct_at_eq|apply HQ].
  - apply wp_ret. eapply wp_eq; [by eapply construct_at_eq|].
    specialize (HQ (elem_faults w)). by rewrite set_elem_faults_id in HQ.
Qed.

(** Leaving the scope of [new_data] after a failure: its block holds no
    element any more and is released. *)
Lemma new_data_released w nd na newcap blk w' :
  raws w' !! nd = Some (mkRaw (Some (na, 0)) newcap) →
  heap w' !! na = Some blk →
  delete na (heap w') = heap w → delete nd (raws w') = raws w →
  sizes w' = sizes w → same_balance w w' →
  wp True (RawMemory_delete nd) (λ w2 _, restored w w2) (restored w) w'.
Proof.
  intros Hr Hh Hdh Hdr Hs Hb. unfold RawMemory_delete.
  apply wp_bind. eapply wp_eq; [by eapply get_buffer_eq|]. simpl.
  apply wp_bind. eapply wp_eq; [by eapply operator_delete_eq|].
  eapply wp_eq; [apply drop_raw_eq|]. by repeat split.
Qed.

Ltac wstep L := apply wp_bind; eapply wp_eq; [eapply L; side2 | simpl].

Lemma Reserve_strong v b cap xs n w :
  migrate_by_move = false → holds w v b cap xs → wf w →
  wp True (Reserve v n) (λ _ _, True) (restored w) w.
Proof.
  intros Hm (Hr & Hs & Hle & Hb) [Hwa Hwo]. unfold Reserve.
  wstep get_capacity_eq. case_decide; [by apply wp_ret|].
  assert (Hvn : v ≠ next_oid w).
  { intros Heq. destruct (Hwo v) as [Hn _]; [lia|]. by rewrite Hn in Hr. }
  wstep new_object_eq.
  apply wp_bind. unfold RawMemory_new, Allocate.
  rewrite decide_True by lia.
  apply wp_bind, wp_operator_new; [|intros; by repeat split].
  intros arest. eapply wp_eq; [apply put_raw_eq|]. simpl.
  set (na := next_addr w) in *. set (nd := next_oid w) in *.
  apply wp_scoped. rewrite Hm.
  wstep GetAddress_eq. wstep get_size_eq. wstep GetAddress_eq.
  apply wp_bind.
  destruct b as [[a i]|].
  - destruct Hb as (-> & Hc & Hh).
    assert (Han : a ≠ na) by (intros Heq; rewrite Hwa in Hh; [done|lia]).
    eapply (wp_uninitialized_copy_n True a na xs []
              (replicate (cap - length xs) None) []
              (replicate (n - length xs) None)); [done|by lk| | |].
    + lk. simpl. rewrite <- replicate_add. do 2 f_equal. lia.
    + intros w' _ _ _ _.
      apply wp_nothrow; [nothrow_tac|].
      intros w1 _. apply wp_nothrow; [nothrow_tac|done].
    + intros w' (Hna' & Hr' & Hs' & _) Hh' Hbal. simpl in *.
      eapply (new_data_released w nd na n); simpl.
      * rewrite Hr'. by lk.
      * rewrite Hh'. by lk.
      * rewrite Hh', delete_insert_eq. apply delete_id. apply Hwa. lia.
      * rewrite Hr', delete_insert_eq. apply delete_id. apply Hwo. lia.
      * done.
      * exact Hbal.
  - destruct xs; [|simpl in *; lia]. simpl.
    unfold uninitialized_copy_n. simpl. apply wp_ret.
    apply wp_nothrow; [nothrow_tac|].
    intros w1 _. apply wp_nothrow; [nothrow_tac|done].
Qed.

Lemma catch_rethrow_ok {A} (m : M A) (h : M unit) w w1 a :
  m w = Ok w1 a → catch_rethrow m h w = Ok w1 a.
Proof. unfold catch_rethrow. by intros ->. Qed.

Lemma TryInitCopy_empty_eq v nd na c w :
  raws w !! v = Some (mkRaw None 0) → sizes w !! v = Some 0 →
  raws w !! nd = Some (mkRaw (Some (na, 0)) c) →
  TryInitCopy v 0 nd w = Ok w tt.
Proof.
  intros Hr Hs Hn. unfold TryInitCopy.
  erewrite bind_ok; cycle 1.
  { apply catch_rethrow_ok. step GetAddress_eq. by step GetAddress_eq. }
  apply catch_rethrow_ok.
  step RawMemory_plus_eq. step get_size_eq.
  erewrite bind_ok; [|eapply (RawMemory_plus_eq _ _ c); [done|lia]]. done.
Qed.

Lemma Emplace_strong v b cap xs d args w :
  migrate_by_move = false → holds w v b cap xs → length xs = cap →
  d ≤ length xs → wf w →
  wp True (Emplace v (ptr_add b d) args) (λ _ _, True) (restored w) w.
Proof.
  intros Hm (Hr & Hs & Hle & Hb) Hfull Hd [Hwa Hwo]. unfold Emplace.
  assert (Hvn : v ≠ next_oid w).
  { intros Heq. destruct (Hwo v) as [Hn _]; [lia|]. by rewrite Hn in Hr. }
  wstep begin_eq.
  apply wp_bind. eapply (wp_eq _ _ _ _ _ _ d).
  { destruct b as [[a i]|]; simpl.
    - destruct Hb as (-> & _). rewrite (ptr_offset_eq a d 0) by lia.
      by rewrite Nat.sub_0_r.
    - destruct xs; [|simpl in *; lia]. simpl in Hd.
      by replace d with 0 by lia. }
  wstep get_size_eq. wstep Capacity_eq.
  rewrite decide_True by done.
  apply wp_bind. wstep new_object_eq.
  set (newcap := if decide (length xs = 0) then 1 else length xs * 2).
  assert (Hnc : length xs < newcap) by (unfold newcap; case_decide; lia).
  apply wp_bind. unfold RawMemory_new, Allocate.
  rewrite decide_True by lia.
  apply wp_bind, wp_operator_new; [|intros; by repeat split].
  intros arest. eapply wp_eq; [apply put_raw_eq|]. simpl.
  set (na := next_addr w) in *. set (nd := next_oid w) in *.
  assert (Hdh0 : delete na (heap w) = heap w) by (apply delete_id, Hwa; lia).
  assert (Hdh : ∀ blk, delete na (<[na := blk]> (heap w)) = heap w).
  { intros blk. by rewrite delete_insert_eq. }
  assert (Hdr : ∀ m, delete nd (<[nd := m]> (raws w)) = raws w).
  { intros m. rewrite delete_insert_eq. apply delete_id, Hwo. lia. }
  apply wp_scoped. rewrite Hm.
  wstep RawMemory_plus_eq. simpl.
  apply wp_bind.
  eapply wp_construct; [by lk|rewrite length_replicate; lia| |].
  2: { intros erest. eapply (new_data_released w nd na newcap); simpl;
         [by lk|by lk|by rewrite Hdh|by rewrite Hdr|done|done]. }
  intros erest. rewrite insert_replicate_None by lia.
  set (x := args_value args).
  match goal with |- wp _ _ _ _ ?W => set (wc := W) end.
  assert (Htail : ∀ w1,
    wp True
      (old <- GetAddress v ;; n <- get_size v ;; destroy_n old n ;;;
       RawMemory_assign v nd)
      (λ w1 _,
         wp True (RawMemory_delete nd)
           (λ w2 _,
              wp True
                (n <- get_size v ;; set_size v (S n) ;;; b' <- begin v ;;
                 ret (ptr_add b' d))
                (λ _ _, True) (restored w) w2)
           (restored w) w1)
      (λ w1, wp True (RawMemory_delete nd) (λ w2 _, restored w w2)
               (restored w) w1) w1).
  { intros w1. apply wp_nothrow; [nothrow_tac|].
    intros w2 _. apply wp_nothrow; [nothrow_tac|].
    intros w3 _. apply wp_nothrow; [|done].
    unfold begin. nothrow_tac. }
  apply wp_bind.
  destruct b as [[a i]|].
  2: { destruct xs; [|simpl in *; lia]. simpl in Hd.
       assert (d = 0) as -> by lia. subst cap.
       eapply wp_eq; [|apply Htail].
       eapply (TryInitCopy_empty_eq v nd na newcap); unfold wc; by lk. }
  destruct Hb as (-> & Hc & Hh).
  assert (Han : a ≠ na) by (intros Heq; rewrite Hwa in Hh; [done|lia]).
  assert (Hlt1 : length (take d xs) = d) by (rewrite length_take; lia).
  assert (Hld : length (drop d xs) = length xs - d) by apply length_drop.
  unfold TryInitCopy.
  apply wp_bind, wp_catch_rethrow.
  wstep GetAddress_eq. wstep GetAddress_eq.
  rewrite <- Hlt1 at 1.
  eapply (wp_uninitialized_copy_n True a na (take d xs) []
            ((Some <$> drop d xs) ++ replicate (cap - length xs) None) []
            (Some x :: replicate (newcap - S d) None)); [done| | | |].
  { unfold wc. lk. rewrite Hh. unfold live.
    rewrite <- (take_drop d xs) at 1. by rewrite fmap_app, <- app_assoc. }
  { unfold wc. lk. by rewrite Hlt1. }
  2: { (* the copy of the prefix fails *)
    intros w1 (Hna1 & Hr1 & Hs1 & _) Hh1 Hbal.
    unfold wc in Hna1, Hr1, Hs1, Hh1, Hbal. simpl in *.
    apply wp_bind.
    eapply wp_eq; [eapply (RawMemory_plus_eq _ _ newcap); [rewrite Hr1; by lk|lia]|].
    simpl. eapply wp_eq.
    { unfold Destroy. eapply destroy_at_eq; [rewrite Hh1; by lk|].
      by apply list_lookup_middle; rewrite length_replicate. }
    eapply (new_data_released w nd na newcap); simpl.
    - rewrite Hr1. by lk.
    - by lk.
    - by rewrite Hh1, !delete_insert_eq.
    - by rewrite Hr1, Hdr.
    - done.
    - unfold same_balance in *. simpl in *. lia. }
  intros w1 (Hna1 & Hr1 & Hs1 & _) Hh1 Hc1 Hd1.
  unfold wc in Hna1, Hr1, Hs1, Hh1, Hc1, Hd1. simpl in *.
  rewrite insert_insert_eq in Hh1.
  apply wp_catch_rethrow.
  apply wp_bind.
  eapply wp_eq; [eapply (RawMemory_plus_eq _ _ cap); [rewrite Hr1; by lk|lia]|].
  apply wp_bind.
  eapply wp_eq; [eapply get_size_eq; by rewrite Hs1|].
  apply wp_bind.
  eapply wp_eq; [eapply (RawMemory_plus_eq _ _ newcap); [rewrite Hr1; by lk|lia]|].
  simpl.
  replace (length xs - d) with (length (drop d xs)) by done.
  replace (Some (a, d)) with (Some (a, length (Some <$> take d xs)))
    by (by rewrite length_fmap, Hlt1).
  replace (Some (na, d + 1))
    with (Some (na, length ((Some <$> take d xs) ++ [Some x])))
    by (by rewrite length_app, length_fmap, Hlt1).
  eapply (wp_uninitialized_copy_n True a na (drop d xs) (Some <$> take d xs)
            (replicate (cap - length xs) None)
            ((Some <$> take d xs) ++ [Some x])
            (replicate (newcap - S (length xs)) None)); [done| | | |].
  { rewrite Hh1. lk. rewrite Hh. unfold live.
    rewrite <- (take_drop d xs) at 1. by rewrite fmap_app, <- app_assoc. }
  { rewrite Hh1. lk. f_equal. rewrite <- app_assoc. simpl. do 2 f_equal.
    rewrite <- replicate_add. f_equal. lia. }
  { intros w2 _ _ _ _. apply Htail. }
  (* the copy of the suffix fails *)
  intros w2 (Hna2 & Hr2 & Hs2 & _) Hh2 Hbal. simpl in *.
  apply wp_bind.
  eapply wp_eq; [eapply GetAddress_eq; rewrite Hr2, Hr1; by lk|]. simpl.
  pose proof (DestroyN_eq na (take d xs ++ [x]) []
    (replicate (newcap - S d) None) w2) as Heq.
  rewrite length_app, Hlt1 in Heq. simpl in Heq.
  eapply wp_eq.
  { apply Heq. rewrite Hh2, Hh1. lk. by rewrite fmap_app, <- app_assoc. }
  eapply (new_data_released w nd na newcap); simpl.
  - rewrite Hr2, Hr1. by lk.
  - by lk.
  - by rewrite Hh2, Hh1, !delete_insert_eq.
  - by rewrite Hr2, Hr1, Hdr.
  - by rewrite Hs2, Hs1.
  - unfold same_balance in *. simpl in *. lia.
Qed.

Lemma restored_holds w w' v b cap xs :
  restored w w' → holds w v b cap xs → holds w' v b cap xs.
Proof.
  intros (Hh & Hr & Hs & _) (? & ? & ? & Hb). unfold holds.
  rewrite Hh, Hr, Hs. done.
Qed.

(** C2: for an element type that [Reserve] and [Emplace] migrate by copy,
    when [Reserve], or [Emplace] at full capacity, lets an exception out
    (a copy construction that fails, or the allocation, or the construction
    of the new element), the raw blocks, the objects and the sizes are what
    they were before the call, so the container has its elements, size and
    capacity, and every element constructed in the new block has been
    destroyed: constructor and destructor calls are balanced. *)
Theorem strong_guarantee_on_copy_path v b cap xs w :
  migrate_by_move = false → holds w v b cap xs → wf w →
  (∀ n w', Reserve v n w = Throw w' →
     restored w w' ∧ holds w' v b cap xs) ∧
  (∀ d args w', length xs = cap → d ≤ length xs →
     Emplace v (ptr_add b d) args w = Throw w' →
     restored w w' ∧ holds w' v b cap xs).
Proof.
  intros Hm Hh Hwf. split.
  - intros n w' Hrun.
    pose proof (Reserve_strong v b cap xs n w Hm Hh Hwf) as H.
    unfold wp in H. rewrite Hrun in H. split; [done|].
    by eapply restored_holds.
  - intros d args w' Hfull Hd Hrun.
    pose proof (Emplace_strong v b cap xs d args w Hm Hh Hfull Hd Hwf) as H.
    unfold wp in H. rewrite Hrun in H. split; [done|].
    by eapply restored_holds.
Qed.

(** ** Computations that leave the [RawMemory] objects alone *)

Lemma unmoved_refl w : unmoved w w.
Proof. done. Qed.

Lemma unmoved_trans w1 w2 w3 : unmoved w1 w2 → unmoved w2 w3 → unmoved w1 w3.
Proof. intros [? ?] [? ?]. split; congruence. Qed.

Lemma kept_ret {A} (a : A) : kept (ret (T:=T) a).
Proof. by intros w. Qed.

Lemma kept_throw {A} : kept (@throw T A).
Proof. by intros w. Qed.

Lemma kept_undefined {A} : kept (@undefined T A).
Proof. by intros w. Qed.

Lemma kept_bind {A B} (m : M (T:=T) A) (k : A → M (T:=T) B) :
  kept m → (∀ a, kept (k a)) → kept (bind m k).
Proof.
  intros Hm Hk w. specialize (Hm w). unfold wp, bind in *.
  destruct (m w) as [w1 a|w1| |]; try done.
  specialize (Hk a w1). unfold wp in Hk.
  destruct (k a w1); try done; by eapply unmoved_trans.
Qed.

Lemma kept_catch_rethrow {A} (m : M (T:=T) A) h :
  kept m → kept h → kept (catch_rethrow m h).
Proof.
  intros Hm Hh w. specialize (Hm w). unfold wp, catch_rethrow in *.
  destruct (m w) as [w1 a|w1| |]; try done.
  specialize (Hh w1). unfold wp, bind, throw in *.
  destruct (h w1); try done; by eapply unmoved_trans.
Qed.

Lemma kept_scoped {A} (m : M (T:=T) A) c :
  kept m → kept c → kept (scoped m c).
Proof.
  intros Hm Hc w. specialize (Hm w). unfold wp, scoped in *.
  destruct (m w) as [w1 a|w1| |]; try done;
    specialize (Hc w1); unfold wp, bind, throw, ret in *;
    destruct (c w1); try done; by eapply unmoved_trans.
Qed.

Lemma kept_noexcept {A} (m : M (T:=T) A) : kept m → kept (noexcept m).
Proof.
  intros Hm w. specialize (Hm w). unfold wp, noexcept in *.
  by destruct (m w).
Qed.

Lemma kept_assert c : kept (assert (T:=T) c).
Proof. destruct c; [apply kept_ret|apply kept_undefined]. Qed.

Lemma kept_get_raw r : kept (get_raw (T:=T) r).
Proof. intros w. unfold wp, get_raw. by destruct (raws w !! r). Qed.

Lemma kept_get_size v : kept (get_size (T:=T) v).
Proof. intros w. unfold wp, get_size. by destruct (sizes w !! v). Qed.

Lemma kept_put_size v n : kept (put_size (T:=T) v n).
Proof. by intros w. Qed.

Lemma kept_drop_size v : kept (drop_size (T:=T) v).
Proof. by intros w. Qed.

Lemma kept_load p : kept (load (T:=T) p).
Proof. intros w. unfold wp, load. by destruct (read_slot p w) as [[]|]. Qed.

Lemma kept_write_slot p (s : option T) : kept (write_slot p s).
Proof.
  intros w. unfold wp, write_slot. destruct p as [[a i]|]; [|done].
  destruct (heap w !! a); [|done]. by case_decide.
Qed.

Lemma kept_operator_new n : kept (operator_new (T:=T) n).
Proof.
  intros w. unfold wp, operator_new.
  by destruct (next_fault (alloc_faults w)) as [[] ?].
Qed.

Lemma kept_operator_delete p : kept (operator_delete (T:=T) p).
Proof.
  intros w. unfold wp, operator_delete. destruct p as [[a i]|]; [|done].
  destruct (heap w !! a); [|done]. by case_decide.
Qed.

Lemma kept_may_throw : kept (may_throw (T:=T)).
Proof.
  intros w. unfold wp, may_throw, bind, elem_fault.
  by destruct (next_fault (elem_faults w)) as [[] ?].
Qed.

Lemma kept_tick_ctor : kept (tick_ctor (T:=T)).
Proof. by intros w. Qed.

Lemma kept_tick_dtor : kept (tick_dtor (T:=T)).
Proof. by intros w. Qed.

Lemma kept_ptr_pred p : kept (ptr_pred (T:=T) p).
Proof. destruct p as [[a [|i]]|]; simpl; by intros w. Qed.

Lemma kept_ptr_offset p q : kept (ptr_offset (T:=T) p q).
Proof.
  unfold ptr_offset. destruct (ptr_diff p q); [|by intros w].
  case_decide; by intros w.
Qed.

Create HintDb kept.
Hint Resolve kept_ret kept_throw kept_undefined kept_assert kept_get_raw
  kept_get_size kept_put_size kept_drop_size kept_load kept_write_slot
  kept_operator_new kept_operator_delete kept_may_throw kept_tick_ctor
  kept_tick_dtor kept_ptr_pred kept_ptr_offset : kept.

Ltac kept_tac :=
  repeat first
    [ solve [auto with kept]
    | apply kept_bind; [|intros ?]
    | apply kept_catch_rethrow
    | apply kept_scoped
    | apply kept_noexcept
    | case_decide
    | match goal with |- kept (if ?c then _ else _) => destruct c end ].

Ltac kept_unfold f := intros; unfold f; kept_tac.

Lemma kept_get_buffer r : kept (get_buffer (T:=T) r).
Proof. kept_unfold @get_buffer. Qed.
Lemma kept_get_capacity r : kept (get_capacity (T:=T) r).
Proof. kept_unfold @get_capacity. Qed.
Lemma kept_set_size v n : kept (set_size (T:=T) v n).
Proof. kept_unfold @set_size. Qed.
Hint Resolve kept_get_buffer kept_get_capacity kept_set_size : kept.

Lemma kept_GetAddress r : kept (GetAddress (T:=T) r).
Proof. kept_unfold @GetAddress. Qed.
Lemma kept_begin r : kept (begin (T:=T) r).
Proof. kept_unfold @begin. Qed.
Lemma kept_Capacity r : kept (Capacity (T:=T) r).
Proof. unfold Capacity, RawMemory_Capacity. kept_tac. Qed.
Lemma kept_RawMemory_Capacity r : kept (RawMemory_Capacity (T:=T) r).
Proof. kept_unfold @RawMemory_Capacity. Qed.
Lemma kept_RawMemory_plus r n : kept (RawMemory_plus (T:=T) r n).
Proof. kept_unfold @RawMemory_plus. Qed.
Lemma kept_RawMemory_index r n : kept (RawMemory_index (T:=T) r n).
Proof. kept_unfold @RawMemory_index. Qed.
Hint Resolve kept_GetAddress kept_begin kept_Capacity kept_RawMemory_Capacity
  kept_RawMemory_plus kept_RawMemory_index : kept.

Lemma kept_end v : kept (end_ (T:=T) v).
Proof. kept_unfold @end_. Qed.
Lemma kept_Vector_index v i : kept (Vector_index (T:=T) v i).
Proof. kept_unfold @Vector_index. Qed.
Lemma kept_Allocate n : kept (Allocate (T:=T) n).
Proof. kept_unfold @Allocate. Qed.
Lemma kept_Deallocate p : kept (Deallocate (T:=T) p).
Proof. kept_unfold @Deallocate. Qed.
Lemma kept_construct_at p x : kept (construct_at p x).
Proof. kept_unfold @construct_at. Qed.
Lemma kept_destroy_at p : kept (destroy_at (T:=T) p).
Proof. kept_unfold @destroy_at. Qed.
Lemma kept_assign_at p x : kept (assign_at p x).
Proof. kept_unfold @assign_at. Qed.
Hint Resolve kept_end kept_Vector_index kept_Allocate kept_Deallocate
  kept_construct_at kept_destroy_at kept_assign_at : kept.

Lemma kept_copy_construct p q : kept (copy_construct (T:=T) p q).
Proof. kept_unfold @copy_construct. Qed.
Lemma kept_move_construct p q : kept (move_construct (T:=T) p q).
Proof. kept_unfold @move_construct. Qed.
Lemma kept_value_construct p : kept (value_construct (T:=T) p).
Proof. kept_unfold @value_construct. Qed.
Lemma kept_copy_assign p q : kept (copy_assign (T:=T) p q).
Proof. kept_unfold @copy_assign. Qed.
Lemma kept_move_assign p q : kept (move_assign (T:=T) p q).
Proof. kept_unfold @move_assign. Qed.
Lemma kept_construct p a : kept (construct (T:=T) p a).
Proof. kept_unfold @construct. Qed.
Lemma kept_Destroy p : kept (Destroy (T:=T) p).
Proof. kept_unfold @Destroy. Qed.
Hint Resolve kept_copy_construct kept_move_construct kept_value_construct
  kept_copy_assign kept_move_assign kept_construct kept_Destroy : kept.

Lemma kept_destroy_n n : ∀ p, kept (destroy_n (T:=T) p n).
Proof. induction n; intros p; simpl; kept_tac. Qed.

Lemma kept_for_loop (body : nat → M (T:=T) unit) n :
  (∀ i, kept (body i)) → ∀ lo, kept (for_loop lo n body).
Proof. intros Hb. induction n; intros lo; simpl; kept_tac. Qed.

Lemma kept_for_range (body : nat → M (T:=T) unit) lo hi :
  (∀ i, kept (body i)) → kept (for_range lo hi body).
Proof. intros. by apply kept_for_loop. Qed.

Hint Resolve kept_destroy_n : kept.

Lemma kept_DestroyN p n : kept (DestroyN (T:=T) p n).
Proof. unfold DestroyN. apply kept_for_range. intros. kept_tac. Qed.

Lemma kept_uninitialized_loop (construct : ptr → ptr → M (T:=T) unit)
    first d_first count :
  (∀ p q, kept (construct p q)) →
  ∀ built, kept (uninitialized_loop construct first d_first built count).
Proof. intros Hc. induction count; intros built; simpl; kept_tac. Qed.

Lemma kept_uninitialized_copy_n p n q : kept (uninitialized_copy_n (T:=T) p n q).
Proof. apply kept_uninitialized_loop. auto with kept. Qed.
Lemma kept_uninitialized_move_n p n q : kept (uninitialized_move_n (T:=T) p n q).
Proof. apply kept_uninitialized_loop. auto with kept. Qed.
Lemma kept_uninitialized_value_construct_n p n :
  kept (uninitialized_value_construct_n (T:=T) p n).
Proof. apply kept_uninitialized_loop. auto with kept. Qed.

Lemma kept_move_backward_loop a n : ∀ i j,
  kept (move_backward_loop (T:=T) a i j n).
Proof.
  induction n as [|n IH]; intros i j; [simpl; kept_tac|].
  destruct i as [|i], j as [|j]; simpl; by kept_tac.
Qed.

Lemma kept_move_backward p q r : kept (move_backward (T:=T) p q r).
Proof.
  unfold move_backward.
  destruct p as [[]|], q as [[]|], r as [[]|]; try kept_tac.
  apply kept_move_backward_loop.
Qed.

Hint Resolve kept_DestroyN kept_uninitialized_copy_n kept_uninitialized_move_n
  kept_uninitialized_value_construct_n kept_move_backward : kept.

Lemma kept_TryInitMove v d nd : kept (TryInitMove (T:=T) v d nd).
Proof. kept_unfold @TryInitMove. Qed.
Lemma kept_TryInitCopy v d nd : kept (TryInitCopy (T:=T) v d nd).
Proof. kept_unfold @TryInitCopy. Qed.
Lemma kept_PopBack v : kept (PopBack (T:=T) v).
Proof. kept_unfold @PopBack. Qed.
Lemma kept_Erase v pos : kept (Erase (T:=T) v pos).
Proof.
  unfold Erase. apply kept_noexcept.
  do 3 (apply kept_bind; [auto with kept|intros ?]).
  apply kept_bind; [apply kept_for_range; intros; kept_tac|intros ?].
  kept_tac.
Qed.
Hint Resolve kept_TryInitMove kept_TryInitCopy kept_PopBack kept_Erase : kept.

(** What [kept] gives to [wp]. *)
Lemma wp_kept {A} (m : M A) (Q : World → A → Prop) (E : World → Prop) w :
  kept m →
  (∀ w' a, unmoved w w' → Q w' a) → (∀ w', unmoved w w' → E w') →
  wp True m Q E w.
Proof.
  intros Hm HQ HE. specialize (Hm w). unfold wp in *.
  destruct (m w); auto.
Qed.

(** ** Capacity never shrinks *)

Lemma kept_at_least {A} (m : M A) v c w :
  kept m → at_least v c w →
  wp True m (λ w' _, at_least v c w') (at_least v c) w.
Proof.
  intros Hm (Hlt & mv & Hr & Hc).
  apply wp_kept; [done| |]; intros; unfold at_least, unmoved in *;
    destruct_and?; repeat match goal with H : _ = _ |- _ => rewrite H end; eauto.
Qed.

Lemma wp_noexcept_True {A} (m : M A) Q E w :
  wp True m Q (λ _, True) w → wp True (noexcept m) Q E w.
Proof. unfold wp, noexcept. by destruct (m w). Qed.

Lemma wp_RawMemory_new nd n Q E w :
  (∀ w' b, raws w' = <[nd := mkRaw b n]> (raws w) →
           next_oid w' = next_oid w → Q w' tt) →
  (∀ w', unmoved w w' → E w') →
  wp True (RawMemory_new nd n) Q E w.
Proof.
  intros HQ HE. unfold RawMemory_new.
  apply wp_bind, wp_kept; [auto with kept| |done].
  intros w' b [Hr Hn]. eapply wp_eq; [apply put_raw_eq|].
  apply (HQ _ b); simpl; congruence.
Qed.

Lemma wp_RawMemory_delete nd Q E w :
  (∀ w', raws w' = delete nd (raws w) → next_oid w' = next_oid w → Q w' tt) →
  (∀ w', unmoved w w' → E w') →
  wp True (RawMemory_delete nd) Q E w.
Proof.
  intros HQ HE. unfold RawMemory_delete.
  apply wp_bind, wp_kept; [auto with kept| |done].
  intros w1 b [Hr1 Hn1].
  apply wp_bind, wp_kept; [auto with kept| |].
  - intros w2 [] [Hr2 Hn2]. eapply wp_eq; [apply drop_raw_eq|].
    apply HQ; simpl; congruence.
  - intros w2 [Hr2 Hn2]. apply HE. split; congruence.
Qed.

Lemma wp_RawMemory_Swap v nd mv mn Q E w :
  v ≠ nd → raws w !! v = Some mv → raws w !! nd = Some mn →
  (∀ w', raws w' !! v = Some (mkRaw (buffer_ mn) (capacity_ mn)) →
         next_oid w' = next_oid w → Q w' tt) →
  wp True (RawMemory_Swap v nd) Q E w.
Proof.
  intros Hne Hv Hn HQ. unfold RawMemory_Swap.
  wstep get_buffer_eq. wstep get_buffer_eq.
  wstep set_buffer_eq. wstep set_buffer_eq.
  wstep get_capacity_eq. wstep get_capacity_eq.
  wstep set_capacity_eq.
  eapply wp_eq; [eapply set_capacity_eq; side2|]. simpl.
  apply HQ; simpl; [|done]. by lk.
Qed.

Lemma wp_RawMemory_assign v nd mv mn Q E w :
  v ≠ nd → raws w !! v = Some mv → raws w !! nd = Some mn →
  (∀ w', raws w' !! v = Some (mkRaw (buffer_ mn) (capacity_ mn)) →
         next_oid w' = next_oid w → Q w' tt) →
  wp True (RawMemory_assign v nd) Q E w.
Proof.
  intros Hne Hv Hn HQ. unfold RawMemory_assign. apply wp_noexcept_True.
  wstep get_buffer_eq.
  apply wp_bind, wp_kept; [auto with kept| |done].
  intros w1 [] [Hr1 Hn1].
  assert (Hv1 : raws w1 !! v = Some mv) by (by rewrite Hr1).
  assert (Hnd1 : raws w1 !! nd = Some mn) by (by rewrite Hr1).
  wstep get_buffer_eq. wstep set_buffer_eq. wstep set_buffer_eq.
  wstep get_capacity_eq. wstep set_capacity_eq.
  eapply wp_eq; [eapply set_capacity_eq; side2|]. simpl.
  apply HQ; simpl; [by lk|done].
Qed.

(** The end of the scope of the local [new_data] in [Reserve] and
    [Emplace]. *)
Lemma new_data_dropped v c nd mv w :
  v ≠ nd → raws w !! v = Some mv → c ≤ capacity_ mv → v < next_oid w →
  wp True (RawMemory_delete nd) (λ w' _, at_least v c w') (at_least v c) w.
Proof.
  intros Hne Hv Hc Hlt. apply wp_RawMemory_delete.
  - intros w' Hr Hn. split; [by rewrite Hn|]. exists mv.
    rewrite Hr. by lk.
  - intros w' [Hr Hn]. split; [by rewrite Hn|]. exists mv. by rewrite Hr.
Qed.

(** One step of a computation that keeps the objects: the facts [Hr] and
    [Hn] on the objects and the identifier counter are carried over, and
    the fact [etac] deals with the exception. *)
Ltac kstep Hr Hn etac :=
  apply wp_bind, wp_kept;
  [ solve [kept_tac]
  | let w' := fresh "w" in let H1 := fresh "Hr" in let H2 := fresh "Hn" in
    intros w' ? [H1 H2]; rewrite Hr in H1; rewrite Hn in H2;
    clear Hr Hn; rename H1 into Hr; rename H2 into Hn
  | let w' := fresh "w" in let H1 := fresh "Hr" in let H2 := fresh "Hn" in
    intros w' [H1 H2]; rewrite Hr in H1; rewrite Hn in H2;
    exact (etac _ H1 H2) ].

Lemma Reserve_at_least v c n w :
  at_least v c w →
  wp True (Reserve v n) (λ w' _, at_least v c w') (at_least v c) w.
Proof.
  intros (Hlt & mv & Hv & Hc). unfold Reserve.
  wstep get_capacity_eq. case_decide as Hn.
  { apply wp_ret. split; eauto. }
  wstep new_object_eq.
  set (nd := next_oid w) in *.
  assert (Hne : v ≠ nd) by lia.
  apply wp_bind, wp_RawMemory_new; simpl.
  2: { intros w' [Hr' Hn']. simpl in *. split; [rewrite Hn'; lia|].
       exists mv. by rewrite Hr'. }
  intros w1 b Hr Hno. apply wp_scoped.
  assert (Hfail : ∀ w', raws w' = <[nd := mkRaw b n]> (raws w) →
                        next_oid w' = S nd →
    wp True (RawMemory_delete nd) (λ w2 _, at_least v c w2) (at_least v c) w').
  { intros w' Hr' Hn'. eapply (new_data_dropped v c nd mv); [done| |done|lia].
    rewrite Hr'. by lk. }
  kstep Hr Hno Hfail. kstep Hr Hno Hfail. kstep Hr Hno Hfail.
  kstep Hr Hno Hfail. kstep Hr Hno Hfail. kstep Hr Hno Hfail.
  kstep Hr Hno Hfail.
  eapply (wp_RawMemory_Swap v nd mv (mkRaw b n)); [done|rewrite Hr; by lk..|].
  simpl. intros w' Hv' Hn'.
  eapply (new_data_dropped v c nd); [done|exact Hv'|simpl; lia|].
  rewrite Hn', Hno. lia.
Qed.

Lemma new_data_dropped_then v c nd mv (Q : World → unit → Prop) E w :
  v ≠ nd → raws w !! v = Some mv → c ≤ capacity_ mv → v < next_oid w →
  (∀ w', at_least v c w' → Q w' tt) → (∀ w', at_least v c w' → E w') →
  wp True (RawMemory_delete nd) Q E w.
Proof.
  intros Hne Hv Hc Hlt HQ HE.
  eapply wp_mono; [by eapply (new_data_dropped v c nd mv)|..].
  - intros w1 []. apply HQ.
  - apply HE.
Qed.

Lemma unmoved_at_least v c w w' :
  at_least v c w → raws w' = raws w → next_oid w' = next_oid w →
  at_least v c w'.
Proof.
  intros (Hlt & mv & Hv & Hc) Hr Hn. split; [by rewrite Hn|].
  exists mv. by rewrite Hr.
Qed.

Lemma Emplace_at_least v c pos args w :
  at_least v c w →
  wp True (Emplace v pos args) (λ w' _, at_least v c w') (at_least v c) w.
Proof.
  intros Hal. pose proof Hal as (Hlt & mv & Hv & Hc). unfold Emplace.
  pose proof (λ w', unmoved_at_least v c w w' Hal) as Hfail0.
  apply wp_bind, wp_kept; [solve [kept_tac]| |by intros ? []; auto].
  intros w1 b [Hr Hno].
  kstep Hr Hno Hfail0. rename a into delta.
  kstep Hr Hno Hfail0. rename a into s.
  match goal with |- wp _ _ _ _ ?W => rename W into wc end.
  apply wp_bind.
  eapply wp_eq; [eapply Capacity_eq; by rewrite Hr|]. simpl.
  case_decide as Hfull.
  2: { apply (kept_at_least _ v c); [kept_tac|].
       by apply (unmoved_at_least v c w). }
  subst s. apply wp_bind.
  wstep new_object_eq.
  assert (Hlt2 : v < next_oid wc) by (by rewrite Hno).
  assert (Hne : v ≠ next_oid wc) by lia.
  clear Hno. set (nd := next_oid wc) in *.
  set (newcap := if decide (capacity_ mv = 0) then 1 else capacity_ mv * 2).
  assert (Hnc : c ≤ newcap) by (unfold newcap; case_decide; lia).
  apply wp_bind, wp_RawMemory_new; simpl.
  2: { intros w' [Hr' Hn']. simpl in *. split; [rewrite Hn'; lia|].
       exists mv. by rewrite Hr', Hr. }
  intros w3 b3 Hr3 Hn3. rewrite Hr in Hr3. clear Hr.
  assert (Htail : ∀ w', at_least v c w' →
    wp True
      (n <- get_size v ;; set_size v (S n) ;;; b' <- begin v ;;
       ret (ptr_add b' delta))
      (λ w'' _, at_least v c w'') (at_least v c) w').
  { intros w' H'. apply kept_at_least; [kept_tac|done]. }
  apply wp_scoped.
  assert (Hfail : ∀ w', raws w' = <[nd := mkRaw b3 newcap]> (raws w) →
                        next_oid w' = S nd →
    wp True (RawMemory_delete nd) (λ w2 _, at_least v c w2) (at_least v c) w').
  { intros w' Hr' Hn'. eapply (new_data_dropped v c nd mv); [done| |done|].
    - rewrite Hr'. by lk.
    - rewrite Hn'. lia. }
  kstep Hr3 Hn3 Hfail. kstep Hr3 Hn3 Hfail. kstep Hr3 Hn3 Hfail.
  kstep Hr3 Hn3 Hfail. kstep Hr3 Hn3 Hfail. kstep Hr3 Hn3 Hfail.
  eapply (wp_RawMemory_assign v nd mv (mkRaw b3 newcap));
    [done|rewrite Hr3; by lk..|].
  simpl. intros w' Hv' Hn'.
  eapply (new_data_dropped_then v c nd); [done|exact Hv'|simpl; lia| | |].
  - rewrite Hn', Hn3. lia.
  - exact Htail.
  - done.
Qed.

Lemma wp_get_size U v (Q : World → nat → Prop) E w :
  (∀ n, sizes w !! v = Some n → Q w n) → (sizes w !! v = None → U) →
  wp U (get_size v) Q E w.
Proof. intros HQ HU. unfold wp, get_size. destruct (sizes w !! v); auto. Qed.


(** The end of the scope of the local [rhs_copy] in the copy assignment. *)
Lemma rhs_copy_dropped v c nd mv w :
  v ≠ nd → raws w !! v = Some mv → c ≤ capacity_ mv → v < next_oid w →
  wp True (Vector_delete nd) (λ w' _, at_least v c w') (at_least v c) w.
Proof.
  intros Hne Hv Hc Hlt. unfold Vector_delete.
  assert (Hal : at_least v c w) by (split; eauto).
  pose proof (λ w', unmoved_at_least v c w w' Hal) as Hfail.
  apply wp_bind, wp_kept; [solve [kept_tac]| |by intros ? []; auto].
  intros w1 b [Hr Hno].
  kstep Hr Hno Hfail. kstep Hr Hno Hfail. kstep Hr Hno Hfail.
  eapply (new_data_dropped v c nd mv); [done|by rewrite Hr|done|by rewrite Hno].
Qed.

Lemma assign_copy_at_least v c rhs w :
  at_least v c w →
  wp True (assign_copy v rhs) (λ w' _, at_least v c w') (at_least v c) w.
Proof.
  intros Hal. pose proof Hal as (Hlt & mv & Hv & Hc). unfold assign_copy.
  case_decide as Hself; [|by apply wp_ret].
  apply wp_bind, wp_get_size; [|done]. intros rs Hrs.
  wstep get_capacity_eq.
  case_decide as Hgrow.
  2: { apply (kept_at_least _ v c); [|done].
       apply kept_bind; [auto with kept|intros s].
       case_decide.
       - apply kept_bind; [apply kept_for_range; intros; kept_tac|intros ?].
         kept_tac.
       - apply kept_bind; [apply kept_for_range; intros; kept_tac|intros ?].
         kept_tac. }
  wstep new_object_eq.
  set (nd := next_oid w) in *.
  assert (Hne : v ≠ nd) by lia.
  apply wp_bind. unfold Vector_copy.
  wstep get_size_eq.
  apply wp_bind, wp_RawMemory_new; simpl.
  2: { intros w' [Hr' Hn']. simpl in *. split; [rewrite Hn'; lia|].
       exists mv. by rewrite Hr'. }
  intros w1 b Hr Hno.
  assert (Hfail : ∀ w', raws w' = <[nd := mkRaw b rs]> (raws w) →
                        next_oid w' = S nd → at_least v c w').
  { intros w' Hr' Hn'. split; [rewrite Hn'; lia|]. exists mv.
    rewrite Hr'. by lk. }
  assert (Hunwind : ∀ w', raws w' = <[nd := mkRaw b rs]> (raws w) →
                          next_oid w' = S nd →
    wp True (unwind_members nd) (λ w2 _, at_least v c w2) (at_least v c) w').
  { intros w' Hr' Hn'. unfold unwind_members.
    kstep Hr' Hn' Hfail.
    eapply (new_data_dropped v c nd mv); [done| |done|].
    - rewrite Hr'. by lk.
    - rewrite Hn'. lia. }
  kstep Hr Hno Hfail.
  apply wp_catch_rethrow.
  apply wp_kept; [solve [kept_tac]| |].
  2: { intros w' [Hr' Hn']. rewrite Hr in Hr'. rewrite Hno in Hn'. auto. }
  intros w3 [] [Hr3 Hn3]. rewrite Hr in Hr3. rewrite Hno in Hn3.
  clear Hr Hno Hunwind Hfail.
  apply wp_scoped. unfold Swap.
  apply wp_bind.
  eapply (wp_RawMemory_Swap v nd mv (mkRaw b rs)); [done|rewrite Hr3; by lk..|].
  simpl. intros w4 Hv4 Hn4.
  assert (Hdrop : ∀ w', raws w' = raws w4 → next_oid w' = next_oid w4 →
    wp True (Vector_delete nd) (λ w2 _, at_least v c w2) (at_least v c) w').
  { intros w' Hr' Hn'.
    eapply (rhs_copy_dropped v c nd (mkRaw b rs)); [done| |simpl; lia|].
    - by rewrite Hr'.
    - rewrite Hn', Hn4, Hn3. lia. }
  assert (Hr : raws w4 = raws w4) by done.
  assert (Hno : next_oid w4 = next_oid w4) by done.
  revert Hr Hno. generalize w4 at 1 3 5 as w5. intros w5 Hr Hno.
  kstep Hr Hno Hdrop. kstep Hr Hno Hdrop. kstep Hr Hno Hdrop.
  apply wp_kept; [solve [kept_tac]| |].
  - intros w' [] [Hr' Hn']. apply Hdrop; congruence.
  - intros w' [Hr' Hn']. apply Hdrop; congruence.
Qed.

Lemma grows_kept {A} (m : M (T:=T) A) v c : kept m → grows v c m.
Proof. intros Hm w Hw. by apply kept_at_least. Qed.

Lemma grows_bind {A B} (m : M (T:=T) A) (k : A → M (T:=T) B) v c :
  grows v c m → (∀ a, grows v c (k a)) → grows v c (bind m k).
Proof.
  intros Hm Hk w Hw. apply wp_bind.
  eapply wp_mono; [by apply Hm| |done]. intros w1 a Hw1. by apply Hk.
Qed.

Lemma grows_Reserve v c n : grows v c (Reserve (T:=T) v n).
Proof. intros w. apply Reserve_at_least. Qed.

Lemma grows_Emplace v c pos args : grows v c (Emplace (T:=T) v pos args).
Proof. intros w. apply Emplace_at_least. Qed.

Lemma grows_assign_copy v c rhs : grows v c (assign_copy (T:=T) v rhs).
Proof. intros w. apply assign_copy_at_least. Qed.

Lemma grows_Resize v c n : grows v c (Resize (T:=T) v n).
Proof.
  unfold Resize. apply grows_bind; [apply grows_kept; auto with kept|intros s].
  apply grows_bind; [|intros ?; apply grows_kept; auto with kept].
  case_decide; [apply grows_kept; kept_tac|].
  case_decide; [|apply grows_kept; kept_tac].
  apply grows_bind; [apply grows_Reserve|intros ?]. apply grows_kept. kept_tac.
Qed.

Lemma grows_PushBack v c x : grows v c (PushBack (T:=T) v x).
Proof.
  unfold PushBack.
  apply grows_bind; [apply grows_kept; auto with kept|intros s].
  apply grows_bind; [apply grows_kept; auto with kept|intros cap].
  case_decide; [|apply grows_kept; kept_tac].
  apply grows_bind; [apply grows_kept; auto with kept|intros b].
  apply grows_bind; [apply grows_kept; auto with kept|intros s'].
  apply grows_bind; [apply grows_Emplace|intros ?]. apply grows_kept. kept_tac.
Qed.

Lemma grows_PushBack_move v c x : grows v c (PushBack_move (T:=T) v x).
Proof.
  unfold PushBack_move.
  apply grows_bind; [apply grows_kept; auto with kept|intros s].
  apply grows_bind; [apply grows_kept; auto with kept|intros cap].
  case_decide; [|apply grows_kept; kept_tac].
  apply grows_bind; [apply grows_kept; auto with kept|intros b].
  apply grows_bind; [apply grows_kept; auto with kept|intros s'].
  apply grows_bind; [apply grows_Emplace|intros ?]. apply grows_kept. kept_tac.
Qed.

Lemma grows_EmplaceBack v c args : grows v c (EmplaceBack (T:=T) v args).
Proof.
  unfold EmplaceBack.
  apply grows_bind; [apply grows_kept; auto with kept|intros s].
  apply grows_bind; [apply grows_kept; auto with kept|intros cap].
  case_decide; [|apply grows_kept; kept_tac].
  apply grows_bind; [apply grows_kept; auto with kept|intros b].
  apply grows_bind; [apply grows_kept; auto with kept|intros s'].
  apply grows_Emplace.
Qed.

Lemma grows_run_op v c op : grows v c (run_op (T:=T) v op).
Proof.
  destruct op; simpl.
  - apply grows_assign_copy.
  - apply grows_Reserve.
  - apply grows_Resize.
  - apply grows_PushBack.
  - apply grows_PushBack_move.
  - apply grows_kept. auto with kept.
  - apply grows_bind; [apply grows_EmplaceBack|intros ?; apply grows_kept; kept_tac].
  - apply grows_bind; [apply grows_Emplace|intros ?; apply grows_kept; kept_tac].
  - apply grows_bind; [apply grows_Emplace|intros ?; apply grows_kept; kept_tac].
  - apply grows_bind; [apply grows_Emplace|intros ?; apply grows_kept; kept_tac].
  - apply grows_bind; [apply grows_kept; auto with kept
                      |intros ?; apply grows_kept; kept_tac].
Qed.

Lemma run_ops_at_least v c ops : ∀ w w',
  at_least v c w → run_ops v ops w = Some w' → at_least v c w'.
Proof.
  induction ops as [|op ops IH]; intros w w' Hw Hrun; simpl in Hrun.
  - by injection Hrun as <-.
  - pose proof (grows_run_op v c op w Hw) as H. unfold wp in H.
    destruct (run_op v op w) as [w1 []|w1| |]; simpl in Hrun; try done;
      by eapply IH.
Qed.

(** C5, as amended: over any sequence of copy assignments to the
    container, [Reserve], [Resize], [PushBack], [PopBack], [EmplaceBack],
    [Emplace], [Insert] and [Erase] calls, whether they return or throw,
    [Capacity()] never decreases. *)
Theorem capacity_never_shrinks v ops w w' c :
  v < next_oid w → capacity_of v w = Some c → run_ops v ops w = Some w' →
  ∃ c', capacity_of v w' = Some c' ∧ c ≤ c'.
Proof.
  intros Hlt Hc Hrun. unfold capacity_of in *.
  destruct (raws w !! v) as [mv|] eqn:Hv; [|done]. injection Hc as <-.
  destruct (run_ops_at_least v (capacity_ mv) ops w w') as (_ & m' & Hv' & Hle);
    [split; eauto|done|].
  exists (capacity_ m'). by rewrite Hv'.
Qed.

Lemma wf_check_sound w : wf_check w = true → wf w.
Proof.
  unfold wf_check. rewrite !andb_true_iff, !bool_decide_eq_true.
  intros [[Hh Hr] Hs]. split.
  - intros a Ha. destruct (heap w !! a) eqn:E; [|done].
    apply Hh in E. lia.
  - intros o Ho. split.
    + destruct (raws w !! o) eqn:E; [|done]. apply Hr in E. lia.
    + destruct (sizes w !! o) eqn:E; [|done]. apply Hs in E. lia.
Qed.

(** ** Exchanging and releasing [RawMemory] objects *)

Lemma RawMemory_Swap_eq v nd mv mn w :
  raws w !! v = Some mv → raws w !! nd = Some mn →
  RawMemory_Swap v nd w
  = Ok (set_raws (<[nd := mv]> (<[v := mn]> (raws w))) w) tt.
Proof.
  intros Hv Hn. destruct mv as [b1 c1], mn as [b2 c2]. unfold RawMemory_Swap.
  destruct (decide (v = nd)) as [->|Hne].
  - rewrite Hv in Hn. injection Hn as <- <-.
    step get_buffer_eq. step get_buffer_eq.
    step set_buffer_eq. step set_buffer_eq.
    step get_capacity_eq. step get_capacity_eq.
    step set_capacity_eq.
    erewrite set_capacity_eq by side. simpl.
    unfold set_raws. simpl. by rewrite !insert_insert_eq.
  - step get_buffer_eq. step get_buffer_eq.
    step set_buffer_eq.
    erewrite bind_ok; [|eapply set_buffer_eq; simpl; by rewrite lookup_insert_ne]. simpl.
    erewrite bind_ok;
      [|eapply get_capacity_eq; simpl;
        rewrite lookup_insert_ne by done; apply lookup_insert_eq]. simpl.
    erewrite bind_ok; [|eapply get_capacity_eq; simpl; apply lookup_insert_eq]. simpl.
    erewrite bind_ok;
      [|eapply set_capacity_eq; simpl;
        rewrite lookup_insert_ne by done; apply lookup_insert_eq]. simpl.
    erewrite set_capacity_eq;
      [|simpl; rewrite lookup_insert_ne by done; apply lookup_insert_eq]. simpl.
    unfold set_raws. simpl. f_equal. f_equal.
    apply map_eq. intros i.
    destruct (decide (i = nd)) as [->|]; [by rewrite !lookup_insert_eq|].
    rewrite !(lookup_insert_ne _ nd) by done.
    destruct (decide (i = v)) as [->|]; [by rewrite !lookup_insert_eq|].
    by rewrite !lookup_insert_ne by done.
Qed.

Lemma RawMemory_delete_eq nd a c blk w :
  raws w !! nd = Some (mkRaw (Some (a, 0)) c) → heap w !! a = Some blk →
  RawMemory_delete nd w
  = Ok (set_raws (delete nd (raws w)) (set_heap (delete a (heap w)) w)) tt.
Proof.
  intros Hr Hh. unfold RawMemory_delete.
  step get_buffer_eq.
  erewrite bind_ok; [|by eapply operator_delete_eq]. done.
Qed.

Lemma RawMemory_delete_null_eq nd c w :
  raws w !! nd = Some (mkRaw None c) →
  RawMemory_delete nd w = Ok (set_raws (delete nd (raws w)) w) tt.
Proof.
  intros Hr. unfold RawMemory_delete.
  step get_buffer_eq. done.
Qed.

(** An object of a well-formed world is older than the next one. *)
Lemma wf_lt w v m : wf w → raws w !! v = Some m → v < next_oid w.
Proof.
  intros [_ Hwo] Hr. destruct (decide (v < next_oid w)); [done|].
  destruct (Hwo v) as [Hn _]; [lia|]. by rewrite Hn in Hr.
Qed.

Lemma wf_block_lt w a blk : wf w → heap w !! a = Some blk → a < next_addr w.
Proof.
  intros [Hwa _] Hh. destruct (decide (a < next_addr w)); [done|].
  rewrite Hwa in Hh; [done|lia].
Qed.

(** ** [Reserve] *)

Lemma returns_migrate_if sa da ys spre spost pre post Q w :
  sa ≠ da →
  heap w !! sa = Some (spre ++ (Some <$> ys) ++ spost) →
  heap w !! da = Some (pre ++ replicate (length ys) None ++ post) →
  (∀ w' zs, frame w w' → length zs = length ys →
         heap w' = <[sa := spre ++ (Some <$> zs) ++ spost]>
                     (<[da := pre ++ (Some <$> ys) ++ post]> (heap w)) →
         Q w' tt) →
  returns (if migrate_by_move
           then uninitialized_move_n (Some (sa, length spre)) (length ys)
                  (Some (da, length pre))
           else uninitialized_copy_n (Some (sa, length spre)) (length ys)
                  (Some (da, length pre))) Q w.
Proof.
  intros H1 H2 H3 H4.
  pose proof (returns_migrate sa da ys spre spost pre post Q w H1 H2 H3 H4) as H.
  by destruct migrate_by_move.
Qed.

Lemma Reserve_noop v m n w :
  raws w !! v = Some m → n ≤ capacity_ m → Reserve v n w = Ok w tt.
Proof.
  intros Hr Hle. unfold Reserve, RawMemory_Capacity.
  step get_capacity_eq. by rewrite decide_True.
Qed.

Lemma Reserve_returns v b cap xs n w :
  holds w v b cap xs → cap < n → wf w →
  returns (Reserve v n)
    (λ w' _,
       holds w' v (Some (next_addr w, 0)) n xs ∧ wf w' ∧
       heap w' = <[next_addr w := live xs n]>
                   (match b with Some (a, _) => delete a (heap w) | None => heap w end) ∧
       sizes w' = sizes w ∧
       raws w' = <[v := mkRaw (Some (next_addr w, 0)) n]> (raws w)) w.
Proof.
  intros (Hr & Hs & Hle & Hb) Hlt Hwf.
  pose proof (wf_lt _ _ _ Hwf Hr) as Hv_lt.
  destruct Hwf as [Hwa Hwo].
  assert (Hvn : v ≠ next_oid w) by lia.
  unfold Reserve, RawMemory_Capacity.
  rstep get_capacity_eq. rewrite decide_False by lia.
  rstep new_object_eq.
  apply returns_bind. unfold RawMemory_new, Allocate.
  rewrite decide_True by lia.
  apply returns_bind, returns_operator_new. intros arest Harest.
  eapply returns_eq; [apply put_raw_eq|qside|]. simpl.
  set (na := next_addr w) in *. set (nd := next_oid w) in *.
  apply returns_scoped.
  rstep2 GetAddress_eq. rstep2 get_size_eq. rstep2 GetAddress_eq.
  destruct b as [[a i]|].
  - destruct Hb as (-> & Hc & Hh).
    assert (Han : a ≠ na).
    { intros Heq. rewrite Hwa in Hh; [done|]. unfold na in Heq. lia. }
    apply returns_bind.
    eapply (returns_migrate_if a na xs [] (replicate (cap - length xs) None)
              [] (replicate (n - length xs) None)); [done|by lk| |].
    { lk. simpl. by rewrite <- replicate_add, Nat.add_comm, Nat.sub_add by lia. }
    intros w1 zs Hf1 Hzs Hh1. destruct Hf1 as (Hna1 & Hr1 & Hs1 & Hno1 & _ & _).
    simpl in Hna1, Hr1, Hs1, Hno1, Hh1.
    assert (Hrv1 : raws w1 !! v = Some (mkRaw (Some (a, 0)) cap))
      by (rewrite Hr1; by lk).
    assert (Hrn1 : raws w1 !! nd = Some (mkRaw (Some (na, 0)) n))
      by (rewrite Hr1; by lk).
    assert (Hsv1 : sizes w1 !! v = Some (length xs)) by (by rewrite Hs1).
    assert (Hha1 : heap w1 !! a = Some (live zs cap)).
    { rewrite Hh1. lk. unfold live. by rewrite Hzs. }
    rstep2 GetAddress_eq. rstep2 get_size_eq.
    apply returns_bind. rewrite <- Hzs.
    eapply returns_eq;
      [by eapply (destroy_n_eq a zs [] (replicate (cap - length zs) None))|qside|].
    rewrite live_all_None by lia.
    eapply returns_eq; [by eapply RawMemory_Swap_eq|qside|]. simpl.
    eapply returns_eq;
      [eapply (RawMemory_delete_eq nd a cap); simpl; by lk|qside|].
    simpl. clear Harest.
    assert (Hheap : delete a (<[a := replicate cap None]> (heap w1))
                    = <[na := live xs n]> (delete a (heap w))).
    { rewrite delete_insert_eq, Hh1, delete_insert_eq.
      rewrite insert_insert_eq. by rewrite delete_insert_ne by done. }
    assert (Hraws : delete nd (<[nd := mkRaw (Some (a, 0)) cap]>
                       (<[v := mkRaw (Some (na, 0)) n]> (raws w1)))
                    = <[v := mkRaw (Some (na, 0)) n]> (raws w)).
    { rewrite delete_insert_eq, Hr1.
      rewrite delete_insert_ne by lia. rewrite delete_insert_eq.
      rewrite delete_id; [done|]. apply Hwo. unfold nd. lia. }
    rewrite Hheap, Hraws.
    split; [|split; [|done]].
    + repeat split; simpl; try by lk. all: lia.
    + split; simpl.
      * intros a' Ha'. rewrite Hna1 in Ha'. simpl in Ha'.
        rewrite lookup_insert_ne by lia.
        destruct (decide (a' = a)) as [->|]; [by lk|].
        rewrite lookup_delete_ne by done. apply Hwa. unfold na in Ha'. lia.
      * intros o Ho. rewrite Hno1 in Ho. simpl in Ho. split.
        -- rewrite lookup_insert_ne by lia. apply Hwo. unfold nd in Ho. lia.
        -- rewrite Hs1. apply Hwo. unfold nd in Ho. lia.
  - subst cap. destruct xs; [|simpl in Hle; lia]. simpl.
    assert (returns
      (if migrate_by_move
       then uninitialized_move_n (T:=T) None 0 (Some (na, 0))
       else uninitialized_copy_n None 0 (Some (na, 0)))
      (λ w' _, w' = set_raws (<[nd := mkRaw (Some (na, 0)) n]> (raws w))
                 (set_next_addr (S na) (store na (replicate n None)
                    (set_alloc_faults arest (set_next_oid (S nd) w)))))
      (set_raws (<[nd := mkRaw (Some (na, 0)) n]> (raws w))
         (set_next_addr (S na) (store na (replicate n None)
            (set_alloc_faults arest (set_next_oid (S nd) w)))))) as Hm.
    { destruct migrate_by_move; by apply returns_ret. }
    apply returns_bind. eapply returns_mono; [exact Hm|]. clear Hm.
    intros w1 [] ->.
    rstep2 GetAddress_eq. rstep2 get_size_eq.
    apply returns_bind, returns_ret.
    eapply returns_eq; [eapply RawMemory_Swap_eq; by lk|qside|]. simpl.
    eapply returns_eq; [eapply (RawMemory_delete_null_eq nd 0); simpl; by lk|qside|].
    simpl.
    assert (Hraws : delete nd (<[nd := mkRaw None 0]>
                       (<[v := mkRaw (Some (na, 0)) n]>
                          (<[nd := mkRaw (Some (na, 0)) n]> (raws w))))
                    = <[v := mkRaw (Some (na, 0)) n]> (raws w)).
    { rewrite delete_insert_eq.
      rewrite delete_insert_ne by lia. rewrite delete_insert_eq.
      rewrite delete_id; [done|]. apply Hwo. unfold nd. lia. }
    rewrite Hraws. unfold live. simpl. rewrite Nat.sub_0_r.
    split; [|split; [|done]].
    + repeat split; simpl; try by lk; try lia.
      lk. unfold live. simpl. by rewrite Nat.sub_0_r.
    + split; simpl.
      * intros a' Ha'. rewrite lookup_insert_ne by lia. apply Hwa. unfold na. lia.
      * intros o Ho. split.
        -- rewrite lookup_insert_ne by lia. apply Hwo. unfold nd. lia.
        -- apply Hwo. unfold nd. lia.
Qed.

Lemma Reserve_ensures v b cap xs n w :
  holds w v b cap xs → wf w →
  returns (Reserve v n)
    (λ w' _, ∃ b', holds w' v b' (Nat.max cap n) xs ∧ wf w' ∧
                   sizes w' = sizes w ∧ (n ≤ cap → b' = b)) w.
Proof.
  intros Hh Hwf. destruct (decide (n ≤ cap)) as [Hle|Hgt].
  - pose proof Hh as (Hr & _).
    eapply returns_eq; [by eapply Reserve_noop|done|].
    exists b. by rewrite Nat.max_l by done.
  - eapply returns_mono; [apply (Reserve_returns v b cap xs n); [done|lia|done]|].
    intros w' [] (Hh' & Hwf' & _ & Hs' & Hr'). exists (Some (next_addr w, 0)).
    rewrite Nat.max_r by lia.
    split; [done|]. split; [done|]. split; [done|]. intros ?. lia.
Qed.

(** ** Well-formed worlds under updates *)

Lemma wf_set_size w v k s :
  wf w → v < next_oid w → s = sizes w → wf (set_sizes (<[v := k]> s) w).
Proof.
  intros [Hwa Hwo] Hlt ->. split; simpl; [done|].
  intros o Ho. split; [by apply Hwo|].
  rewrite lookup_insert_ne by lia. by apply Hwo.
Qed.

Lemma wf_store w a blk blk' :
  wf w → heap w !! a = Some blk → wf (store a blk' w).
Proof.
  intros Hwf Hh. pose proof (wf_block_lt _ _ _ Hwf Hh). destruct Hwf as [Hwa Hwo].
  split; simpl; [|done].
  intros a' Ha'. rewrite lookup_insert_ne by lia. by apply Hwa.
Qed.

Lemma wf_frame w w' a blk blk' :
  wf w → frame w w' → heap w !! a = Some blk → heap w' = <[a := blk']> (heap w) →
  wf w'.
Proof.
  intros Hwf (Hna & Hr & Hs & Hno & _) Hh Hh'.
  pose proof (wf_block_lt _ _ _ Hwf Hh). destruct Hwf as [Hwa Hwo].
  split.
  - intros a' Ha'. rewrite Hh', lookup_insert_ne by lia. apply Hwa. lia.
  - intros o Ho. rewrite Hr, Hs. apply Hwo. lia.
Qed.

Lemma wf_count_dtors w n : wf w → wf (count_dtors n w).
Proof. by intros [? ?]. Qed.

(** ** [std::uninitialized_value_construct_n] *)

Lemma returns_value_construct a i blk Q w :
  heap w !! a = Some blk → i < length blk →
  (∀ rest, (elem_faults w = [] → rest = []) →
     Q (count_ctor (store a (<[i := Some value_init]> blk)
          (set_elem_faults rest w))) tt) →
  returns (value_construct (Some (a, i))) Q w.
Proof.
  intros Hh Hlt HQ. unfold value_construct.
  apply returns_bind, returns_may_throw. intros rest Hrest.
  eapply returns_eq; [by eapply construct_at_eq|done|]. by apply HQ.
Qed.

Lemma returns_uninitialized_value_construct_n da k pre post Q w :
  heap w !! da = Some (pre ++ replicate k None ++ post) →
  (∀ w', frame w w' →
         heap w' = <[da := pre ++ (Some <$> replicate k value_init) ++ post]> (heap w) →
         Q w' tt) →
  returns (uninitialized_value_construct_n (Some (da, length pre)) k) Q w.
Proof.
  intros Hd HQ. unfold uninitialized_value_construct_n.
  set (ys := replicate k value_init).
  assert (Hk : length ys = k) by apply length_replicate.
  apply (returns_uninitialized_loop _ _ _ (λ b w',
    frame w w' ∧
    heap w' = <[da := pre ++ (Some <$> take b ys) ++
                       replicate (length ys - b) None ++ post]> (heap w))).
  - split; [apply frame_refl|]. simpl. rewrite Nat.sub_0_r, Hk.
    by rewrite insert_id.
  - intros b w1 _ Hb [Hf Hh]. simpl in Hb.
    assert (Hy : ys !! b = Some value_init) by (apply lookup_replicate_2; lia).
    simpl.
    eapply returns_value_construct.
    + rewrite Hh. apply lookup_insert_eq.
    + rewrite !length_app, length_fmap, length_take, length_replicate. lia.
    + intros rest Hrest. split.
      * eapply frame_trans; [done|]. repeat split; simpl; done.
      * simpl. rewrite Hh, insert_insert_eq. f_equal. by apply fill_step.
  - intros w1 [Hf Hh]. apply HQ; [done|]. rewrite Hh. simpl.
    rewrite <- Hk at 1. by rewrite firstn_all, Hk, Nat.sub_diag.
Qed.

(** ** [Resize] *)

Lemma Resize_returns v b cap xs n w :
  holds w v b cap xs → wf w →
  returns (Resize v n)
    (λ w' _, ∃ b',
       holds w' v b' (Nat.max cap n)
         (take n xs ++ replicate (n - length xs) value_init) ∧
       wf w' ∧ (n ≤ cap → b' = b)) w.
Proof.
  intros Hh Hwf. pose proof Hh as (Hr & Hs & Hle & Hb).
  pose proof (wf_lt _ _ _ Hwf Hr) as Hv_lt.
  unfold Resize. rstep get_size_eq. apply returns_bind.
  destruct (decide (n < length xs)) as [Hlt|Hge].
  - destruct b as [[a i]|]; [|lia]. destruct Hb as (-> & Hc & Hheap).
    rstep RawMemory_plus_eq.
    assert (Hsplit : live xs cap
      = (Some <$> take n xs) ++ (Some <$> drop n xs) ++
        replicate (cap - length xs) None).
    { unfold live. by rewrite app_assoc, <- fmap_app, take_drop. }
    rewrite Hsplit in Hheap.
    assert (Hlt_take : length (Some <$> take n xs) = n)
      by (rewrite length_fmap, length_take; lia).
    assert (Hld : length (drop n xs) = length xs - n) by apply length_drop.
    eapply returns_eq.
    { rewrite <- Hlt_take at 1. rewrite <- Hld. by eapply DestroyN_eq. }
    { qside. }
    eapply returns_eq; [eapply set_size_eq; side2|qside|]. simpl.
    exists (Some (a, 0)). rewrite Nat.max_l by lia.
    replace (n - length xs) with 0 by lia. simpl. rewrite app_nil_r.
    split; [|split; [|done]].
    + repeat split; simpl; try done.
      * lk. by rewrite length_take, Nat.min_l by lia.
      * rewrite length_take. lia.
      * lk. unfold live. rewrite length_take, Nat.min_l by lia.
        do 2 f_equal. rewrite <- replicate_add. f_equal. lia.
    + apply wf_set_size; [|done..]. apply wf_count_dtors.
      eapply wf_store; [done|]. rewrite Hheap. done.
  - destruct (decide (length xs < n)) as [Hgt|Heq].
    + apply returns_bind.
      eapply returns_mono; [by apply (Reserve_ensures v b cap xs n)|].
      intros w1 [] (b1 & Hh1 & Hwf1 & Hs1 & Hb1eq).
      destruct Hh1 as (Hr1 & Hsz1 & Hle1 & Hb1).
      destruct b1 as [[a1 i1]|]; [|lia]. destruct Hb1 as (-> & Hc1 & Hheap1).
      rstep get_size_eq. rstep RawMemory_plus_eq.
      set (cap1 := Nat.max cap n) in *.
      assert (Hsplit : live xs cap1
        = (Some <$> xs) ++ replicate (n - length xs) None ++
          replicate (cap1 - n) None).
      { unfold live. rewrite <- replicate_add. do 2 f_equal. lia. }
      rewrite Hsplit in Hheap1.
      assert (Hlx : length (Some <$> xs) = length xs) by apply length_fmap.
      rewrite <- Hlx at 1.
      eapply returns_uninitialized_value_construct_n; [done|].
      intros w2 Hf2 Hheap2.
      pose proof Hf2 as (Hna2 & Hr2 & Hs2 & Hno2 & _).
      eapply returns_eq;
        [eapply set_size_eq; by rewrite Hs2|qside|].
      exists (Some (a1, 0)).
      split; [|split].
      * repeat split; simpl; try done.
        -- by rewrite Hr2.
        -- lk. rewrite length_app, length_take, length_replicate.
           f_equal. lia.
        -- rewrite length_app, length_take, length_replicate. lia.
        -- rewrite Hheap2. lk. unfold live.
           rewrite length_app, length_take, length_replicate.
           rewrite take_ge by lia. rewrite fmap_app, <- app_assoc.
           by replace (n `min` length xs + (n - length xs)) with n by lia.
      * apply wf_set_size; [|rewrite Hno2; by eapply wf_lt|done].
        by eapply wf_frame.
      * done.
    + apply returns_ret.
      eapply returns_eq; [eapply set_size_eq; side2|qside|]. simpl.
      assert (n = length xs) as -> by lia.
      exists b. rewrite Nat.max_l by lia.
      rewrite Nat.sub_diag, firstn_all. simpl. rewrite app_nil_r.
      split; [|split; [|done]].
      * destruct b as [[a i]|]; repeat split; simpl; try tauto; try by lk.
      * by apply wf_set_size.
Qed.

(** ** Construction of a [Vector] with elements *)

Lemma put_size_eq v n w :
  put_size v n w = Ok (set_sizes (<[v := n]> (sizes w)) w) tt.
Proof. done. Qed.

Lemma drop_size_eq v w :
  drop_size v w = Ok (set_sizes (delete v (sizes w)) w) tt.
Proof. done. Qed.

Lemma Vector_new_returns v n w :
  wf w → fresh w v →
  returns (Vector_new v n)
    (λ w' _,
       holds w' v (if decide (n = 0) then None else Some (next_addr w, 0)) n
         (replicate n value_init) ∧
       wf w') w.
Proof.
  intros [Hwa Hwo] (Hlt & Hrn & Hsn). unfold Vector_new.
  apply returns_bind. unfold RawMemory_new, Allocate.
  destruct (decide (n = 0)) as [->|Hn].
  - simpl. apply returns_bind, returns_ret.
    eapply returns_eq; [apply put_raw_eq|qside|]. simpl.
    apply returns_bind. eapply returns_eq; [apply put_size_eq|qside|]. simpl.
    apply returns_catch_rethrow.
    rstep2 GetAddress_eq.
    apply returns_ret.
    split.
    + repeat split; simpl; by lk.
    + split; simpl; [done|]. intros o Ho.
      rewrite !lookup_insert_ne by lia. by apply Hwo.
  - rewrite decide_True by done.
    apply returns_bind, returns_operator_new. intros arest Harest.
    eapply returns_eq; [apply put_raw_eq|qside|]. simpl.
    apply returns_bind. eapply returns_eq; [apply put_size_eq|qside|]. simpl.
    apply returns_catch_rethrow.
    rstep2 GetAddress_eq.
    set (na := next_addr w) in *.
    change (Some (na, 0)) with (Some (na, length (@nil (option T)))).
    eapply (returns_uninitialized_value_construct_n na n [] []).
    { lk. simpl. by rewrite app_nil_r. }
    intros w' (Hna' & Hr' & Hs' & Hno' & _) Hh'. simpl in *.
    rewrite app_nil_r in Hh'.
    split.
    + repeat split; simpl.
      * rewrite Hr'. by lk.
      * rewrite Hs'. lk. by rewrite length_replicate.
      * by rewrite length_replicate.
      * lia.
      * rewrite Hh'. lk. unfold live.
        by rewrite length_replicate, Nat.sub_diag, app_nil_r.
    + split.
      * intros a Ha. rewrite Hh', Hna' in *.
        rewrite insert_insert_eq, lookup_insert_ne by lia. apply Hwa.
        unfold na. lia.
      * intros o Ho. rewrite Hr', Hs', Hno' in *.
        rewrite !lookup_insert_ne by lia. by apply Hwo.
Qed.

Lemma wp_value_construct U a i blk Q E w :
  heap w !! a = Some blk → i < length blk →
  (∀ rest, (elem_faults w = [] → rest = []) →
     Q (count_ctor (store a (<[i := Some value_init]> blk)
          (set_elem_faults rest w))) tt) →
  (∀ rest, elem_faults w = true :: rest → E (set_elem_faults rest w)) →
  wp U (value_construct (Some (a, i))) Q E w.
Proof.
  intros Hd Hlt HQ HE. unfold value_construct.
  apply wp_bind, wp_may_throw; [|done].
  intros rest Hrest. eapply wp_eq; [by eapply construct_at_eq|]. by apply HQ.
Qed.

Lemma wp_uninitialized_value_construct_n U da k pre post Q E w :
  heap w !! da = Some (pre ++ replicate k None ++ post) →
  (∀ w', frame w w' →
         heap w' = <[da := pre ++ (Some <$> replicate k value_init) ++ post]> (heap w) →
         constructed w' = constructed w + k →
         destroyed w' = destroyed w → Q w' tt) →
  (∀ w', frame w w' → heap w' = heap w → same_balance w w' → E w') →
  wp U (uninitialized_value_construct_n (Some (da, length pre)) k) Q E w.
Proof.
  intros Hd HQ HE. unfold uninitialized_value_construct_n.
  set (ys := replicate k value_init).
  assert (Hk : length ys = k) by apply length_replicate.
  apply (wp_uninitialized_loop U _ _ _ (λ b w',
    frame w w' ∧
    heap w' = <[da := pre ++ (Some <$> take b ys) ++
                       replicate (length ys - b) None ++ post]> (heap w) ∧
    constructed w' = constructed w + b ∧ destroyed w' = destroyed w)).
  - split; [apply frame_refl|]. simpl. rewrite Nat.sub_0_r, Hk.
    rewrite insert_id by done. split; [done|]. lia.
  - intros b w1 _ Hb (Hf & Hh & Hc & Hdt). simpl in Hb.
    assert (Hy : ys !! b = Some value_init) by (apply lookup_replicate_2; lia).
    simpl.
    eapply wp_value_construct.
    + rewrite Hh. apply lookup_insert_eq.
    + rewrite !length_app, length_fmap, length_take, length_replicate. lia.
    + intros rest Hrest. split; [|split; [|split]].
      * eapply frame_trans; [done|]. repeat split; simpl; done.
      * simpl. rewrite Hh, insert_insert_eq. f_equal. by apply fill_step.
      * simpl. lia.
      * done.
    + intros rest Hrest.
      assert (Hlt : length (take b ys) = b) by (rewrite length_take; lia).
      pose proof (destroy_n_eq da (take b ys) pre
        (replicate (length ys - b) None ++ post) (set_elem_faults rest w1)) as Heq.
      rewrite Hlt in Heq. eapply wp_eq.
      { apply Heq. simpl. rewrite Hh. apply lookup_insert_eq. }
      apply HE.
      * eapply frame_trans; [done|]. repeat split; simpl; try done.
        intros Hnil. by rewrite Hnil in Hrest.
      * simpl. rewrite Hh, insert_insert_eq.
        rewrite (app_assoc (replicate b None)), <- replicate_add.
        replace (b + (length ys - b)) with k by lia.
        by apply insert_id.
      * unfold same_balance. simpl. lia.
  - intros w1 (Hf & Hh & Hc & Hdt). simpl in Hc. apply HQ; try done; try lia.
    rewrite Hh. simpl.
    rewrite <- Hk at 1. by rewrite firstn_all, Hk, Nat.sub_diag.
Qed.

(** The members of a partly constructed [Vector] are destroyed. *)
Lemma unwind_members_eq v a c blk w :
  raws w !! v = Some (mkRaw (Some (a, 0)) c) → heap w !! a = Some blk →
  unwind_members v w
  = Ok (set_raws (delete v (raws w))
          (set_heap (delete a (heap w))
             (set_sizes (delete v (sizes w)) w))) tt.
Proof.
  intros Hr Hh. unfold unwind_members.
  erewrite bind_ok; [|apply drop_size_eq].
  by erewrite RawMemory_delete_eq.
Qed.

Lemma Vector_new_strong v n w :
  wf w → fresh w v →
  wp False (Vector_new v n)
    (λ w' _, constructed w' = constructed w + n ∧ destroyed w' = destroyed w)
    (restored w) w.
Proof.
  intros [Hwa Hwo] (Hlt & Hrn & Hsn). unfold Vector_new.
  apply wp_bind. unfold RawMemory_new, Allocate.
  destruct (decide (n = 0)) as [->|Hn].
  - simpl. apply wp_bind, wp_ret.
    eapply wp_eq; [apply put_raw_eq|]. simpl.
    apply wp_bind. eapply wp_eq; [apply put_size_eq|]. simpl.
    apply wp_catch_rethrow.
    wstep GetAddress_eq. apply wp_ret. simpl. lia.
  - rewrite decide_True by done.
    apply wp_bind, wp_operator_new; [|intros; by repeat split].
    intros arest.
    eapply wp_eq; [apply put_raw_eq|]. simpl.
    apply wp_bind. eapply wp_eq; [apply put_size_eq|]. simpl.
    apply wp_catch_rethrow.
    wstep GetAddress_eq.
    set (na := next_addr w) in *.
    change (Some (na, 0)) with (Some (na, length (@nil (option T)))).
    eapply (wp_uninitialized_value_construct_n False na n [] []).
    { lk. simpl. by rewrite app_nil_r. }
    { intros w0 _ _ Hcnt Hdst. simpl in *. done. }
    intros w' (Hna' & Hr' & Hs' & Hno' & _) Hh' Hbal. simpl in *.
    eapply wp_eq.
    { eapply (unwind_members_eq v na n); [rewrite Hr'; by lk|rewrite Hh'; by lk]. }
    repeat split; simpl.
    + rewrite Hh', delete_insert_eq. apply delete_id. apply Hwa. unfold na. lia.
    + rewrite Hr', delete_insert_eq. by apply delete_id.
    + rewrite Hs', delete_insert_eq. by apply delete_id.
    + exact Hbal.
Qed.

Lemma Vector_copy_returns v r b cap xs w :
  holds w r b cap xs → wf w → fresh w v →
  returns (Vector_copy v r)
    (λ w' _, ∃ b',
       holds w' v b' (length xs) xs ∧ holds w' r b cap xs ∧ wf w' ∧
       b' = (if decide (length xs = 0) then None else Some (next_addr w, 0)) ∧
       heap w' = (match b' with
                  | Some (a, _) => <[a := live xs (length xs)]> (heap w)
                  | None => heap w
                  end) ∧
       raws w' = <[v := mkRaw b' (length xs)]> (raws w) ∧
       sizes w' = <[v := length xs]> (sizes w) ∧
       next_oid w' = next_oid w) w.
Proof.
  intros (Hr & Hs & Hle & Hb) [Hwa Hwo] (Hlt & Hrn & Hsn).
  assert (Hvr : v ≠ r) by (intros ->; by rewrite Hrn in Hr).
  unfold Vector_copy. rstep get_size_eq.
  apply returns_bind. unfold RawMemory_new, Allocate.
  destruct (decide (length xs = 0)) as [Hz|Hnz].
  - rewrite Hz. simpl. apply returns_bind, returns_ret.
    eapply returns_eq; [apply put_raw_eq|qside|]. simpl.
    apply returns_bind. eapply returns_eq; [apply put_size_eq|qside|]. simpl.
    apply returns_catch_rethrow.
    rstep2 GetAddress_eq. rstep2 get_size_eq. rewrite Hz. rstep2 GetAddress_eq.
    apply returns_ret.
    destruct xs; [|done]. exists None. simpl.
    split; [repeat split; simpl; by lk|]. split.
    { repeat split; simpl; by lk. }
    split.
    { split; simpl; [done|]. intros o Ho.
      rewrite !lookup_insert_ne by lia. by apply Hwo. }
    done.
  - rewrite decide_True by done.
    apply returns_bind, returns_operator_new. intros arest Harest.
    eapply returns_eq; [apply put_raw_eq|qside|]. simpl.
    apply returns_bind. eapply returns_eq; [apply put_size_eq|qside|]. simpl.
    apply returns_catch_rethrow.
    destruct b as [[a i]|]; [|lia]. destruct Hb as (-> & Hc & Hh).
    set (na := next_addr w) in *.
    assert (Han : a ≠ na).
    { intros Heq. rewrite Hwa in Hh; [done|]. unfold na in Heq. lia. }
    rstep2 GetAddress_eq. rstep2 get_size_eq. rstep2 GetAddress_eq.
    change (Some (a, 0)) with (Some (a, length (@nil (option T)))).
    change (Some (na, 0)) with (Some (na, length (@nil (option T)))).
    eapply (returns_uninitialized_copy_n a na xs []
              (replicate (cap - length xs) None) [] []); [done|by lk| |].
    { lk. simpl. by rewrite app_nil_r. }
    intros w' (Hna' & Hr' & Hs' & Hno' & _) Hh'. simpl in *.
    rewrite app_nil_r in Hh'. rewrite insert_insert_eq in Hh'.
    exists (Some (na, 0)).
    assert (Hlive : live xs (length xs) = Some <$> xs).
    { unfold live. by rewrite Nat.sub_diag, app_nil_r. }
    split; [|split; [|split]].
    + repeat split; simpl; try lia.
      * rewrite Hr'. by lk.
      * rewrite Hs'. by lk.
      * rewrite Hh'. lk. by rewrite Hlive.
    + repeat split; simpl; try done.
      * rewrite Hr'. by lk.
      * rewrite Hs'. by lk.
      * rewrite Hh'. by lk.
    + split.
      * intros a' Ha'. rewrite Hh', Hna' in *.
        rewrite lookup_insert_ne by lia. apply Hwa. unfold na. lia.
      * intros o Ho. rewrite Hr', Hs', Hno' in *.
        rewrite !lookup_insert_ne by lia. by apply Hwo.
    + by rewrite Hlive.
Qed.

Lemma Vector_copy_strong v r b cap xs w :
  holds w r b cap xs → wf w → fresh w v →
  wp False (Vector_copy v r)
    (λ w' _, constructed w' = constructed w + length xs ∧
             destroyed w' = destroyed w)
    (restored w) w.
Proof.
  intros (Hr & Hs & Hle & Hb) [Hwa Hwo] (Hlt & Hrn & Hsn).
  assert (Hvr : v ≠ r) by (intros ->; by rewrite Hrn in Hr).
  unfold Vector_copy. wstep get_size_eq.
  apply wp_bind. unfold RawMemory_new, Allocate.
  destruct (decide (length xs = 0)) as [Hz|Hnz].
  - rewrite Hz. simpl. apply wp_bind, wp_ret.
    eapply wp_eq; [apply put_raw_eq|]. simpl.
    apply wp_bind. eapply wp_eq; [apply put_size_eq|]. simpl.
    apply wp_catch_rethrow.
    wstep GetAddress_eq. wstep get_size_eq. rewrite Hz. wstep GetAddress_eq.
    apply wp_ret. simpl. lia.
  - rewrite decide_True by done.
    apply wp_bind, wp_operator_new; [|intros; by repeat split].
    intros arest.
    eapply wp_eq; [apply put_raw_eq|]. simpl.
    apply wp_bind. eapply wp_eq; [apply put_size_eq|]. simpl.
    apply wp_catch_rethrow.
    destruct b as [[a i]|]; [|lia]. destruct Hb as (-> & Hc & Hh).
    set (na := next_addr w) in *.
    assert (Han : a ≠ na).
    { intros Heq. rewrite Hwa in Hh; [done|]. unfold na in Heq. lia. }
    wstep GetAddress_eq. wstep get_size_eq. wstep GetAddress_eq.
    change (Some (a, 0)) with (Some (a, length (@nil (option T)))).
    change (Some (na, 0)) with (Some (na, length (@nil (option T)))).
    eapply (wp_uninitialized_copy_n False a na xs []
              (replicate (cap - length xs) None) [] []); [done|by lk| | |].
    { lk. simpl. by rewrite app_nil_r. }
    { intros w0 _ _ Hcnt Hdst. simpl in *. done. }
    intros w' (Hna' & Hr' & Hs' & Hno' & _) Hh' Hbal. simpl in *.
    eapply wp_eq.
    { eapply (unwind_members_eq v na (length xs));
        [rewrite Hr'; by lk|rewrite Hh'; by lk]. }
    repeat split; simpl.
    + rewrite Hh', delete_insert_eq. apply delete_id. apply Hwa. unfold na. lia.
    + rewrite Hr', delete_insert_eq. by apply delete_id.
    + rewrite Hs', delete_insert_eq. by apply delete_id.
    + exact Hbal.
Qed.

(** ** Destruction, moves and [Swap] *)

Lemma DestroyN_null_eq w : DestroyN (T:=T) None 0 w = Ok w tt.
Proof. done. Qed.

Lemma Vector_delete_eq v b cap xs w :
  holds w v b cap xs →
  ∃ w', Vector_delete v w = Ok w' tt ∧
        raws w' = delete v (raws w) ∧ sizes w' = delete v (sizes w) ∧
        heap w' = match b with
                  | Some (a, _) => delete a (heap w)
                  | None => heap w
                  end ∧
        next_addr w' = next_addr w ∧ next_oid w' = next_oid w ∧
        alloc_faults w' = alloc_faults w ∧ elem_faults w' = elem_faults w ∧
        constructed w' = constructed w ∧
        destroyed w' = length xs + destroyed w.
Proof.
  intros (Hr & Hs & Hle & Hb). unfold Vector_delete.
  destruct b as [[a i]|].
  - destruct Hb as (-> & Hc & Hh).
    step GetAddress_eq. step get_size_eq.
    erewrite bind_ok;
      [|by eapply (DestroyN_eq a xs [] (replicate (cap - length xs) None))].
    erewrite bind_ok; [|apply drop_size_eq].
    erewrite RawMemory_delete_eq; [|simpl; done|simpl; apply lookup_insert_eq].
    eexists. split; [done|]. simpl.
    by rewrite delete_insert_eq.
  - subst cap. destruct xs; [|simpl in Hle; lia].
    step GetAddress_eq. step get_size_eq.
    erewrite bind_ok; [|apply DestroyN_null_eq].
    erewrite bind_ok; [|apply drop_size_eq].
    erewrite RawMemory_delete_null_eq; [|simpl; done].
    eexists. split; [done|]. done.
Qed.

Lemma Swap_eq v r mv mr sv sr w :
  raws w !! v = Some mv → raws w !! r = Some mr →
  sizes w !! v = Some sv → sizes w !! r = Some sr →
  Swap v r w
  = Ok (set_sizes (<[r := sv]> (<[v := sr]> (sizes w)))
          (set_raws (<[r := mv]> (<[v := mr]> (raws w))) w)) tt.
Proof.
  intros Hv Hr Hsv Hsr. unfold Swap.
  erewrite bind_ok; [|by eapply RawMemory_Swap_eq].
  step get_size_eq. step get_size_eq.
  step set_size_eq.
  erewrite set_size_eq; [done|]. simpl.
  destruct (decide (r = v)) as [->|]; [by rewrite lookup_insert_eq|].
  by rewrite lookup_insert_ne.
Qed.

Lemma swap_back {V} (m : gmap nat V) (v r : nat) (x y : V) :
  m !! v = Some x → m !! r = Some y →
  <[r := y]> (<[v := x]> (<[r := x]> (<[v := y]> m))) = m.
Proof.
  intros Hv Hr. apply map_eq. intros i.
  destruct (decide (i = r)) as [->|]; [by rewrite lookup_insert_eq|].
  rewrite lookup_insert_ne by done.
  destruct (decide (i = v)) as [->|]; [by rewrite lookup_insert_eq|].
  by rewrite !lookup_insert_ne by done.
Qed.

Lemma RawMemory_assign_eq v r b1 c1 mr w w1 :
  v ≠ r →
  raws w !! v = Some (mkRaw b1 c1) → raws w !! r = Some mr →
  Deallocate b1 w = Ok w1 tt → raws w1 = raws w →
  RawMemory_assign v r w
  = Ok (set_raws (<[v := mr]> (<[r := mkRaw None 0]> (raws w))) w1) tt.
Proof.
  intros Hne Hv Hr Hd Hr1. destruct mr as [b2 c2]. unfold RawMemory_assign.
  apply noexcept_ok.
  step get_buffer_eq.
  erewrite bind_ok; [|exact Hd].
  erewrite bind_ok; [|eapply get_buffer_eq; by rewrite Hr1]. simpl.
  erewrite bind_ok; [|eapply set_buffer_eq; by rewrite Hr1]. simpl.
  erewrite bind_ok;
    [|eapply set_buffer_eq; simpl; rewrite lookup_insert_ne, Hr1 by done; done].
  simpl.
  erewrite bind_ok;
    [|eapply get_capacity_eq; simpl;
      rewrite lookup_insert_ne by done; apply lookup_insert_eq]. simpl.
  erewrite bind_ok;
    [|eapply set_capacity_eq; simpl;
      rewrite lookup_insert_ne by done; apply lookup_insert_eq]. simpl.
  erewrite set_capacity_eq;
    [|simpl; rewrite lookup_insert_ne by done; apply lookup_insert_eq]. simpl.
  unfold set_raws. simpl. do 2 f_equal. rewrite Hr1.
  apply map_eq. intros i.
  destruct (decide (i = v)) as [->|]; [by rewrite !lookup_insert_eq|].
  rewrite !(lookup_insert_ne _ v) by done.
  destruct (decide (i = r)) as [->|]; [by rewrite !lookup_insert_eq|].
  by rewrite !lookup_insert_ne by done.
Qed.

Lemma assign_move_eq v r b1 c1 xs b2 c2 ys w :
  holds w v b1 c1 xs → holds w r b2 c2 ys → v ≠ r →
  ∃ w', assign_move v r w = Ok w' tt ∧
        raws w' = <[v := mkRaw b2 c2]> (<[r := mkRaw None 0]> (raws w)) ∧
        sizes w' = <[v := length ys]> (<[r := 0]> (sizes w)) ∧
        heap w' = match b1 with
                  | Some (a, _) => delete a (heap w)
                  | None => heap w
                  end ∧
        next_addr w' = next_addr w ∧ next_oid w' = next_oid w ∧
        alloc_faults w' = alloc_faults w ∧ elem_faults w' = elem_faults w ∧
        constructed w' = constructed w ∧ destroyed w' = destroyed w.
Proof.
  intros (Hr1 & Hs1 & Hle1 & Hb1) (Hr2 & Hs2 & Hle2 & Hb2) Hne.
  unfold assign_move.
  assert (∃ w1, Deallocate b1 w = Ok w1 tt ∧ raws w1 = raws w ∧
                sizes w1 = sizes w ∧
                heap w1 = match b1 with
                          | Some (a, _) => delete a (heap w)
                          | None => heap w
                          end ∧
                next_addr w1 = next_addr w ∧ next_oid w1 = next_oid w ∧
                alloc_faults w1 = alloc_faults w ∧ elem_faults w1 = elem_faults w ∧
                constructed w1 = constructed w ∧ destroyed w1 = destroyed w)
    as (w1 & Hd & Hraws & Hsizes & Hrest).
  { destruct b1 as [[a i]|].
    - destruct Hb1 as (-> & _ & Hh). eexists. split.
      + by eapply operator_delete_eq.
      + done.
    - by exists w. }
  erewrite noexcept_ok; [eexists; split; [done|]|].
  2:{ erewrite bind_ok; [|by eapply RawMemory_assign_eq].
      erewrite bind_ok; [|eapply get_size_eq; simpl; by rewrite Hsizes].
      erewrite bind_ok; [|eapply set_size_eq; simpl; by rewrite Hsizes].
      simpl. erewrite set_size_eq; [done|].
      simpl. rewrite lookup_insert_ne, Hsizes by done. done. }
  simpl. rewrite Hsizes. done.
Qed.

Lemma Vector_move_returns v r b cap xs w :
  holds w r b cap xs → wf w → fresh w v →
  returns (Vector_move v r)
    (λ w' _,
       holds w' v b cap xs ∧ holds w' r None 0 [] ∧ wf w' ∧
       heap w' = heap w ∧
       constructed w' = constructed w ∧ destroyed w' = destroyed w) w.
Proof.
  intros (Hr & Hs & Hle & Hb) [Hwa Hwo] (Hlt & Hrn & Hsn).
  assert (Hvr : v ≠ r) by (intros ->; by rewrite Hrn in Hr).
  assert (Hr_lt : r < next_oid w).
  { destruct (decide (r < next_oid w)); [done|].
    destruct (Hwo r) as [Hn _]; [lia|]. by rewrite Hn in Hr. }
  unfold Vector_move. apply returns_noexcept. rstep get_size_eq.
  apply returns_bind. unfold RawMemory_new, Allocate.
  destruct (decide (length xs = 0)) as [Hz|Hnz].
  - rewrite Hz. simpl. apply returns_bind, returns_ret.
    eapply returns_eq; [apply put_raw_eq|qside|]. simpl.
    apply returns_bind. eapply returns_eq; [apply put_size_eq|qside|]. simpl.
    apply returns_bind.
    eapply returns_eq;
      [eapply (RawMemory_assign_eq v r None 0); [done|by lk|by lk|done|done]
      |qside|]. simpl.
    rstep2 get_size_eq.
    apply returns_bind. eapply returns_eq; [eapply set_size_eq; side2|qside|]. simpl.
    eapply returns_eq; [eapply set_size_eq; side2|qside|]. simpl.
    split; [|split; [|split; [|done]]].
    + destruct b as [[a i]|]; repeat split; simpl; try tauto; by lk.
    + repeat split; simpl; by lk.
    + split; simpl; [done|]. intros o Ho.
      rewrite !lookup_insert_ne by lia. by apply Hwo.
  - rewrite decide_True by done.
    apply returns_bind, returns_operator_new. intros arest Harest.
    eapply returns_eq; [apply put_raw_eq|qside|]. simpl.
    apply returns_bind. eapply returns_eq; [apply put_size_eq|qside|]. simpl.
    set (na := next_addr w) in *.
    apply returns_bind.
    eapply returns_eq;
      [eapply (RawMemory_assign_eq v r (Some (na, 0)) (length xs));
         [done|by lk|by lk|eapply operator_delete_eq; by lk|done]
      |qside|]. simpl.
    rstep2 get_size_eq.
    apply returns_bind. eapply returns_eq; [eapply set_size_eq; side2|qside|]. simpl.
    eapply returns_eq; [eapply set_size_eq; side2|qside|]. simpl.
    assert (Hheap : delete na (<[na := replicate (length xs) None]> (heap w))
                    = heap w).
    { rewrite delete_insert_eq. apply delete_id. apply Hwa. unfold na. lia. }
    rewrite Hheap.
    split; [|split; [|split; [|done]]].
    + destruct b as [[a i]|]; repeat split; simpl; try tauto; by lk.
    + repeat split; simpl; by lk.
    + split; simpl.
      * intros a Ha. apply Hwa. unfold na. lia.
      * intros o Ho. rewrite !lookup_insert_ne by lia. by apply Hwo.
Qed.

(** ** Element access *)

Lemma Vector_index_eq v b cap xs i x w :
  holds w v b cap xs → xs !! i = Some x →
  Vector_index v i w = Ok w (ptr_add b i) ∧ load (ptr_add b i) w = Ok w x.
Proof.
  intros (Hr & Hs & Hle & Hb) Hx.
  pose proof (lookup_lt_Some _ _ _ Hx) as Hlt.
  destruct b as [[a j]|]; [|lia]. destruct Hb as (-> & Hc & Hh).
  split.
  - unfold Vector_index. step get_size_eq.
    rewrite bool_decide_eq_true_2 by done.
    erewrite bind_ok; [|done].
    apply (RawMemory_index_eq v (Some (a, 0)) cap i w Hr). lia.
  - simpl. eapply load_eq; [done|]. by apply live_lookup_lt.
Qed.

Lemma Vector_index_out_of_range v b cap xs i w :
  holds w v b cap xs → length xs ≤ i → Vector_index v i w = Undefined.
Proof.
  intros (Hr & Hs & Hle & Hb) Hge.
  unfold Vector_index. step get_size_eq.
  rewrite bool_decide_eq_false_2 by lia. done.
Qed.

(** ** [Emplace] with spare capacity: shifting the tail *)

Lemma shift_right_loop a zs : ∀ pre y post w,
  heap w !! a = Some (pre ++ (Some <$> zs) ++ Some y :: post) →
  ∃ z, move_backward_loop a (length pre + length zs)
         (S (length pre + length zs)) (length zs) w
       = Ok (store a (pre ++ Some z :: (Some <$> zs) ++ post) w) tt.
Proof.
  induction zs as [|z' zs IH] using rev_ind; intros pre y post w Hh.
  - exists y. simpl. unfold ret. by rewrite store_id.
  - rewrite fmap_app, <- app_assoc in Hh. simpl in Hh.
    set (blk1 := pre ++ (Some <$> zs) ++ Some (moved_from z') :: Some z' :: post).
    destruct (IH pre (moved_from z') (Some z' :: post) (store a blk1 w))
      as [z Hz].
    { by rewrite heap_store. }
    exists z. rewrite length_app. simpl.
    replace (length pre + (length zs + 1)) with (S (length pre + length zs)) by lia.
    replace (length zs + 1) with (S (length zs)) by lia.
    simpl.
    erewrite bind_ok; cycle 1.
    { eapply (move_assign_eq a (S (length pre + length zs)) (length pre + length zs)
                z' y); [done| | |lia].
      - rewrite app_assoc. apply list_lookup_middle.
        by rewrite length_app, length_fmap.
      - rewrite app_assoc, (cons_middle (Some z')), app_assoc.
        apply list_lookup_middle.
        rewrite !length_app, length_fmap. simpl. lia. }
    replace (<[length pre + length zs := Some (moved_from z')]>
               (<[S (length pre + length zs) := Some z']>
                  (pre ++ (Some <$> zs) ++ Some z' :: Some y :: post))) with blk1.
    + rewrite Hz, store_store. rewrite fmap_app, <- app_assoc. done.
    + unfold blk1.
      rewrite !(app_assoc pre).
      assert (Hl : length (pre ++ (Some <$> zs)) = length pre + length zs)
        by (by rewrite length_app, length_fmap).
      rewrite <- Hl.
      rewrite (insert_app_r_alt _ _ (S _)) by lia.
      replace (S (length (pre ++ (Some <$> zs))) - length (pre ++ (Some <$> zs)))
        with 1 by lia.
      simpl.
      rewrite insert_app_r_alt by lia. rewrite Nat.sub_diag. done.
Qed.

Lemma returns_move_construct_within a si di y blk Q w :
  si ≠ di →
  heap w !! a = Some blk → blk !! si = Some (Some y) → di < length blk →
  (∀ rest, (elem_faults w = [] → rest = []) →
     Q (store a (<[si := Some (moved_from y)]> (<[di := Some y]> blk))
          (count_ctor (set_elem_faults rest w))) tt) →
  returns (move_construct (Some (a, di)) (Some (a, si))) Q w.
Proof.
  intros Hne Hh Hy Hlt HQ. unfold move_construct.
  apply returns_bind. eapply returns_eq; [by eapply load_eq|done|].
  assert (∀ w1 (Q1 : World → unit → Prop),
    heap w1 = heap w →
    Q1 (store a (<[si := Some (moved_from y)]> (<[di := Some y]> blk))
          (count_ctor w1)) tt →
    returns (construct_at (Some (a, di)) y ;;;
             assign_at (Some (a, si)) (moved_from y)) Q1 w1) as Hrest.
  { intros w1 Q1 Hw1 HQ1. apply returns_bind.
    eapply returns_eq; [eapply construct_at_eq; [by rewrite Hw1|done]|done|].
    eapply returns_eq.
    - eapply (assign_at_eq _ _ _ y); [simpl; apply lookup_insert_eq|].
      by rewrite list_lookup_insert_ne.
    - done.
    - unfold store in *. simpl in *. by rewrite insert_insert_eq. }
  apply returns_bind. destruct nothrow_move_constructible.
  - apply returns_ret. apply Hrest; [done|].
    specialize (HQ (elem_faults w) (λ H, H)).
    by rewrite set_elem_faults_id in HQ.
  - apply returns_may_throw. intros rest Hr. apply Hrest; [done|]. by apply HQ.
Qed.

Lemma shift_body_returns v a cap (P Z : list T) l x post w :
  raws w !! v = Some (mkRaw (Some (a, 0)) cap) →
  sizes w !! v = Some (length P + length Z + 1) →
  heap w !! a = Some ((Some <$> P) ++ (Some <$> Z) ++ Some l :: None :: post) →
  length P + length Z + 2 + length post = cap →
  returns
    (e <- end_ v ;;
     last <- ptr_pred e ;;
     move_construct e last ;;;
     b1 <- begin v ;;
     e1 <- end_ v ;;
     e2 <- ptr_pred e1 ;;
     e3 <- end_ v ;;
     move_backward (ptr_add b1 (length P)) e2 e3 ;;;
     p <- RawMemory_index v (length P) ;;
     assign_at p x)
    (λ w' _,
       frame w w' ∧
       heap w' = <[a := (Some <$> P) ++ Some x :: (Some <$> Z) ++ Some l :: post]>
                   (heap w)) w.
Proof.
  intros Hr Hs Hh Hcap.
  set (s := length P + length Z + 1) in *.
  set (blk := (Some <$> P) ++ (Some <$> Z) ++ Some l :: None :: post) in *.
  assert (Hlen : length blk = cap).
  { unfold blk. rewrite !length_app, !length_fmap. simpl. lia. }
  assert (Hl : blk !! (s - 1) = Some (Some l)).
  { unfold blk. rewrite app_assoc. apply list_lookup_middle.
    rewrite length_app, !length_fmap. unfold s. lia. }
  apply returns_bind.
  eapply returns_eq; [eapply (end_eq v _ cap); [done|done|lia]|done|]. simpl.
  apply returns_bind.
  eapply returns_eq; [apply ptr_pred_eq; unfold s; lia|done|]. simpl.
  apply returns_bind.
  eapply (returns_move_construct_within a (s - 1) s l blk); [unfold s; lia|done|done|lia|].
  intros rest Hrest.
  set (blk1 := (Some <$> P) ++ (Some <$> Z) ++ Some (moved_from l) :: Some l :: post).
  assert (Hblk1 : <[s - 1 := Some (moved_from l)]> (<[s := Some l]> blk) = blk1).
  { unfold blk, blk1. rewrite !(app_assoc (Some <$> P)).
    assert (Hpz : length ((Some <$> P) ++ (Some <$> Z)) = s - 1)
      by (rewrite length_app, !length_fmap; unfold s; lia).
    rewrite <- Hpz.
    replace s with (S (length ((Some <$> P) ++ (Some <$> Z)))) at 1
      by (rewrite Hpz; unfold s; lia).
    rewrite (insert_app_r_alt _ _ (S _)) by lia.
    replace (S (length ((Some <$> P) ++ (Some <$> Z)))
             - length ((Some <$> P) ++ (Some <$> Z))) with 1 by lia.
    simpl. rewrite insert_app_r_alt by lia. by rewrite Nat.sub_diag. }
  rewrite Hblk1.
  rstep2 begin_eq.
  apply returns_bind.
  eapply returns_eq; [eapply (end_eq v _ cap); simpl; [done|done|lia]|done|]. simpl.
  apply returns_bind.
  eapply returns_eq; [apply ptr_pred_eq; unfold s; lia|done|]. simpl.
  apply returns_bind.
  eapply returns_eq; [eapply (end_eq v _ cap); simpl; [done|done|lia]|done|]. simpl.
  destruct (shift_right_loop a Z (Some <$> P) (moved_from l) (Some l :: post)
    (store a blk1 (count_ctor (set_elem_faults rest w)))) as [z Hz].
  { by rewrite heap_store. }
  rewrite length_fmap in Hz.
  apply returns_bind.
  eapply returns_eq.
  { rewrite decide_True by (unfold s; repeat split; lia).
    replace (s - 1) with (length P + length Z) by (unfold s; lia).
    replace s with (S (length P + length Z)) at 1 by (unfold s; lia).
    replace (length P + length Z - length P) with (length Z) by lia.
    exact Hz. }
  { done. }
  rewrite store_store.
  apply returns_bind.
  eapply returns_eq;
    [apply (RawMemory_index_eq v (Some (a, 0)) cap); [done|lia]|done|]. simpl.
  eapply returns_eq.
  { eapply (assign_at_eq _ _ _ z); [apply heap_store|].
    apply list_lookup_middle. by rewrite length_fmap. }
  { done. }
  rewrite store_store. split.
  - repeat split; simpl; done.
  - simpl. f_equal.
    rewrite insert_app_r_alt by (rewrite length_fmap; lia).
    by rewrite length_fmap, Nat.sub_diag.
Qed.
Lemma snoc_drop (xs : list T) d :
  d < length xs → ∃ Z l, drop d xs = Z ++ [l] ∧ length Z = length xs - d - 1.
Proof.
  intros Hd. pose proof (length_drop xs d) as Hl.
  destruct (drop d xs) as [|y ys] using rev_ind; [simpl in Hl; lia|].
  exists ys, y. split; [done|]. rewrite length_app in Hl. simpl in Hl. lia.
Qed.

Lemma Emplace_shift_returns v a cap xs d args w :
  holds w v (Some (a, 0)) cap xs → length xs < cap → d < length xs → wf w →
  returns (Emplace v (Some (a, d)) args)
    (λ w' p,
       p = Some (a, d) ∧
       holds w' v (Some (a, 0)) cap
         (take d xs ++ args_value args :: drop d xs) ∧
       wf w') w.
Proof.
  intros (Hr & Hs & Hle & _ & Hc & Hh) Hlt Hd Hwf.
  pose proof (wf_lt _ _ _ Hwf Hr) as Hv_lt.
  destruct (snoc_drop xs d Hd) as (Z & l & HZ & HlZ).
  assert (HlP : length (take d xs) = d) by (rewrite length_take; lia).
  assert (Hxs : xs = take d xs ++ Z ++ [l]) by (by rewrite <- HZ, take_drop).
  set (post := replicate (cap - length xs - 1) (@None T)).
  assert (Hlive : live xs cap
    = (Some <$> take d xs) ++ (Some <$> Z) ++ Some l :: None :: post).
  { unfold live. rewrite Hxs at 1. rewrite !fmap_app, <- !app_assoc. simpl.
    do 3 f_equal. unfold post.
    destruct (cap - length xs) as [|k] eqn:Hk; [lia|].
    simpl. by rewrite Nat.sub_0_r. }
  rewrite Hlive in Hh.
  assert (Hsize : length xs = d + length Z + 1) by lia.
  unfold Emplace.
  rstep begin_eq. rstep ptr_offset_eq. rewrite Nat.sub_0_r.
  rstep get_size_eq. rstep Capacity_eq.
  rewrite decide_False by lia. rewrite decide_False by lia.
  apply returns_bind.
  assert (Hbody : ∀ w0,
    frame w w0 → heap w0 = heap w →
    returns
      (tick_ctor ;;;
       scoped
         (e <- end_ v ;;
          last <- ptr_pred e ;;
          move_construct e last ;;;
          b1 <- begin v ;;
          e1 <- end_ v ;;
          e2 <- ptr_pred e1 ;;
          e3 <- end_ v ;;
          move_backward (ptr_add b1 d) e2 e3 ;;;
          p <- RawMemory_index v d ;;
          assign_at p (args_value args))
         tick_dtor)
      (λ w' _,
         frame w w' ∧
         heap w' = <[a := (Some <$> take d xs) ++ Some (args_value args) ::
                           (Some <$> Z) ++ Some l :: post]> (heap w)) w0).
  { intros w0 Hf0 Hh0. pose proof Hf0 as (Hna0 & Hr0 & Hs0 & Hno0 & Haf0 & Hef0).
    apply returns_bind. eapply returns_eq; [done|qside|].
    apply returns_scoped.
    pose proof (shift_body_returns v a cap (take d xs) Z l (args_value args) post
                  (count_ctor w0)) as Hb.
    rewrite HlP in Hb.
    eapply returns_mono; [apply Hb|].
    - simpl. by rewrite Hr0.
    - simpl. by rewrite Hs0, Hs, Hsize.
    - simpl. by rewrite Hh0.
    - unfold post. rewrite length_replicate. lia.
    - intros w1 [] [Hf1 Hh1]. eapply returns_eq; [done|qside|].
      destruct Hf1 as (Hna1 & Hr1 & Hs1 & Hno1 & Haf1 & Hef1). simpl in *.
      split.
      + repeat split; simpl; try congruence. intros ?. auto.
      + rewrite Hh1. by rewrite Hh0. }
  assert (Hfin : ∀ w1,
    frame w w1 ∧
    heap w1 = <[a := (Some <$> take d xs) ++ Some (args_value args) ::
                      (Some <$> Z) ++ Some l :: post]> (heap w) →
    returns
      (n <- get_size v ;;
       set_size v (S n) ;;;
       b' <- begin v ;;
       ret (ptr_add b' d))
      (λ w' p,
         p = Some (a, d) ∧
         holds w' v (Some (a, 0)) cap
           (take d xs ++ args_value args :: drop d xs) ∧
         wf w') w1).
  { intros w1 [Hf1 Hh1].
    pose proof Hf1 as (Hna1 & Hr1 & Hs1 & Hno1 & Haf1 & Hef1).
    apply returns_bind.
    eapply returns_eq; [eapply get_size_eq; by rewrite Hs1|done|]. simpl.
    apply returns_bind.
    eapply returns_eq; [eapply set_size_eq; by rewrite Hs1|qside|]. simpl.
    apply returns_bind.
    eapply returns_eq; [eapply begin_eq; simpl; by rewrite Hr1|done|]. simpl.
    apply returns_ret. split; [done|]. split.
    - repeat split; simpl.
      + by rewrite Hr1.
      + lk. rewrite length_app. simpl. rewrite HlP, length_drop. f_equal. lia.
      + rewrite length_app. simpl. rewrite HlP, length_drop. lia.
      + done.
      + rewrite Hh1. lk. unfold live. rewrite HZ.
        assert (Hlen : length (take d xs ++ args_value args :: Z ++ [l])
                       = S (length xs)).
        { rewrite length_app. simpl. rewrite HlP, length_app. simpl. lia. }
        rewrite Hlen. rewrite fmap_app, fmap_cons, fmap_app. simpl.
        rewrite <- !app_assoc. simpl. rewrite <- !app_assoc. simpl.
        unfold post. do 6 f_equal. lia.
    - apply wf_set_size; [|by rewrite Hno1|done].
      eapply wf_frame; [exact Hwf|done|done|done]. }
  destruct (args_may_throw args).
  - apply returns_bind, returns_may_throw. intros rest Hrest.
    eapply returns_mono; [apply Hbody|].
    + repeat split; simpl; done.
    + done.
    + intros w1 [] H1. by apply Hfin.
  - apply returns_bind, returns_ret.
    eapply returns_mono; [apply Hbody; [apply frame_refl|done]|].
    intros w1 [] H1. by apply Hfin.
Qed.

Lemma Emplace_empty_returns v a cap args w :
  holds w v (Some (a, 0)) cap [] → wf w →
  returns (Emplace v (Some (a, 0)) args)
    (λ w' p,
       p = Some (a, 0) ∧ holds w' v (Some (a, 0)) cap [args_value args] ∧
       wf w') w.
Proof.
  intros (Hr & Hs & Hle & _ & Hc & Hh) Hwf.
  pose proof (wf_lt _ _ _ Hwf Hr) as Hv_lt.
  unfold Emplace.
  rstep begin_eq. rstep ptr_offset_eq.
  rstep get_size_eq. rstep Capacity_eq.
  rewrite decide_False by (simpl; lia). simpl.
  apply returns_bind.
  rstep begin_eq.
  eapply returns_construct; [done|rewrite length_live; simpl; lia|].
  intros rest Hrest.
  rstep2 get_size_eq.
  apply returns_bind. eapply returns_eq; [eapply set_size_eq; side2|qside|]. simpl.
  rstep2 begin_eq. apply returns_ret.
  split; [done|]. split.
  - repeat split; simpl; try by lk.
    lk. f_equal. apply (live_insert_end [] (args_value args) cap). simpl. lia.
  - apply wf_set_size; [|done..].
    change (wf (count_ctor (store a (<[0:=Some (args_value args)]> (live [] cap))
                  (set_elem_faults rest w)))).
    destruct Hwf as [Hwa Hwo]. split; simpl; [|done].
    intros a' Ha'. destruct (decide (a' = a)) as [->|].
    + by rewrite Hwa in Hh.
    + rewrite lookup_insert_ne by done. by apply Hwa.
Qed.

Lemma Emplace_returns v b cap xs d args w :
  holds w v b cap xs → wf w → d ≤ length xs →
  d < length xs ∨ length xs = cap ∨ xs = [] →
  returns (Emplace v (ptr_add b d) args)
    (λ w' p, ∃ b',
       p = ptr_add b' d ∧
       holds w' v b' (capacity_after_append cap (length xs))
         (take d xs ++ args_value args :: drop d xs) ∧
       wf w' ∧ (length xs < cap → b' = b)) w.
Proof.
  intros Hh Hwf Hd Hcase. pose proof Hh as (Hr & Hs & Hle & Hb).
  unfold capacity_after_append.
  destruct (decide (length xs = cap)) as [Hfull|Hnf].
  - destruct b as [[a i]|].
    + destruct Hb as (-> & Hc & _). simpl.
      rewrite decide_False by lia.
      eapply returns_mono;
        [by apply (Emplace_realloc_returns v a cap xs d)|].
      intros w' p (-> & Hh' & Hwf' & _). exists (Some (next_addr w, 0)).
      rewrite Hfull.
      split; [done|]. split; [done|]. split; [done|]. intros ?. lia.
    + subst cap. destruct xs; [|simpl in Hle; lia]. simpl in *.
      assert (d = 0) as -> by lia.
      eapply returns_mono; [by apply Emplace_first_returns|].
      intros w' p (-> & Hh' & Hwf'). exists (Some (next_addr w, 0)).
      split; [done|]. split; [done|]. split; [done|]. intros ?. lia.
  - destruct b as [[a i]|]; [|lia]. pose proof Hb as (-> & Hc & _). simpl.
    destruct (decide (d < length xs)) as [Hlt|Hge].
    + eapply returns_mono;
        [apply (Emplace_shift_returns v a cap xs d); [done|lia|done|done]|].
      intros w' p (-> & Hh' & Hwf'). exists (Some (a, 0)). done.
    + destruct Hcase as [?|[?|Hnil]]; [lia|lia|]. subst xs. simpl in *.
      assert (d = 0) as -> by lia.
      eapply returns_mono; [by apply Emplace_empty_returns|].
      intros w' p (-> & Hh' & Hwf'). exists (Some (a, 0)). done.
Qed.

(** ** Removing what was added *)

Lemma PopBack_snoc v b cap xs x w :
  holds w v b cap (xs ++ [x]) →
  ∃ w', PopBack v w = Ok w' tt ∧ holds w' v b cap xs ∧
        (wf w → wf w') ∧ (quiet w → quiet w').
Proof.
  intros (Hr & Hs & Hle & Hb).
  rewrite length_app in Hs, Hle. simpl in *.
  destruct b as [[a i]|]; [|lia]. destruct Hb as (-> & Hc & Hh).
  eexists. split; [|split; [|split]].
  - apply noexcept_ok. step get_size_eq.
    rewrite decide_True by lia.
    step RawMemory_plus_eq.
    unfold Destroy. erewrite bind_ok; cycle 1.
    { eapply destroy_at_eq; [done|]. apply live_lookup_lt.
      replace (length xs + 1 - 1) with (length xs) by lia.
      apply list_lookup_middle. done. }
    step get_size_eq. eapply set_size_eq. side.
  - replace (length xs + 1 - 1) with (length xs) by lia.
    rewrite live_remove_end by lia.
    repeat split; simpl; try done; try lia.
    + by rewrite lookup_insert_eq.
    + by rewrite lookup_insert_eq.
  - intros Hwf. pose proof (wf_lt _ _ _ Hwf Hr) as Hv_lt.
    apply wf_set_size; [|done..].
    change (wf (count_dtor (store a
      (<[length xs + 1 - 1 := None]> (live (xs ++ [x]) cap)) w))).
    pose proof (wf_store _ a _ (<[length xs + 1 - 1 := None]> (live (xs ++ [x]) cap))
                  Hwf Hh) as [? ?].
    by split.
  - intros ?. qside.
Qed.

Lemma Erase_at v a cap xs d w :
  holds w v (Some (a, 0)) cap xs → d < length xs →
  ∃ w', Erase v (Some (a, d)) w = Ok w' (Some (a, d)) ∧
        holds w' v (Some (a, 0)) cap (delete d xs) ∧
        (wf w → wf w') ∧ (quiet w → quiet w').
Proof.
  intros (Hr & Hs & Hle & _ & Hc & Hh) Hd.
  destruct (lookup_lt_is_Some_2 xs d Hd) as [x Hx].
  pose proof Hh as Hh0.
  rewrite (live_split _ _ _ _ Hx) in Hh.
  assert (Hlt : length (take d xs) = d) by (rewrite length_take; lia).
  assert (Hld : length (drop (S d) xs) = length xs - S d) by apply length_drop.
  destruct (shift_left_loop v a cap (drop (S d) xs) (Some <$> take d xs) x
              (replicate (cap - length xs) None) w) as [z Hz]; [done|done| |].
  { rewrite length_fmap. lia. }
  rewrite !length_fmap, Hlt, Hld in Hz.
  set (blk1 := (Some <$> take d xs) ++ (Some <$> drop (S d) xs) ++
               Some z :: replicate (cap - length xs) None) in Hz.
  assert (Hlast : blk1 !! (length xs - 1) = Some (Some z)).
  { unfold blk1. rewrite app_assoc. apply list_lookup_middle.
    rewrite length_app, !length_fmap. lia. }
  assert (Hblk : <[length xs - 1 := None]> blk1 = live (delete d xs) cap).
  { unfold blk1, live. rewrite delete_take_drop, fmap_app, <- !app_assoc.
    rewrite insert_app_r_alt by (rewrite length_fmap; lia).
    rewrite insert_app_r_alt by (rewrite !length_fmap; lia).
    rewrite !length_fmap, Hlt, Hld, length_app, Hlt, Hld.
    replace (length xs - 1 - d - (length xs - S d)) with 0 by lia. simpl.
    rewrite <- replicate_S. do 3 f_equal. lia. }
  eexists. split; [|split; [|split]].
  - apply noexcept_ok. step begin_eq. step ptr_offset_eq. step get_size_eq.
    rewrite Nat.sub_0_r. unfold for_range.
    replace (d + 1) with (S d) by lia.
    rewrite (bind_ok _ _ _ _ _ Hz).
    erewrite bind_ok; [|by eapply end_eq]. simpl.
    step ptr_pred_eq.
    erewrite bind_ok; cycle 1.
    { unfold Destroy. eapply destroy_at_eq; [apply heap_store|done]. }
    rewrite store_store.
    step get_size_eq. erewrite bind_ok; [|eapply set_size_eq; side].
    step begin_eq. done.
  - simpl. rewrite Hblk.
    repeat split; simpl; try done.
    + rewrite lookup_insert_eq, length_delete by eauto. done.
    + rewrite length_delete by eauto. lia.
    + by rewrite lookup_insert_eq.
  - intros Hwf. pose proof (wf_lt _ _ _ Hwf Hr) as Hv_lt.
    apply wf_set_size; [|done..].
    change (wf (count_dtor (store a (<[length xs - 1 := None]> blk1) w))).
    pose proof (wf_store _ a _ (<[length xs - 1 := None]> blk1) Hwf Hh0) as [? ?].
    by split.
  - intros ?. qside.
Qed.

(** ** Copy assignment *)

Lemma overwrite_step (ys xs : list T) (post : list (option T)) lo y x :
  ys !! lo = Some y → xs !! lo = Some x →
  <[lo := Some y]> ((Some <$> take lo ys) ++ (Some <$> drop lo xs) ++ post)
  = (Some <$> take (S lo) ys) ++ (Some <$> drop (S lo) xs) ++ post.
Proof.
  intros Hy Hx.
  assert (lo < length ys) by by eapply lookup_lt_Some.
  assert (Hl : length (Some <$> take lo ys) = lo)
    by (rewrite length_fmap, length_take; lia).
  rewrite insert_app_r_alt by lia. rewrite Hl, Nat.sub_diag.
  rewrite (drop_S _ _ _ Hx). simpl.
  rewrite (take_S_r _ _ _ Hy), fmap_app, <- app_assoc. done.
Qed.

Lemma overwrite_lookup (ys xs : list T) (post : list (option T)) lo x :
  lo ≤ length ys → xs !! lo = Some x →
  ((Some <$> take lo ys) ++ (Some <$> drop lo xs) ++ post) !! lo = Some (Some x).
Proof.
  intros Hle Hx.
  assert (Hl : length (Some <$> take lo ys) = lo)
    by (rewrite length_fmap, length_take; lia).
  rewrite lookup_app_r by lia. rewrite Hl, Nat.sub_diag.
  by rewrite (drop_S _ _ _ Hx).
Qed.

Lemma returns_copy_assign a1 i a2 j x y blk1 blk2 Q w :
  heap w !! a2 = Some blk2 → blk2 !! j = Some (Some y) →
  heap w !! a1 = Some blk1 → blk1 !! i = Some (Some x) →
  (∀ rest, (elem_faults w = [] → rest = []) →
     Q (store a1 (<[i := Some y]> blk1) (set_elem_faults rest w)) tt) →
  returns (copy_assign (Some (a1, i)) (Some (a2, j))) Q w.
Proof.
  intros H2 Hy H1 Hx HQ. unfold copy_assign.
  apply returns_bind. eapply returns_eq; [by eapply load_eq|done|].
  apply returns_bind. eapply returns_eq; [by eapply load_eq|done|].
  apply returns_bind, returns_may_throw. intros rest Hrest.
  eapply returns_eq; [by eapply assign_at_eq|done|]. by apply HQ.
Qed.

Lemma copy_assign_loop v r a1 a2 c1 c2 xs ys (post : list (option T)) n :
  ∀ lo w,
  a1 ≠ a2 →
  raws w !! v = Some (mkRaw (Some (a1, 0)) c1) →
  raws w !! r = Some (mkRaw (Some (a2, 0)) c2) →
  sizes w !! r = Some (length ys) → length ys ≤ c2 → length xs ≤ c1 →
  heap w !! a1 = Some ((Some <$> take lo ys) ++ (Some <$> drop lo xs) ++ post) →
  heap w !! a2 = Some (live ys c2) →
  lo + n ≤ length xs → lo + n ≤ length ys →
  returns
    (for_loop lo n (λ i,
       p <- RawMemory_index v i ;;
       q <- Vector_index r i ;;
       copy_assign p q))
    (λ w' _,
       frame w w' ∧
       heap w' = <[a1 := (Some <$> take (lo + n) ys) ++
                          (Some <$> drop (lo + n) xs) ++ post]> (heap w)) w.
Proof.
  induction n as [|n IH]; intros lo w Hne Hrv Hrr Hsr Hle2 Hle1 Hh1 Hh2 Hx Hy.
  - apply returns_ret. split; [apply frame_refl|].
    rewrite Nat.add_0_r. by rewrite insert_id.
  - simpl.
    destruct (lookup_lt_is_Some_2 xs lo) as [x Hxlo]; [lia|].
    destruct (lookup_lt_is_Some_2 ys lo) as [y Hylo]; [lia|].
    apply returns_bind. apply returns_bind.
    eapply returns_eq;
      [apply (RawMemory_index_eq v (Some (a1, 0)) c1); [done|lia]|done|]. simpl.
    apply returns_bind.
    eapply returns_eq.
    { unfold Vector_index. step get_size_eq.
      rewrite bool_decide_eq_true_2 by lia.
      erewrite bind_ok; [|done].
      apply (RawMemory_index_eq r (Some (a2, 0)) c2); [done|lia]. }
    { done. }
    simpl.
    eapply returns_copy_assign;
      [done|by apply live_lookup_lt|done|apply overwrite_lookup; [lia|done]|].
    intros rest Hrest.
    rewrite (overwrite_step _ _ _ _ _ _ Hylo Hxlo).
    eapply returns_mono.
    + apply (IH (S lo)); try done; simpl; try lia.
      * by rewrite lookup_insert_eq.
      * by rewrite lookup_insert_ne.
    + intros w' [] [Hf Hh']. split.
      * eapply frame_trans; [|exact Hf]. repeat split; simpl; done.
      * rewrite Hh'. simpl. rewrite insert_insert_eq.
        by replace (lo + S n) with (S (lo + n)) by lia.
Qed.

Lemma copy_assign_prefix v r a1 c1 xs b2 c2 ys n w :
  holds w v (Some (a1, 0)) c1 xs → holds w r b2 c2 ys →
  apart (Some (a1, 0)) b2 → n ≤ length xs → n ≤ length ys →
  returns
    (for_range 0 n (λ i,
       p <- RawMemory_index v i ;;
       q <- Vector_index r i ;;
       copy_assign p q))
    (λ w' _,
       frame w w' ∧
       heap w' = <[a1 := (Some <$> take n ys) ++ (Some <$> drop n xs) ++
                          replicate (c1 - length xs) None]> (heap w)) w.
Proof.
  intros (Hr1 & Hs1 & Hle1 & _ & Hc1 & Hh1) (Hr2 & Hs2 & Hle2 & Hb2) Hap Hx Hy.
  unfold for_range. rewrite Nat.sub_0_r.
  destruct n as [|n].
  - apply returns_ret. split; [apply frame_refl|]. simpl. rewrite drop_0.
    by rewrite insert_id.
  - destruct b2 as [[a2 i2]|]; [|lia]. destruct Hb2 as (-> & Hc2 & Hh2).
    simpl in Hap.
    eapply returns_mono;
      [apply (copy_assign_loop v r a1 a2 c1 c2 xs ys
                (replicate (c1 - length xs) None) (S n) 0 w); try done|].
    intros w' [] H. exact H.
Qed.

Lemma assign_copy_in_place v r b1 c1 xs b2 c2 ys w :
  holds w v b1 c1 xs → holds w r b2 c2 ys → v ≠ r → apart b1 b2 → wf w →
  length ys ≤ c1 → length ys ≤ length xs ∨ xs = [] →
  returns (assign_copy v r)
    (λ w' _, holds w' v b1 c1 ys ∧ holds w' r b2 c2 ys ∧ wf w') w.
Proof.
  intros Hv Hrh Hne Hap Hwf Hfit Hcase.
  pose proof Hv as (Hr1 & Hs1 & Hle1 & Hb1).
  pose proof Hrh as (Hr2 & Hs2 & Hle2 & Hb2).
  pose proof (wf_lt _ _ _ Hwf Hr1) as Hv_lt.
  unfold assign_copy. rewrite decide_True by done.
  rstep get_size_eq. unfold RawMemory_Capacity. rstep get_capacity_eq.
  rewrite decide_False by lia.
  rstep get_size_eq.
  assert (Hrest : ∀ w1 blk a1,
    b1 = Some (a1, 0) →
    frame w w1 → heap w1 = <[a1 := blk]> (heap w) → blk = live ys c1 →
    returns (set_size v (length ys))
      (λ w' _, holds w' v b1 c1 ys ∧ holds w' r b2 c2 ys ∧ wf w') w1).
  { intros w1 blk a1 -> Hf1 Hh1 ->.
    pose proof Hf1 as (Hna1 & Hraws1 & Hsizes1 & Hno1 & _).
    destruct Hb1 as (_ & Hc1 & Hheap1).
    eapply returns_eq; [eapply set_size_eq; by rewrite Hsizes1|qside|].
    split; [|split].
    - repeat split; simpl; try done.
      + by rewrite Hraws1.
      + by lk.
      + rewrite Hh1. by lk.
    - repeat split; simpl; try done.
      + by rewrite Hraws1.
      + rewrite lookup_insert_ne by done. by rewrite Hsizes1.
      + destruct b2 as [[a2 i2]|]; [|done].
        destruct Hb2 as (-> & Hc2 & Hheap2). simpl in Hap.
        repeat split; try done. rewrite Hh1. by lk.
    - apply wf_set_size; [|by rewrite Hno1|done].
      by eapply wf_frame. }
  destruct (decide (length ys < length xs)) as [Hlt|Hge].
  - destruct b1 as [[a1 i1]|]; [|lia]. pose proof Hb1 as (-> & Hc1 & Hheap1).
    apply returns_bind.
    eapply returns_mono;
      [apply (copy_assign_prefix v r a1 c1 xs b2 c2 ys (length ys)); try done; lia|].
    intros w1 [] [Hf1 Hh1].
    pose proof Hf1 as (Hna1 & Hraws1 & Hsizes1 & Hno1 & _).
    rewrite firstn_all in Hh1.
    apply returns_bind.
    eapply returns_eq;
      [apply (RawMemory_plus_eq v (Some (a1, 0)) c1);
         [by rewrite Hraws1|lia]|done|]. simpl.
    apply returns_bind.
    assert (Hly : length (Some <$> ys) = length ys) by apply length_fmap.
    assert (Hld : length (drop (length ys) xs) = length xs - length ys)
      by apply length_drop.
    eapply returns_eq.
    { rewrite <- Hly at 1. rewrite <- Hld.
      eapply DestroyN_eq. rewrite Hh1. apply lookup_insert_eq. }
    { qside. }
    eapply returns_mono.
    + eapply (Hrest _ _ a1); [done| | |done].
      * eapply frame_trans; [exact Hf1|]. repeat split; simpl; done.
      * simpl. rewrite Hh1, insert_insert_eq. f_equal.
        unfold live. rewrite Hld, <- replicate_add. do 2 f_equal. lia.
    + done.
  - assert (Hcase' : length xs = length ys ∨ (xs = [] ∧ 0 < length ys)).
    { destruct Hcase as [? | ->]; [left; lia|].
      destruct ys; [by left|right; simpl; split; [done|lia]]. }
    clear Hcase. destruct Hcase' as [Heq | [-> Hpos]].
    + destruct b1 as [[a1 i1]|].
      * pose proof Hb1 as (-> & Hc1 & Hheap1).
        apply returns_bind.
        eapply returns_mono;
          [apply (copy_assign_prefix v r a1 c1 xs b2 c2 ys (length xs));
             try done; lia|].
        intros w1 [] [Hf1 Hh1].
        pose proof Hf1 as (Hna1 & Hraws1 & Hsizes1 & Hno1 & _).
        rewrite Heq, firstn_all in Hh1. rewrite <- Heq in Hh1 at 1.
        rewrite drop_all in Hh1. simpl in Hh1.
        apply returns_bind.
        eapply returns_eq;
          [apply (RawMemory_plus_eq r b2 c2); [by rewrite Hraws1|lia]|done|].
        apply returns_bind.
        eapply returns_eq; [eapply GetAddress_eq; by rewrite Hraws1|done|].
        simpl. rewrite Heq, Nat.sub_diag.
        apply returns_bind, returns_ret.
        eapply (Hrest _ _ a1); [done|done|done|done].
      * subst c1. destruct xs; [|simpl in Hle1; lia].
        destruct ys; [|simpl in Hfit; lia]. simpl.
        apply returns_bind, returns_ret.
        rstep RawMemory_plus_eq. rstep GetAddress_eq.
        apply returns_bind, returns_ret.
        eapply returns_eq; [eapply set_size_eq; side2|qside|]. simpl.
        split; [|split].
        -- repeat split; simpl; by lk.
        -- destruct b2 as [[a2 i2]|]; repeat split; simpl; try tauto; by lk.
        -- by apply wf_set_size.
    + destruct b1 as [[a1 i1]|]; [|lia]. pose proof Hb1 as (-> & Hc1 & Hheap1).
      destruct b2 as [[a2 i2]|]; [|lia]. pose proof Hb2 as (-> & Hc2 & Hheap2).
      simpl in Hap. simpl.
      apply returns_bind, returns_ret.
      rstep RawMemory_plus_eq. rstep GetAddress_eq.
      rewrite Nat.sub_0_r.
      apply returns_bind.
      change (Some (a2, 0)) with (Some (a2, length (@nil (option T)))).
      change (Some (a1, 0)) with (Some (a1, length (@nil (option T)))).
      eapply (returns_uninitialized_copy_n a2 a1 ys []
                (replicate (c2 - length ys) None) []
                (replicate (c1 - length ys) None)); [done|done| |].
      { rewrite Hheap1. unfold live. simpl. rewrite Nat.sub_0_r.
        rewrite <- replicate_add. do 2 f_equal. lia. }
      intros w1 Hf1 Hh1.
      eapply (Hrest _ _ a1); [done|done|exact Hh1|done].
Qed.

Lemma wf_new_object w : wf w → wf (set_next_oid (S (next_oid w)) w).
Proof.
  intros [Hwa Hwo]. split; simpl; [done|]. intros o Ho. apply Hwo. lia.
Qed.

Lemma fresh_new_object w : wf w → fresh (set_next_oid (S (next_oid w)) w) (next_oid w).
Proof.
  intros [Hwa Hwo]. destruct (Hwo (next_oid w)) as [? ?]; [lia|].
  repeat split; simpl; [lia|done..].
Qed.

Lemma assign_copy_realloc v r b1 c1 xs b2 c2 ys w :
  holds w v b1 c1 xs → holds w r b2 c2 ys → v ≠ r → apart b1 b2 → wf w →
  c1 < length ys →
  returns (assign_copy v r)
    (λ w' _,
       holds w' v (Some (next_addr w, 0)) (length ys) ys ∧
       holds w' r b2 c2 ys ∧ wf w' ∧
       (∀ a i, b1 = Some (a, i) → heap w' !! a = None)) w.
Proof.
  intros Hv Hrh Hne Hap Hwf Hgt.
  pose proof Hv as (Hr1 & Hs1 & Hle1 & Hb1).
  pose proof Hrh as (Hr2 & Hs2 & Hle2 & Hb2).
  pose proof (wf_lt _ _ _ Hwf Hr1) as Hv_lt.
  pose proof (wf_lt _ _ _ Hwf Hr2) as Hr_lt.
  unfold assign_copy. rewrite decide_True by done.
  rstep get_size_eq. unfold RawMemory_Capacity. rstep get_capacity_eq.
  rewrite decide_True by lia.
  rstep new_object_eq.
  set (nd := next_oid w) in *. set (na := next_addr w) in *.
  apply returns_bind.
  eapply returns_mono.
  { apply (Vector_copy_returns nd r b2 c2 ys); [done|by apply wf_new_object
                                               |by apply fresh_new_object]. }
  intros w1 [] (b' & Hhn & Hhr & Hwf1 & Hb' & Hheap1 & Hraws1 & Hsizes1 & Hno1).
  rewrite decide_False in Hb' by lia. simpl in Hb', Hraws1, Hsizes1, Hno1.
  subst b'. simpl in Hheap1. fold na in Hheap1, Hhn, Hraws1.
  assert (Hrv1 : raws w1 !! v = Some (mkRaw b1 c1))
    by (rewrite Hraws1, lookup_insert_ne by lia; done).
  assert (Hsv1 : sizes w1 !! v = Some (length xs))
    by (rewrite Hsizes1, lookup_insert_ne by lia; done).
  pose proof Hhn as (Hrn1 & Hsn1 & _ & _ & _ & Hhna1).
  pose proof Hhr as (Hrr1 & Hsr1 & _ & Hbr1).
  apply returns_scoped.
  eapply returns_eq; [by eapply Swap_eq|qside|].
  set (w2 := set_sizes _ _).
  assert (Hh2 : holds w2 nd b1 c1 xs).
  { repeat split; unfold w2; simpl; try by lk.
    destruct b1 as [[a1 i1]|]; [|done]. destruct Hb1 as (-> & Hc1 & Hheap).
    repeat split; try done. rewrite Hheap1, lookup_insert_ne; [done|].
    pose proof (wf_block_lt _ _ _ Hwf Hheap). unfold na. lia. }
  destruct (Vector_delete_eq nd b1 c1 xs w2 Hh2)
    as (w3 & Heq & Hraws3 & Hsizes3 & Hheap3 & Hna3 & Hno3 & Haf3 & Hef3 & _).
  eapply returns_eq; [exact Heq|unfold quiet; by rewrite Haf3, Hef3|].
  unfold w2 in Hraws3, Hsizes3, Hheap3, Hna3, Hno3. simpl in *.
  assert (Hna_old : ∀ a blk, heap w !! a = Some blk → a ≠ na).
  { intros a blk Ha. pose proof (wf_block_lt _ _ _ Hwf Ha). unfold na. lia. }
  split; [|split; [|split]].
  - repeat split; simpl; try lia.
    + rewrite Hraws3, lookup_delete_ne by lia.
      rewrite lookup_insert_ne by lia. by lk.
    + rewrite Hsizes3, lookup_delete_ne by lia.
      rewrite lookup_insert_ne by lia. by lk.
    + rewrite Hheap3. destruct b1 as [[a1 i1]|]; [|done].
      destruct Hb1 as (-> & Hc1 & Hheap).
      rewrite lookup_delete_ne; [done|]. by eapply Hna_old.
  - repeat split; simpl; try done.
    + rewrite Hraws3, lookup_delete_ne by lia.
      by rewrite !lookup_insert_ne by lia.
    + rewrite Hsizes3, lookup_delete_ne by lia.
      by rewrite !lookup_insert_ne by lia.
    + destruct b2 as [[a2 i2]|]; [|done].
      destruct Hbr1 as (-> & Hc2 & Hheap2). repeat split; try done.
      rewrite Hheap3. destruct b1 as [[a1 i1]|]; [|done].
      simpl in Hap. by rewrite lookup_delete_ne.
  - destruct Hwf1 as [Hwa1 Hwo1]. split.
    + intros a Ha. rewrite Hna3 in Ha. rewrite Hheap3.
      destruct b1 as [[a1 i1]|]; [|by apply Hwa1].
      destruct (decide (a = a1)) as [->|]; [by rewrite lookup_delete_eq|].
      rewrite lookup_delete_ne by done. by apply Hwa1.
    + intros o Ho. rewrite Hno3 in Ho. rewrite Hraws3, Hsizes3.
      destruct (Hwo1 o Ho) as [Hro Hso]. rewrite Hno1 in Ho.
      rewrite !lookup_delete_ne by (unfold nd; lia).
      rewrite !lookup_insert_ne by (unfold nd; lia). done.
  - intros a i ->. rewrite Hheap3. by rewrite lookup_delete_eq.
Qed.

(** ** Sequences of [PushBack] *)

Lemma PushBack_in_place_returns v b cap xs x w :
  holds w v b cap xs → length xs < cap → wf w →
  returns (PushBack v x) (λ w' _, holds w' v b cap (xs ++ [x]) ∧ wf w') w.
Proof.
  intros Hh Hlt Hwf. pose proof Hh as (Hr & Hs & Hle & Hb). unfold PushBack.
  rstep get_size_eq. rstep Capacity_eq.
  rewrite decide_False by lia.
  by apply (append_in_place_returns v b cap xs (ByCopy x)).
Qed.

Lemma push_all_in_place v xs : ∀ b cap ys w,
  holds w v b cap ys → wf w → length ys + length xs ≤ cap →
  returns (push_all v xs)
    (λ w' cs, holds w' v b cap (ys ++ xs) ∧ wf w' ∧
              cs = replicate (length xs) cap) w.
Proof.
  induction xs as [|x xs IH]; intros b cap ys w Hh Hwf Hfit.
  - apply returns_ret. by rewrite app_nil_r.
  - simpl in *. apply returns_bind.
    eapply returns_mono;
      [apply (PushBack_in_place_returns v b cap ys x); [done|lia|done]|].
    intros w1 [] [Hh1 Hwf1]. pose proof Hh1 as (Hr1 & _).
    rstep Capacity_eq. apply returns_bind.
    eapply returns_mono; [apply (IH b cap (ys ++ [x])); [done|done|]|].
    + rewrite length_app. simpl. lia.
    + intros w2 cs (Hh2 & Hwf2 & ->). apply returns_ret.
      by rewrite <- app_assoc in Hh2.
Qed.

Lemma push_all_returns v xs : ∀ b cap ys w,
  holds w v b cap ys → wf w →
  returns (push_all v xs)
    (λ w' cs, ∃ b',
       holds w' v b' (default cap (last cs)) (ys ++ xs) ∧ wf w' ∧
       length cs = length xs) w.
Proof.
  induction xs as [|x xs IH]; intros b cap ys w Hh Hwf.
  - apply returns_ret. exists b. by rewrite app_nil_r.
  - simpl. apply returns_bind.
    eapply returns_mono; [by apply (PushBack_returns v b cap ys x)|].
    intros w1 [] (b1 & Hh1 & Hwf1). pose proof Hh1 as (Hr1 & _).
    rstep Capacity_eq. apply returns_bind.
    eapply returns_mono;
      [by apply (IH b1 (capacity_after_append cap (length ys)) (ys ++ [x]))|].
    intros w2 cs (b2 & Hh2 & Hwf2 & Hlen). apply returns_ret.
    exists b2. rewrite <- app_assoc in Hh2. simpl in Hh2.
    split; [|split; [done|simpl; by rewrite Hlen]].
    destruct cs as [|c cs]; [done|].
    rewrite last_cons_cons.
    destruct (last (c :: cs)) eqn:Hlast; [done|].
    by apply last_None in Hlast.
Qed.

(** ** [Erase] outside its precondition *)

Lemma ptr_offset_cases pos b w :
  ptr_offset (T:=T) pos b w = Undefined ∨ ∃ d, ptr_offset pos b w = Ok w d.
Proof.
  unfold ptr_offset. destruct (ptr_diff pos b); [|by left].
  case_decide; [right; by eexists|by left].
Qed.

Lemma Erase_empty v b cap pos w :
  holds w v b cap [] → Erase v pos w = Undefined.
Proof.
  intros (Hr & Hs & Hle & Hb). unfold Erase, noexcept.
  erewrite bind_ok; [|by eapply begin_eq]. simpl.
  destruct (ptr_offset_cases pos b w) as [Hu|[d Hd]].
  - unfold bind at 1. by rewrite Hu.
  - erewrite bind_ok; [|exact Hd].
    erewrite bind_ok; [|by eapply get_size_eq]. simpl.
    unfold for_range. replace (0 - (d + 1)) with 0 by lia. simpl.
    erewrite bind_ok; [|done].
    erewrite bind_ok; [|by eapply end_eq].
    destruct b as [[a i]|]; [|done].
    destruct Hb as (-> & _). done.
Qed.

Lemma Erase_beyond v a cap xs x d w :
  holds w v (Some (a, 0)) cap (xs ++ [x]) → length xs < d →
  ∃ w', Erase v (Some (a, d)) w = Ok w' (Some (a, d)) ∧
        holds w' v (Some (a, 0)) cap xs ∧
        end_ v w' = Ok w' (Some (a, length xs)).
Proof.
  intros (Hr & Hs & Hle & _ & Hc & Hh) Hd.
  rewrite length_app in Hs, Hle. simpl in *.
  eexists. split; [|split].
  - apply noexcept_ok. step begin_eq. step ptr_offset_eq. step get_size_eq.
    rewrite Nat.sub_0_r. unfold for_range.
    replace (length xs + 1 - (d + 1)) with 0 by lia. simpl.
    erewrite bind_ok; [|done].
    erewrite bind_ok; [|by eapply end_eq]. simpl.
    step ptr_pred_eq.
    erewrite bind_ok; cycle 1.
    { unfold Destroy. eapply destroy_at_eq; [done|]. apply live_lookup_lt.
      replace (length xs + 1 - 1) with (length xs) by lia.
      by apply list_lookup_middle. }
    step get_size_eq. erewrite bind_ok; [|eapply set_size_eq; side].
    step begin_eq. done.
  - replace (length xs + 1 - 1) with (length xs) by lia.
    rewrite live_remove_end by lia.
    repeat split; simpl; try done; try lia.
    + by rewrite lookup_insert_eq.
    + by rewrite lookup_insert_eq.
  - replace (length xs + 1 - 1) with (length xs) by lia.
    change (Some (a, length xs)) with (ptr_add (Some (a, 0)) (length xs)).
    eapply (end_eq _ _ cap); simpl; [done| |lia].
    by rewrite lookup_insert_eq.
Qed.

(** ** Exceptions leaving [PushBack] *)

Lemma PushBack_strong v b cap xs x w :
  holds w v b cap xs → wf w → (length xs = cap → migrate_by_move = false) →
  wp True (PushBack v x) (λ _ _, True) (restored w) w.
Proof.
  intros Hh Hwf Hm. pose proof Hh as (Hr & Hs & Hle & Hb). unfold PushBack.
  wstep get_size_eq. wstep Capacity_eq.
  destruct (decide (length xs = cap)) as [Hfull|Hnf].
  - wstep begin_eq. wstep get_size_eq.
    apply wp_bind.
    eapply wp_mono; [apply (Emplace_strong v b cap xs (length xs)); auto| |done].
    intros w1 p _. by apply wp_ret.
  - destruct b as [[a i]|]; [|lia]. destruct Hb as (-> & Hc & Hheap).
    wstep get_size_eq.
    apply wp_bind.
    eapply wp_eq;
      [apply (RawMemory_plus_eq v (Some (a, 0)) cap); [done|lia]|]. simpl.
    apply wp_bind.
    eapply wp_construct; [done|rewrite length_live; lia| |].
    + intros rest. apply wp_nothrow; [nothrow_tac|done].
    + intros rest. by repeat split.
Qed.

(** ** Combining the two logics *)

Lemma returns_wp {A} U (m : M A) (Q Q' : World → A → Prop) E w :
  returns m Q w → wp U m Q' E w → returns m (λ w' a, Q w' a ∧ Q' w' a) w.
Proof.
  unfold returns, wp. destruct (m w); try done. intros [? ?] ?. done.
Qed.

Lemma wp_False_elim {A} (m : M A) (Q : World → A → Prop) E w :
  wp False m Q E w →
  (∀ w', m w = Throw w' → E w') ∧ m w ≠ Terminate ∧ m w ≠ Undefined.
Proof.
  unfold wp. destruct (m w); intros H; try done.
  split; [|done]. by intros w' [= ->].
Qed.

Lemma delete_inserted (xs : list T) d x :
  d ≤ length xs → delete d (take d xs ++ x :: drop d xs) = xs.
Proof.
  intros Hd.
  assert (Hl : length (take d xs) = d) by (rewrite length_take; lia).
  rewrite <- Hl at 1. rewrite delete_middle. apply take_drop.
Qed.

(** * Further properties of the container *)

(** X1: [Reserve(n)] on a container with capacity [cap].  For [n <= cap]
    it does nothing at all.  For [n > cap], with [n * sizeof(T)] within
    [size_t], it returns, unless an allocation or a constructor fails, with
    the same elements in the same order in a new block of exactly [n]
    slots; the old block is released. *)
Theorem Reserve_keeps_elements v b cap xs n w :
  holds w v b cap xs → wf w →
  (n ≤ cap → Reserve v n w = Ok w tt) ∧
  (cap < n → allocatable n →
   returns (Reserve v n)
     (λ w' _,
        holds w' v (Some (next_addr w, 0)) n xs ∧ wf w' ∧
        ∀ a i, b = Some (a, i) → heap w' !! a = None) w).
Proof.
  intros Hh Hwf. split.
  - intros Hle. destruct Hh as (Hr & _). by eapply Reserve_noop.
  - intros Hlt _.
    eapply returns_mono; [by apply (Reserve_returns v b cap xs n)|].
    intros w' [] (Hh' & Hwf' & Hheap & _). split; [done|]. split; [done|].
    intros a i ->. rewrite Hheap.
    destruct Hh as (_ & _ & _ & _ & _ & Ha).
    pose proof (wf_block_lt _ _ _ Hwf Ha).
    rewrite lookup_insert_ne by lia. apply lookup_delete_eq.
Qed.

(** X2: [Resize(n)], where [n * sizeof(T)] is within [size_t] when [n]
    exceeds the capacity, returns, unless an allocation or a constructor
    fails, with the first [n] of the former elements followed by
    [n - size] value-initialised ones; the capacity becomes [max(cap, n)],
    and the buffer stays where it is when [n <= cap]. *)
Theorem Resize_truncates_or_pads v b cap xs n w :
  holds w v b cap xs → wf w → (cap < n → allocatable n) →
  returns (Resize v n)
    (λ w' _, ∃ b',
       holds w' v b' (Nat.max cap n)
         (take n xs ++ replicate (n - length xs) value_init) ∧
       wf w' ∧ (n ≤ cap → b' = b)) w.
Proof. intros Hh Hwf _. exact (Resize_returns v b cap xs n w Hh Hwf). Qed.

(** X3: [Vector(n)] in fresh storage, with [n * sizeof(T)] within
    [size_t], returns, unless the allocation or a constructor fails, a
    container of [n] value-initialised elements with capacity [n] (and no
    block at all for [n = 0]), after exactly [n] constructor calls and no
    destructor call. *)
Theorem Vector_new_value_initialises v n w :
  wf w → fresh w v → allocatable n →
  returns (Vector_new v n)
    (λ w' _,
       holds w' v (if decide (n = 0) then None else Some (next_addr w, 0)) n
         (replicate n value_init) ∧
       wf w' ∧
       constructed w' = constructed w + n ∧ destroyed w' = destroyed w) w.
Proof.
  intros Hwf Hfr _.
  eapply returns_mono;
    [exact (returns_wp _ _ _ _ _ _ (Vector_new_returns v n w Hwf Hfr)
              (Vector_new_strong v n w Hwf Hfr))|].
  intros w' [] [[? ?] [? ?]]. done.
Qed.

(** X4: when [Vector(n)], with [n * sizeof(T)] within [size_t], fails, by
    [std::bad_alloc] or by an exception of a constructor, the elements
    constructed so far have been destroyed and the block released: the heap
    and the objects are as before the call and constructor and destructor
    calls balance.  The constructor never ends the program and has no
    undefined behaviour. *)
Theorem Vector_new_unwinds v n w :
  wf w → fresh w v → allocatable n →
  (∀ w', Vector_new v n w = Throw w' → restored w w') ∧
  Vector_new v n w ≠ Terminate ∧ Vector_new v n w ≠ Undefined.
Proof.
  intros Hwf Hfr _. eapply wp_False_elim. by apply Vector_new_strong.
Qed.

(** X5: the copy constructor returns, unless the allocation or a copy
    fails, a container with the elements of the source, in a block of its
    own with capacity equal to the source's size; the source is unchanged,
    and one constructor call per element has been made. *)
Theorem Vector_copy_copies v r b cap xs w :
  holds w r b cap xs → wf w → fresh w v →
  returns (Vector_copy v r)
    (λ w' _, ∃ b',
       holds w' v b' (length xs) xs ∧ holds w' r b cap xs ∧ wf w' ∧
       apart b' b ∧
       constructed w' = constructed w + length xs ∧
       destroyed w' = destroyed w) w.
Proof.
  intros Hh Hwf Hfr.
  eapply returns_mono;
    [exact (returns_wp _ _ _ _ _ _ (Vector_copy_returns v r b cap xs w Hh Hwf Hfr)
              (Vector_copy_strong v r b cap xs w Hh Hwf Hfr))|].
  intros w' [] [(b' & Hv & Hr & Hwf' & Hb' & _) [? ?]].
  exists b'. repeat (split; [done|]). split; [|done].
  destruct b as [[a i]|]; [|by destruct b' as [[? ?]|]].
  destruct Hh as (_ & _ & _ & _ & _ & Ha).
  pose proof (wf_block_lt _ _ _ Hwf Ha).
  subst b'. case_decide; simpl; [done|lia].
Qed.

(** X6: when the copy constructor fails, the copies made so far have been
    destroyed and the block released: the heap and the objects, the source
    among them, are as before the call, with constructor and destructor
    calls balanced.  It never ends the program and has no undefined
    behaviour. *)
Theorem Vector_copy_unwinds v r b cap xs w :
  holds w r b cap xs → wf w → fresh w v →
  (∀ w', Vector_copy v r w = Throw w' → restored w w') ∧
  Vector_copy v r w ≠ Terminate ∧ Vector_copy v r w ≠ Undefined.
Proof.
  intros Hh Hwf Hfr. eapply wp_False_elim. by eapply Vector_copy_strong.
Qed.

(** X7: copy construction followed by the destruction of the copy leaves
    the heap and the objects as they were, with as many destructor calls as
    constructor calls: nothing leaks and nothing is released twice. *)
Theorem Vector_copy_then_delete v r b cap xs w :
  holds w r b cap xs → wf w → fresh w v →
  returns (Vector_copy v r ;;; Vector_delete v)
    (λ w' _, restored w w' ∧ holds w' r b cap xs) w.
Proof.
  intros Hh Hwf Hfr. apply returns_bind.
  eapply returns_mono;
    [exact (returns_wp _ _ _ _ _ _ (Vector_copy_returns v r b cap xs w Hh Hwf Hfr)
              (Vector_copy_strong v r b cap xs w Hh Hwf Hfr))|].
  intros w1 [] [(b' & Hv & Hr & Hwf' & Hb' & Hheap1 & Hraws1 & Hsizes1 & _)
                [Hc1 Hd1]].
  destruct (Vector_delete_eq v b' (length xs) xs w1 Hv)
    as (w2 & Heq & Hraws2 & Hsizes2 & Hheap2 & _ & _ & Haf2 & Hef2 & Hc2 & Hd2).
  eapply returns_eq; [exact Heq|unfold quiet; by rewrite Haf2, Hef2|].
  destruct Hfr as (_ & Hrn & Hsn). destruct Hwf as [Hwa _].
  assert (Hres : restored w w2).
  { repeat split.
    - rewrite Hheap2. subst b'. case_decide; simpl in *; [done|].
      rewrite Hheap1, delete_insert_eq. apply delete_id. apply Hwa. lia.
    - rewrite Hraws2, Hraws1, delete_insert_eq. by apply delete_id.
    - rewrite Hsizes2, Hsizes1, delete_insert_eq. by apply delete_id.
    - unfold same_balance. lia. }
  split; [done|]. by eapply restored_holds.
Qed.

(** X8: the move constructor, when its allocation succeeds, hands the
    buffer, the capacity and the elements of the source over to the new
    container and leaves the source empty, with no buffer and capacity 0;
    no element is constructed or destroyed and the heap is as before. *)
Theorem Vector_move_transfers v r b cap xs w :
  holds w r b cap xs → wf w → fresh w v →
  returns (Vector_move v r)
    (λ w' _,
       holds w' v b cap xs ∧ holds w' r None 0 [] ∧ wf w' ∧
       heap w' = heap w ∧
       constructed w' = constructed w ∧ destroyed w' = destroyed w) w.
Proof. apply Vector_move_returns. Qed.

(** X9: move assignment between two distinct containers hands the buffer,
    the capacity and the elements of the source over to the destination
    and leaves the source empty.  The destination's former block is
    released, but no destructor is called: its former elements are not
    destroyed. *)
Theorem assign_move_transfers v r b1 c1 xs b2 c2 ys w :
  holds w v b1 c1 xs → holds w r b2 c2 ys → v ≠ r → apart b1 b2 →
  ∃ w', assign_move v r w = Ok w' tt ∧
        holds w' v b2 c2 ys ∧ holds w' r None 0 [] ∧
        (∀ a i, b1 = Some (a, i) → heap w' !! a = None) ∧
        constructed w' = constructed w ∧ destroyed w' = destroyed w.
Proof.
  intros Hv Hr Hne Hap.
  destruct (assign_move_eq v r b1 c1 xs b2 c2 ys w Hv Hr Hne)
    as (w' & Heq & Hraws & Hsizes & Hheap & _ & _ & _ & _ & Hc & Hd).
  exists w'. split; [done|].
  destruct Hr as (Hr2 & Hs2 & Hle2 & Hb2).
  split; [|split; [|split; [|done]]].
  - repeat split; try done.
    + rewrite Hraws. apply lookup_insert_eq.
    + rewrite Hsizes. apply lookup_insert_eq.
    + destruct b2 as [[a2 i2]|]; [|done]. destruct Hb2 as (-> & Hc2 & Hh2).
      repeat split; try done. rewrite Hheap.
      destruct b1 as [[a1 i1]|]; [|done]. simpl in Hap.
      by rewrite lookup_delete_ne.
  - repeat split; simpl; try done.
    + rewrite Hraws, lookup_insert_ne by done. apply lookup_insert_eq.
    + rewrite Hsizes, lookup_insert_ne by done. apply lookup_insert_eq.
  - intros a i ->. rewrite Hheap. apply lookup_delete_eq.
Qed.

(** X10: [Swap] exchanges the buffers, the capacities and the sizes of
    two containers, so each ends with the elements of the other; the heap
    is untouched and no element is constructed or destroyed. *)
Theorem Swap_exchanges v r b1 c1 xs b2 c2 ys w :
  holds w v b1 c1 xs → holds w r b2 c2 ys →
  ∃ w', Swap v r w = Ok w' tt ∧
        holds w' v b2 c2 ys ∧ holds w' r b1 c1 xs ∧
        heap w' = heap w ∧
        constructed w' = constructed w ∧ destroyed w' = destroyed w.
Proof.
  intros (Hr1 & Hs1 & Hle1 & Hb1) (Hr2 & Hs2 & Hle2 & Hb2).
  eexists. split; [by eapply Swap_eq|].
  split; [|split; [|done]].
  - repeat split; simpl; try done.
    + destruct (decide (v = r)) as [->|];
        [rewrite lookup_insert_eq; congruence|].
      rewrite lookup_insert_ne by done. apply lookup_insert_eq.
    + destruct (decide (v = r)) as [->|];
        [rewrite lookup_insert_eq; congruence|].
      rewrite lookup_insert_ne by done. apply lookup_insert_eq.
  - repeat split; simpl; try done.
    + apply lookup_insert_eq.
    + apply lookup_insert_eq.
Qed.

(** X11: swapping two containers twice, or a container with itself once
    or twice, leaves everything exactly as it was. *)
Theorem Swap_twice v r mv mr sv sr w :
  raws w !! v = Some mv → raws w !! r = Some mr →
  sizes w !! v = Some sv → sizes w !! r = Some sr →
  (Swap v r ;;; Swap v r) w = Ok w tt ∧ Swap v v w = Ok w tt.
Proof.
  intros Hv Hr Hsv Hsr. split.
  - erewrite bind_ok; [|by eapply Swap_eq].
    erewrite (Swap_eq v r _ mv _ sv); simpl.
    + rewrite (swap_back (raws w)), (swap_back (sizes w)) by done.
      by destruct w.
    + destruct (decide (v = r)) as [->|];
        [rewrite lookup_insert_eq; congruence|].
      rewrite lookup_insert_ne by done. apply lookup_insert_eq.
    + apply lookup_insert_eq.
    + destruct (decide (v = r)) as [->|];
        [rewrite lookup_insert_eq; congruence|].
      rewrite lookup_insert_ne by done. apply lookup_insert_eq.
    + apply lookup_insert_eq.
  - erewrite (Swap_eq v v) by done. simpl.
    rewrite !insert_insert_eq, !insert_id by done. by destruct w.
Qed.

(** X12: the observers change nothing.  [Size()] is the number of
    elements and [Capacity()] the number of slots; [begin()] is the buffer
    and [end()] is [begin() + Size()]; for every index [i < Size()],
    [operator[]] gives the address [begin() + i], which holds the [i]-th
    element; for [i >= Size()] the assertion of [operator[]] fails. *)
Theorem element_access v b cap xs w :
  holds w v b cap xs →
  Size v w = Ok w (length xs) ∧ Capacity v w = Ok w cap ∧
  begin v w = Ok w b ∧ end_ v w = Ok w (ptr_add b (length xs)) ∧
  (∀ i x, xs !! i = Some x →
     Vector_index v i w = Ok w (ptr_add b i) ∧ load (ptr_add b i) w = Ok w x) ∧
  (∀ i, length xs ≤ i → Vector_index v i w = Undefined).
Proof.
  intros Hh. pose proof Hh as (Hr & Hs & Hle & Hb).
  split; [exact (get_size_eq v _ w Hs)|].
  split; [exact (Capacity_eq v _ w Hr)|].
  split; [exact (begin_eq v _ w Hr)|].
  split; [exact (end_eq v b cap _ w Hr Hs Hle)|]. split.
  - intros i x Hx. by eapply Vector_index_eq.
  - intros i Hi. by eapply Vector_index_out_of_range.
Qed.

(** X13: the destructor destroys every element exactly once ([Size()]
    destructor calls, no constructor call), releases the block and takes
    the object out of the store; other blocks and objects are untouched. *)
Theorem Vector_delete_destroys_all v b cap xs w :
  holds w v b cap xs →
  ∃ w', Vector_delete v w = Ok w' tt ∧
        raws w' = delete v (raws w) ∧ sizes w' = delete v (sizes w) ∧
        heap w' = match b with
                  | Some (a, _) => delete a (heap w)
                  | None => heap w
                  end ∧
        constructed w' = constructed w ∧
        destroyed w' = length xs + destroyed w.
Proof.
  intros Hh.
  destruct (Vector_delete_eq v b cap xs w Hh)
    as (w' & Heq & Hraws & Hsizes & Hheap & _ & _ & _ & _ & Hc & Hd).
  by exists w'.
Qed.

(** X14: [Emplace] (and so both [Insert]s) at a position [d] in
    [0, size], except for [d = size] in a non-empty container with spare
    capacity; when the container is full, [d] fits the [int delta] of
    [TryInitMove] and [TryInitCopy] and the new block is allocatable.
    Unless an allocation or a constructor fails, it returns [begin() + d]
    in the updated container, whose elements are the former ones with the
    new element inserted before position [d]; the capacity is doubled
    (1 from 0) when the container was full, and otherwise the buffer stays
    where it is. *)
Theorem Emplace_inserts v b cap xs d args w :
  holds w v b cap xs → wf w → d ≤ length xs →
  d < length xs ∨ length xs = cap ∨ xs = [] →
  insertable cap (length xs) d →
  returns (Emplace v (ptr_add b d) args)
    (λ w' p, ∃ b',
       p = ptr_add b' d ∧
       holds w' v b' (capacity_after_append cap (length xs))
         (take d xs ++ args_value args :: drop d xs) ∧
       wf w' ∧ (length xs < cap → b' = b)) w.
Proof.
  intros Hh Hwf Hd Hcase _.
  exact (Emplace_returns v b cap xs d args w Hh Hwf Hd Hcase).
Qed.

(** X15: [Insert(const T&)] at a position [d] in [0, size], except for
    [end()] of a non-empty container with spare capacity, followed by
    [Erase] at the position [Insert] returned, gives back the former
    elements, in the capacity [Insert] left, unless an allocation or a
    constructor fails.  When the container is full,
    [d] fits the [int delta] of [TryInitMove] and [TryInitCopy] and the new
    block is allocatable. *)
Theorem Insert_then_Erase v b cap xs d x w :
  holds w v b cap xs → wf w → d ≤ length xs →
  d < length xs ∨ length xs = cap ∨ xs = [] →
  insertable cap (length xs) d →
  returns (p <- Insert v (ptr_add b d) x ;; Erase v p)
    (λ w' q, ∃ b',
       q = ptr_add b' d ∧
       holds w' v b' (capacity_after_append cap (length xs)) xs ∧
       wf w') w.
Proof.
  intros Hh Hwf Hd Hcase _. apply returns_bind. unfold Insert.
  eapply returns_mono; [by apply (Emplace_returns v b cap xs d (ByCopy x))|].
  intros w1 p (b' & -> & Hh1 & Hwf1 & _). simpl in Hh1.
  assert (Hlen : d < length (take d xs ++ x :: drop d xs)).
  { rewrite length_app, length_take. simpl. lia. }
  destruct b' as [[a' i']|].
  - pose proof Hh1 as (_ & _ & _ & -> & _).
    destruct (Erase_at v a' _ _ d w1 Hh1 Hlen) as (w2 & Heq & Hh2 & Hwf2 & Hq2).
    eapply returns_eq; [exact Heq|done|].
    exists (Some (a', 0)). rewrite delete_inserted in Hh2 by done.
    split; [done|]. split; [done|]. by apply Hwf2.
  - destruct Hh1 as (_ & _ & Hle1 & Hc1). lia.
Qed.

(** X16: [PushBack(const T&)] followed by [PopBack] gives back the former
    elements, in the capacity [PushBack] left, unless an allocation or a
    constructor fails.  When the container is full,
    its size fits the [int delta] of [TryInitMove] and [TryInitCopy] and
    the new block is allocatable. *)
Theorem PushBack_then_PopBack v b cap xs x w :
  holds w v b cap xs → wf w → insertable cap (length xs) (length xs) →
  returns (PushBack v x ;;; PopBack v)
    (λ w' _, ∃ b',
       holds w' v b' (capacity_after_append cap (length xs)) xs ∧ wf w') w.
Proof.
  intros Hh Hwf _. apply returns_bind.
  eapply returns_mono; [by apply (PushBack_returns v b cap xs x)|].
  intros w1 [] (b' & Hh1 & Hwf1).
  destruct (PopBack_snoc v b' _ xs x w1 Hh1) as (w2 & Heq & Hh2 & Hwf2 & Hq2).
  eapply returns_eq; [exact Heq|done|].
  exists b'. split; [done|]. by apply Hwf2.
Qed.

(** X17: copy assignment between distinct containers with distinct
    blocks, when the source does not fit the destination's capacity, or is
    not longer than the destination, or the destination is empty: unless an
    allocation or a copy fails, the destination ends with the elements of
    the source and capacity [max(cap, rhs.size)], and the source is
    unchanged. *)
Theorem assign_copy_copies v r b1 c1 xs b2 c2 ys w :
  holds w v b1 c1 xs → holds w r b2 c2 ys → v ≠ r → apart b1 b2 → wf w →
  c1 < length ys ∨ length ys ≤ length xs ∨ xs = [] →
  returns (assign_copy v r)
    (λ w' _, ∃ b',
       holds w' v b' (Nat.max c1 (length ys)) ys ∧ holds w' r b2 c2 ys ∧
       wf w') w.
Proof.
  intros Hv Hr Hne Hap Hwf Hcase.
  destruct (decide (c1 < length ys)) as [Hgt|Hfit].
  - eapply returns_mono;
      [by apply (assign_copy_realloc v r b1 c1 xs b2 c2 ys)|].
    intros w' [] (Hv' & Hr' & Hwf' & _).
    exists (Some (next_addr w, 0)). by rewrite Nat.max_r by lia.
  - eapply returns_mono;
      [apply (assign_copy_in_place v r b1 c1 xs b2 c2 ys); try done; [lia|]|].
    + destruct Hcase as [?|[?|?]]; [lia|by left|by right].
    + intros w' [] (Hv' & Hr' & Hwf').
      exists b1. by rewrite Nat.max_l by lia.
Qed.

(** X18: [PushBack(const T&)] of the elements of [xs], one after the
    other, onto a container holding [ys] gives, unless an allocation or a
    copy fails, a container holding [ys] followed by [xs], in this order;
    its capacity is the last one observed.  The final size fits the
    [int delta] of [TryInitMove] and [TryInitCopy], and a block of twice as
    many elements is allocatable (no reallocation asks for that much). *)
Theorem push_all_appends v xs b cap ys w :
  holds w v b cap ys → wf w →
  fits_int (length ys + length xs) →
  allocatable (2 * (length ys + length xs)) →
  returns (push_all v xs)
    (λ w' cs, ∃ b',
       holds w' v b' (default cap (last cs)) (ys ++ xs) ∧ wf w' ∧
       length cs = length xs) w.
Proof. intros Hh Hwf _ _. exact (push_all_returns v xs b cap ys w Hh Hwf). Qed.

(** X19: after [Reserve(n)], where [n * sizeof(T)] is within [size_t]
    when [n] exceeds the capacity, [PushBack] does not reallocate as long
    as the size stays within [n]: [begin()] is the same before and after
    the [PushBack]s and every capacity observed is [max(cap, n)]. *)
Theorem Reserve_then_PushBack v b cap ys xs n w :
  holds w v b cap ys → wf w → length ys + length xs ≤ n →
  (cap < n → allocatable n) →
  returns
    (Reserve v n ;;;
     b1 <- begin v ;;
     cs <- push_all v xs ;;
     b2 <- begin v ;;
     ret (b1, cs, b2))
    (λ w' '(b1, cs, b2),
       b1 = b2 ∧ cs = replicate (length xs) (Nat.max cap n) ∧
       holds w' v b2 (Nat.max cap n) (ys ++ xs) ∧ wf w') w.
Proof.
  intros Hh Hwf Hfit _. apply returns_bind.
  eapply returns_mono; [by apply (Reserve_ensures v b cap ys n)|].
  intros w1 [] (b1 & Hh1 & Hwf1 & _). pose proof Hh1 as (Hr1 & _).
  rstep begin_eq. apply returns_bind.
  eapply returns_mono;
    [apply (push_all_in_place v xs b1 (Nat.max cap n) ys); [done|done|lia]|].
  intros w2 cs (Hh2 & Hwf2 & ->). pose proof Hh2 as (Hr2 & _).
  rstep begin_eq. by apply returns_ret.
Qed.

(** X20: [PushBack(T&&)] appends the element: unless an allocation or a
    constructor fails, the container holds the former elements followed by
    the new one; its capacity is doubled (1 from 0) when it was full, and
    otherwise the buffer stays where it is.  When the container is full,
    its size fits the [int delta] of [TryInitMove] and [TryInitCopy] and
    the new block is allocatable. *)
Theorem PushBack_move_appends v b cap xs x w :
  holds w v b cap xs → wf w → insertable cap (length xs) (length xs) →
  returns (PushBack_move v x)
    (λ w' _, ∃ b',
       holds w' v b' (capacity_after_append cap (length xs)) (xs ++ [x]) ∧
       wf w' ∧ (length xs < cap → b' = b)) w.
Proof. intros Hh Hwf _. exact (PushBack_move_returns v b cap xs x w Hh Hwf). Qed.

(** X21: an exception leaving [PushBack(const T&)] leaves the container
    as it was, with constructor and destructor calls balanced: with spare
    capacity for every element type, at full capacity for elements that
    are migrated by copy. *)
Theorem PushBack_strong_guarantee v b cap xs x w :
  holds w v b cap xs → wf w → (length xs = cap → migrate_by_move = false) →
  ∀ w', PushBack v x w = Throw w' → restored w w' ∧ holds w' v b cap xs.
Proof.
  intros Hh Hwf Hm w' Heq.
  pose proof (PushBack_strong v b cap xs x w Hh Hwf Hm) as H.
  unfold wp in H. rewrite Heq in H. split; [done|]. by eapply restored_holds.
Qed.

(** X22: [Erase] on an empty container has undefined behaviour, whatever
    the position: [end() - 1] does not exist. *)
Theorem Erase_empty_undefined v b cap pos w :
  holds w v b cap [] → Erase v pos w = Undefined.
Proof. apply Erase_empty. Qed.

(** X23: [Erase] at [end()] or at a later position of the buffer, in a
    non-empty container, moves nothing and destroys the last element, as
    [PopBack] does; the position it returns is past the new [end()]. *)
Theorem Erase_from_end_pops v a cap xs x d w :
  holds w v (Some (a, 0)) cap (xs ++ [x]) → length xs < d → d ≤ cap →
  ∃ w', Erase v (Some (a, d)) w = Ok w' (Some (a, d)) ∧
        holds w' v (Some (a, 0)) cap xs ∧
        end_ v w' = Ok w' (Some (a, length xs)).
Proof. intros Hh Hd _. exact (Erase_beyond v a cap xs x d w Hh Hd). Qed.
(** X24: [RawMemory]'s move constructor takes the buffer and the capacity
    of the source over and leaves the source with no buffer and capacity 0.
    It touches neither the heap nor the allocator. *)
Theorem RawMemory_move_transfers v r m w :
  raws w !! r = Some m → v ≠ r →
  RawMemory_move v r w
  = Ok (set_raws (<[v := m]> (<[r := mkRaw None 0]> (raws w))) w) tt.
Proof.
  intros Hr Hne. destruct m as [b c]. unfold RawMemory_move.
  apply noexcept_ok.
  erewrite bind_ok; [|apply put_raw_eq].
  erewrite bind_ok;
    [|eapply get_buffer_eq; simpl; by rewrite lookup_insert_ne]. simpl.
  erewrite bind_ok;
    [|eapply set_buffer_eq; simpl; by rewrite lookup_insert_ne]. simpl.
  erewrite bind_ok;
    [|eapply set_buffer_eq; simpl;
      rewrite lookup_insert_ne by done; apply lookup_insert_eq]. simpl.
  erewrite bind_ok;
    [|eapply get_capacity_eq; simpl;
      rewrite lookup_insert_ne by done; apply lookup_insert_eq]. simpl.
  erewrite bind_ok;
    [|eapply set_capacity_eq; simpl;
      rewrite lookup_insert_ne by done; apply lookup_insert_eq]. simpl.
  erewrite set_capacity_eq;
    [|simpl; rewrite lookup_insert_ne by done; apply lookup_insert_eq]. simpl.
  unfold set_raws. simpl. do 2 f_equal.
  apply map_eq. intros i.
  destruct (decide (i = v)) as [->|]; [by rewrite !lookup_insert_eq|].
  rewrite !(lookup_insert_ne _ v) by done.
  destruct (decide (i = r)) as [->|]; [by rewrite !lookup_insert_eq|].
  by rewrite !lookup_insert_ne by done.
Qed.

(** ** Elements whose move constructor does not throw *)

Lemma nothrow_catch_rethrow {A} (m : M (T:=T) A) h :
  nothrow m → nothrow (catch_rethrow m h).
Proof.
  intros Hm w w'. unfold catch_rethrow.
  destruct (m w) eqn:Hw; try done. by apply Hm in Hw.
Qed.

Lemma nothrow_scoped {A} (m : M (T:=T) A) c :
  nothrow m → nothrow c → nothrow (scoped m c).
Proof.
  intros Hm Hc w w'. unfold scoped.
  destruct (m w) as [w1 a| | |] eqn:Hw; try done.
  - unfold bind. destruct (c w1) eqn:Hc1; try done. by apply Hc in Hc1.
  - by apply Hm in Hw.
Qed.

Lemma nothrow_tick_ctor : nothrow (tick_ctor (T:=T)).
Proof. done. Qed.

Lemma nothrow_move_construct p q :
  nothrow_move_constructible = true → nothrow (move_construct p q).
Proof.
  intros Hn. unfold move_construct, construct_at, assign_at. rewrite Hn.
  pose proof nothrow_tick_ctor. nothrow_tac.
Qed.

Lemma nothrow_uninitialized_move_n p n q :
  nothrow_move_constructible = true → nothrow (uninitialized_move_n p n q).
Proof.
  intros Hn. unfold uninitialized_move_n. generalize 0.
  induction n as [|n IH]; intros built; simpl; [nothrow_tac|].
  apply nothrow_bind; [|intros _; apply IH].
  apply nothrow_catch_rethrow. by apply nothrow_move_construct.
Qed.

Lemma Reserve_strong_nothrow_move v n w :
  nothrow_move_constructible = true →
  wp True (Reserve v n) (λ _ _, True) (restored w) w.
Proof.
  intros Hn. unfold Reserve, migrate_by_move. rewrite Hn. simpl.
  destruct (raws w !! v) as [m|] eqn:Hr.
  - unfold RawMemory_Capacity. wstep get_capacity_eq.
    case_decide; [by apply wp_ret|].
    wstep new_object_eq.
    apply wp_bind. unfold RawMemory_new, Allocate.
    rewrite decide_True by lia.
    apply wp_bind, wp_operator_new; [|intros; by repeat split].
    intros arest. eapply wp_eq; [apply put_raw_eq|].
    apply wp_nothrow; [|done].
    pose proof (λ p k q, nothrow_uninitialized_move_n p k q Hn) as Hmove.
    apply nothrow_scoped; nothrow_tac.
  - unfold wp, bind, RawMemory_Capacity, get_capacity, bind, get_raw.
    by rewrite Hr.
Qed.

(** X25: for elements with a non-throwing move constructor, [Reserve]
    can fail only by [std::bad_alloc], before any element is touched: an
    exception leaving it leaves the heap and the objects as they were. *)
Theorem Reserve_nothrow_move_strong v n w w' :
  nothrow_move_constructible = true →
  Reserve v n w = Throw w' → restored w w'.
Proof.
  intros Hn Heq.
  pose proof (Reserve_strong_nothrow_move v n w Hn) as H.
  unfold wp in H. by rewrite Heq in H.
Qed.

(** ** [Emplace] at full capacity with a non-throwing move *)

Lemma nothrow_Destroy p : nothrow (Destroy (T:=T) p).
Proof. apply nothrow_destroy_at. Qed.

Lemma nothrow_for_loop (body : nat → M (T:=T) unit) n :
  (∀ i, nothrow (body i)) → ∀ lo, nothrow (for_loop lo n body).
Proof.
  intros Hb. induction n as [|n IH]; intros lo; simpl; [apply nothrow_ret|].
  apply nothrow_bind; [apply Hb|intros _; apply IH].
Qed.

Lemma nothrow_DestroyN p n : nothrow (DestroyN (T:=T) p n).
Proof.
  unfold DestroyN, for_range. apply nothrow_for_loop.
  intros i. apply nothrow_Destroy.
Qed.

Lemma Emplace_strong_nothrow_move v b cap xs d args w :
  nothrow_move_constructible = true → holds w v b cap xs → length xs = cap →
  d ≤ length xs → wf w →
  wp True (Emplace v (ptr_add b d) args) (λ _ _, True) (restored w) w.
Proof.
  intros Hn (Hr & Hs & Hle & Hb) Hfull Hd [Hwa Hwo]. unfold Emplace.
  assert (Hvn : v ≠ next_oid w).
  { intros Heq. destruct (Hwo v) as [Hnone _]; [lia|]. by rewrite Hnone in Hr. }
  wstep begin_eq.
  apply wp_bind. eapply (wp_eq _ _ _ _ _ _ d).
  { destruct b as [[a i]|]; simpl.
    - destruct Hb as (-> & _). rewrite (ptr_offset_eq a d 0) by lia.
      by rewrite Nat.sub_0_r.
    - destruct xs; [|simpl in *; lia]. simpl in Hd.
      by replace d with 0 by lia. }
  wstep get_size_eq. wstep Capacity_eq.
  rewrite decide_True by done.
  apply wp_bind. wstep new_object_eq.
  set (newcap := if decide (length xs = 0) then 1 else length xs * 2).
  assert (Hnc : length xs < newcap) by (unfold newcap; case_decide; lia).
  apply wp_bind. unfold RawMemory_new, Allocate.
  rewrite decide_True by lia.
  apply wp_bind, wp_operator_new; [|intros; by repeat split].
  intros arest. eapply wp_eq; [apply put_raw_eq|]. simpl.
  set (na := next_addr w) in *. set (nd := next_oid w) in *.
  assert (Hdh : ∀ blk, delete na (<[na := blk]> (heap w)) = heap w).
  { intros blk. rewrite delete_insert_eq. apply delete_id, Hwa. lia. }
  assert (Hdr : ∀ m, delete nd (<[nd := m]> (raws w)) = raws w).
  { intros m. rewrite delete_insert_eq. apply delete_id, Hwo. lia. }
  apply wp_scoped. unfold migrate_by_move. rewrite Hn. simpl.
  wstep RawMemory_plus_eq. simpl.
  apply wp_bind.
  eapply wp_construct; [by lk|rewrite length_replicate; lia| |].
  2: { intros erest. eapply (new_data_released w nd na newcap); simpl;
         [by lk|by lk|by rewrite Hdh|by rewrite Hdr|done|done]. }
  intros erest.
  pose proof (λ p k q, nothrow_uninitialized_move_n p k q Hn) as Hmove.
  pose proof nothrow_DestroyN as HDN. pose proof nothrow_Destroy as HD.
  apply wp_nothrow;
    [repeat first [ apply nothrow_bind; [|intros ?]
                  | apply nothrow_catch_rethrow
                  | solve [auto with nothrow] ]|].
  intros w1 ?. apply wp_nothrow; [nothrow_tac|].
  intros w2 ?. apply wp_nothrow; [|done].
  unfold begin. nothrow_tac.
Qed.

(** X26: for elements with a non-throwing move constructor, an exception
    leaving [Emplace] (and so [Insert], [PushBack] and [EmplaceBack]) at
    full capacity, from the allocation or from the constructor of the new
    element, leaves the container as it was: the new block is released and
    constructor and destructor calls balance. *)
Theorem Emplace_nothrow_move_strong v b cap xs d args w :
  nothrow_move_constructible = true → holds w v b cap xs → length xs = cap →
  d ≤ length xs → wf w →
  ∀ w', Emplace v (ptr_add b d) args w = Throw w' →
        restored w w' ∧ holds w' v b cap xs.
Proof.
  intros Hn Hh Hfull Hd Hwf w' Heq.
  pose proof (Emplace_strong_nothrow_move v b cap xs d args w Hn Hh Hfull Hd Hwf)
    as H.
  unfold wp in H. rewrite Heq in H. split; [done|]. by eapply restored_holds.
Qed.

(** ** Exceptions leaving [Resize] *)

Lemma wp_returns {A} U (m : M A) (Q Q' : World → A → Prop) E w :
  returns m Q w → wp U m Q' E w → wp U m (λ w' a, Q w' a ∧ Q' w' a) E w.
Proof.
  unfold returns, wp. destruct (m w); try done. intros [? ?] ?. done.
Qed.

Lemma Resize_basic v b cap xs n w :
  migrate_by_move = false ∨ nothrow_move_constructible = true →
  holds w v b cap xs → wf w →
  wp True (Resize v n) (λ _ _, True)
    (λ w', ∃ b' cap', holds w' v b' cap' xs ∧ cap ≤ cap') w.
Proof.
  intros Hpath Hh Hwf. pose proof Hh as (Hr & Hs & Hle & Hb).
  unfold Resize. wstep get_size_eq.
  destruct (decide (n < length xs)) as [Hlt|Hge].
  { pose proof nothrow_DestroyN. apply wp_nothrow; [nothrow_tac|done]. }
  destruct (decide (length xs < n)) as [Hgt|Heq].
  2: { apply wp_nothrow; [nothrow_tac|done]. }
  apply wp_bind, wp_bind.
  assert (Hres : wp True (Reserve v n) (λ _ _, True) (restored w) w).
  { destruct Hpath as [Hm|Hn];
      [by eapply Reserve_strong|by apply Reserve_strong_nothrow_move]. }
  eapply wp_mono;
    [exact (wp_returns _ _ _ _ _ _ (Reserve_ensures v b cap xs n w Hh Hwf) Hres)| |].
  2: { intros w1 Hrest. exists b, cap. split; [by eapply restored_holds|done]. }
  intros w1 [] [(b1 & Hh1 & Hwf1 & _) _].
  pose proof Hh1 as (Hr1 & Hsz1 & Hle1 & Hb1).
  destruct b1 as [[a1 i1]|]; [|lia]. destruct Hb1 as (-> & Hc1 & Hheap1).
  wstep get_size_eq.
  apply wp_bind.
  eapply wp_eq;
    [apply (RawMemory_plus_eq v (Some (a1, 0)) (Nat.max cap n)); [done|lia]|].
  simpl.
  set (cap1 := Nat.max cap n) in *.
  assert (Hsplit : live xs cap1
    = (Some <$> xs) ++ replicate (n - length xs) None ++
      replicate (cap1 - n) None).
  { unfold live. rewrite <- replicate_add. do 2 f_equal. unfold cap1. lia. }
  rewrite Hsplit in Hheap1.
  assert (Hlx : length (Some <$> xs) = length xs) by apply length_fmap.
  rewrite <- Hlx at 1.
  eapply wp_uninitialized_value_construct_n; [done| |].
  - intros w2 _ _ _ _. apply wp_nothrow; [nothrow_tac|done].
  - intros w2 (Hna2 & Hr2 & Hs2 & _) Hheap2 _.
    exists (Some (a1, 0)), cap1. split; [|unfold cap1; lia].
    repeat split; try done.
    + by rewrite Hr2.
    + by rewrite Hs2.
    + by rewrite Hheap2, Hheap1, Hsplit.
Qed.

(** X27: an exception leaving [Resize(n)], for elements that are migrated
    by copy or have a non-throwing move constructor, and with
    [n * sizeof(T)] within [size_t] when [n] exceeds the capacity, leaves
    the container with the elements and the size it had; only its capacity
    may have grown. *)
Theorem Resize_keeps_elements_on_failure v b cap xs n w :
  migrate_by_move = false ∨ nothrow_move_constructible = true →
  holds w v b cap xs → wf w → (cap < n → allocatable n) →
  ∀ w', Resize v n w = Throw w' →
        ∃ b' cap', holds w' v b' cap' xs ∧ cap ≤ cap'.
Proof.
  intros Hpath Hh Hwf _ w' Heq.
  pose proof (Resize_basic v b cap xs n w Hpath Hh Hwf) as H.
  unfold wp in H. by rewrite Heq in H.
Qed.

(** ** Copy assignment that reallocates, when it fails *)

Lemma wp_False_True {A} (m : M A) (Q : World → A → Prop) E w :
  wp False m Q E w → wp True m Q E w.
Proof. unfold wp. by destruct (m w). Qed.

Lemma nothrow_drop_size v : nothrow (drop_size (T:=T) v).
Proof. done. Qed.

Lemma nothrow_Vector_delete v : nothrow (Vector_delete (T:=T) v).
Proof.
  unfold Vector_delete.
  pose proof nothrow_DestroyN. pose proof nothrow_drop_size. nothrow_tac.
Qed.

Lemma nothrow_Swap v r : nothrow (Swap (T:=T) v r).
Proof. unfold Swap. nothrow_tac. Qed.

Lemma assign_copy_realloc_strong v r b1 c1 xs b2 c2 ys w :
  holds w v b1 c1 xs → holds w r b2 c2 ys → v ≠ r → wf w → c1 < length ys →
  wp True (assign_copy v r) (λ _ _, True) (restored w) w.
Proof.
  intros (Hr1 & Hs1 & _) Hrh Hne Hwf Hgt.
  pose proof Hrh as (Hr2 & Hs2 & _).
  unfold assign_copy. rewrite decide_True by done.
  wstep get_size_eq. unfold RawMemory_Capacity. wstep get_capacity_eq.
  rewrite decide_True by lia.
  wstep new_object_eq.
  apply wp_bind.
  eapply wp_mono.
  - apply wp_False_True.
    apply (Vector_copy_strong (next_oid w) r b2 c2 ys);
      [done|by apply wf_new_object|by apply fresh_new_object].
  - intros w1 [] _. apply wp_nothrow; [|done].
    apply nothrow_scoped; [apply nothrow_Swap|apply nothrow_Vector_delete].
  - intros w1 Hres. exact Hres.
Qed.

(** X28: copy assignment from a source too large for the destination's
    capacity works on a copy that is swapped in at the end: an exception
    leaving it (from the allocation or from a copy) leaves both containers,
    the heap and the objects as they were. *)
Theorem assign_copy_realloc_strong_guarantee v r b1 c1 xs b2 c2 ys w :
  holds w v b1 c1 xs → holds w r b2 c2 ys → v ≠ r → wf w → c1 < length ys →
  ∀ w', assign_copy v r w = Throw w' →
        restored w w' ∧ holds w' v b1 c1 xs ∧ holds w' r b2 c2 ys.
Proof.
  intros Hv Hr Hne Hwf Hgt w' Heq.
  pose proof (assign_copy_realloc_strong v r b1 c1 xs b2 c2 ys w Hv Hr Hne Hwf Hgt)
    as H.
  unfold wp in H. rewrite Heq in H.
  split; [done|]. split; by eapply restored_holds.
Qed.

(** ** Containers that were moved from *)

Lemma assign_move_wf v r b1 c1 xs b2 c2 ys w w' :
  holds w v b1 c1 xs → holds w r b2 c2 ys → wf w →
  raws w' = <[v := mkRaw b2 c2]> (<[r := mkRaw None 0]> (raws w)) →
  sizes w' = <[v := length ys]> (<[r := 0]> (sizes w)) →
  heap w' = match b1 with
            | Some (a, _) => delete a (heap w)
            | None => heap w
            end →
  next_addr w' = next_addr w → next_oid w' = next_oid w → wf w'.
Proof.
  intros (Hr1 & _) (Hr2 & _) Hwf Hraws Hsizes Hheap Hna Hno.
  pose proof (wf_lt _ _ _ Hwf Hr1). pose proof (wf_lt _ _ _ Hwf Hr2).
  destruct Hwf as [Hwa Hwo]. split.
  - intros a Ha. rewrite Hna in Ha. rewrite Hheap.
    destruct b1 as [[a1 i1]|]; [|by apply Hwa].
    destruct (decide (a = a1)) as [->|]; [apply lookup_delete_eq|].
    rewrite lookup_delete_ne by done. by apply Hwa.
  - intros o Ho. rewrite Hno in Ho. rewrite Hraws, Hsizes.
    rewrite !lookup_insert_ne by lia. by apply Hwo.
Qed.

(** X29: a container that was moved from by move assignment is empty and
    can be used again: a [PushBack] on it gives, unless an allocation or a
    copy fails, a container holding just the new element. *)
Theorem moved_from_is_reusable v r b1 c1 xs b2 c2 ys x w :
  holds w v b1 c1 xs → holds w r b2 c2 ys → v ≠ r → wf w →
  returns (assign_move v r ;;; PushBack r x)
    (λ w' _, ∃ b', holds w' r b' 1 [x] ∧ wf w') w.
Proof.
  intros Hv Hr Hne Hwf. apply returns_bind.
  destruct (assign_move_eq v r b1 c1 xs b2 c2 ys w Hv Hr Hne)
    as (w1 & Heq & Hraws & Hsizes & Hheap & Hna & Hno & Haf & Hef & _).
  eapply returns_eq; [exact Heq|unfold quiet; by rewrite Haf, Hef|].
  assert (Hh1 : holds w1 r None 0 []).
  { repeat split; simpl; try done.
    - rewrite Hraws, lookup_insert_ne by done. apply lookup_insert_eq.
    - rewrite Hsizes, lookup_insert_ne by done. apply lookup_insert_eq. }
  assert (Hwf1 : wf w1)
    by exact (assign_move_wf v r b1 c1 xs b2 c2 ys w w1 Hv Hr Hwf
                Hraws Hsizes Hheap Hna Hno).
  eapply returns_mono; [by apply (PushBack_returns r None 0 [] x)|].
  intros w2 [] (b' & Hh2 & Hwf2). by exists b'.
Qed.

(** ** Copies are independent *)

Lemma live_insert (xs : list T) cap i y :
  i < length xs → <[i := Some y]> (live xs cap) = live (<[i := y]> xs) cap.
Proof.
  intros Hi. unfold live. rewrite length_insert.
  rewrite insert_app_l by (by rewrite length_fmap).
  by rewrite list_fmap_insert.
Qed.

(** X30: a copy has storage of its own: after copy construction,
    assigning a new value to an element of the copy through [operator[]]
    changes that element of the copy and leaves the source as it was. *)
Theorem Vector_copy_is_independent v r b cap xs i y w :
  holds w r b cap xs → wf w → fresh w v → i < length xs →
  returns (Vector_copy v r ;;; p <- Vector_index v i ;; assign_at p y)
    (λ w' _, ∃ b',
       holds w' v b' (length xs) (<[i := y]> xs) ∧ holds w' r b cap xs) w.
Proof.
  intros Hh Hwf Hfr Hi. apply returns_bind.
  eapply returns_mono; [by apply (Vector_copy_returns v r b cap xs)|].
  intros w1 [] (b' & Hv1 & Hr1 & Hwf1 & Hb' & _).
  rewrite decide_False in Hb' by lia. subst b'.
  destruct (lookup_lt_is_Some_2 xs i Hi) as [x Hx].
  destruct (Vector_index_eq v _ _ xs i x w1 Hv1 Hx) as [Hidx Hload].
  apply returns_bind. eapply returns_eq; [exact Hidx|done|]. simpl.
  pose proof Hv1 as (Hrv & Hsv & Hlv & _ & Hcv & Hhv).
  eapply returns_eq.
  { eapply (assign_at_eq _ _ _ x); [exact Hhv|by apply live_lookup_lt]. }
  { done. }
  exists (Some (next_addr w, 0)). split.
  - repeat split; simpl; try done.
    + by rewrite length_insert.
    + by rewrite length_insert.
    + rewrite lookup_insert_eq. by rewrite live_insert.
  - destruct Hr1 as (Hrr & Hsr & Hlr & Hbr). repeat split; simpl; try done.
    destruct b as [[a j]|]; [|done]. destruct Hbr as (-> & Hc & Hha).
    repeat split; try done.
    destruct Hh as (_ & _ & _ & _ & _ & Ha0).
    pose proof (wf_block_lt _ _ _ Hwf Ha0).
    by rewrite lookup_insert_ne by lia.
Qed.

End rules.

(** * Concrete containers *)

(** ** Containers of [int]: moves are copies and never throw *)

Module Ints.

#[local] Instance int_elements : Element nat := trivial_element nat 0.

(** [sizeof(int)] is 4. *)
#[local] Instance int_size : Sized nat :=
  {| sizeof := 4; sizeof_pos := Nat.lt_0_succ 3 |}.

(** The [Vector] object 0, default-constructed. *)
Definition default_vector : World (T:=nat) :=
  mkWorld ∅ 0 {[ 0 := mkRaw None 0 ]} {[ 0 := 0 ]} 1 [] [] 0 0.

(** The [Vector] object 0 holding [xs] in block 0 of [cap] slots. *)
Definition one_vector (xs : list nat) (cap : nat) : World (T:=nat) :=
  mkWorld {[ 0 := live xs cap ]} 1
          {[ 0 := mkRaw (Some (0, 0)) cap ]} {[ 0 := length xs ]} 1
          [] [] (length xs) 0.

(** [one_vector xs cap] and a second object, 1, holding [ys] in block 1
    of [cap'] slots. *)
Definition two_vectors (xs : list nat) (cap : nat) (ys : list nat) (cap' : nat)
    : World (T:=nat) :=
  mkWorld {[ 0 := live xs cap; 1 := live ys cap' ]} 2
          {[ 0 := mkRaw (Some (0, 0)) cap; 1 := mkRaw (Some (1, 0)) cap' ]}
          {[ 0 := length xs; 1 := length ys ]} 2
          [] [] (length xs + length ys) 0.

(** What a caller can observe of the object [v]: [Size()], [Capacity()]
    and the slots of its buffer ([None] for a buffer that is not a live
    block). *)
Definition observe (v : oid) (w : World (T:=nat))
    : option (nat * nat * option (list (option nat))) :=
  s ← sizes w !! v;
  m ← raws w !! v;
  Some (s, capacity_ m,
        match buffer_ m with
        | Some (a, _) => heap w !! a
        | None => Some []
        end).

Definition observe_after {A} (v : oid) (o : outcome (T:=nat) A)
    : option (nat * nat * option (list (option nat))) :=
  w ← world_of o; observe v w.

(** Reading the element at index [i] through [operator[]]. *)
Definition read_at (v : oid) (i : nat) : M (T:=nat) nat :=
  p <- Vector_index v i ;; load p.

(** Running a computation on a concrete world: the outcome is computed
    once and given as the witness. *)
Ltac run_ok :=
  lazymatch goal with
  | |- ∃ w', ?m = Ok w' _ ∧ _ =>
      let o := eval vm_compute in m in
      lazymatch o with
      | Ok ?w0 _ => exists w0; split; [vm_compute; reflexivity|]
      end
  | |- ∃ w', ?m = Throw w' ∧ _ =>
      let o := eval vm_compute in m in
      lazymatch o with
      | Throw ?w0 => exists w0; split; [vm_compute; reflexivity|]
      end
  | |- ∃ w', ?m = Some w' ∧ _ =>
      let o := eval vm_compute in m in
      lazymatch o with
      | Some ?w0 => exists w0; split; [vm_compute; reflexivity|]
      end
  end.

(** ** Examples of the specification *)

(** [Create()], [PushBack(1)], [PushBack(2)], [PushBack(3)]: size 3,
    elements 1 2 3, capacities 1 2 4. *)
Example push_three :
  ∃ w', push_all 0 [1; 2; 3] default_vector = Ok w' [1; 2; 4] ∧
        observe 0 w' = Some (3, 4, Some [Some 1; Some 2; Some 3; None]).
Proof. run_ok. vm_compute. reflexivity. Qed.

(** [Erase] at position 1 of 1 2 3 4 leaves 1 3 4. *)
Example erase_second :
  observe_after 0 (Erase 0 (Some (0, 1)) (one_vector [1; 2; 3; 4] 4))
  = Some (3, 4, Some [Some 1; Some 3; Some 4; None]).
Proof. vm_compute. reflexivity. Qed.

(** [Insert] of 99 at position 1 of 1 2 3 at full capacity 3 gives
    1 99 2 3 with capacity 6, in a new block; the old block is released. *)
Example insert_at_full_capacity :
  ∃ w', Insert 0 (Some (0, 1)) 99 (one_vector [1; 2; 3] 3) = Ok w' (Some (1, 1)) ∧
        observe 0 w' = Some (4, 6, Some [Some 1; Some 99; Some 2; Some 3; None; None]) ∧
        heap w' !! 0 = None.
Proof. run_ok. split; vm_compute; reflexivity. Qed.

(** [Insert] before the end with spare capacity shifts the tail. *)
Example insert_with_spare_capacity :
  observe_after 0 (Insert 0 (Some (0, 1)) 99 (one_vector [1; 2; 3] 4))
  = Some (4, 4, Some [Some 1; Some 99; Some 2; Some 3]).
Proof. vm_compute. reflexivity. Qed.

(** ** Where the code departs from the specification *)

(** C1: copy assignment of 5 6 7 to the container 1 2 with capacity 4.
    The loop assigns 5 6 to slots 0 and 1; the tail, 7, is then constructed
    at [data_.GetAddress()], slot 0, not at slot 2.  The destination ends
    with size 3 and slots 7, 6, uninitialised, and reading index 2 is
    undefined; the specification wants 5 6 7. *)
Theorem assign_copy_misplaces_tail :
  ∃ w', assign_copy 0 1 (two_vectors [1; 2] 4 [5; 6; 7] 3) = Ok w' tt ∧
        observe 0 w' = Some (3, 4, Some [Some 7; Some 6; None; None]) ∧
        observe 1 w' = Some (3, 3, Some [Some 5; Some 6; Some 7]) ∧
        read_at 0 2 w' = Undefined.
Proof. run_ok. repeat split; vm_compute; reflexivity. Qed.

(** C3: move construction from 1 2 3 first allocates storage for three
    elements.  When that allocation fails the exception cannot leave the
    [noexcept] constructor and the program is terminated; when it succeeds,
    one [operator new] call has been made (an entry of the oracle is used
    up, a block address too) and the block is released at once. *)
Theorem Vector_move_allocates :
  Vector_move 1 0 (set_alloc_faults [true] (one_vector [1; 2; 3] 3)) = Terminate ∧
  ∃ w', Vector_move 1 0 (set_alloc_faults [false; true] (one_vector [1; 2; 3] 3))
          = Ok w' tt ∧
        alloc_faults w' = [true] ∧ next_addr w' = 2 ∧
        observe 1 w' = Some (3, 3, Some [Some 1; Some 2; Some 3]) ∧
        observe 0 w' = Some (0, 0, Some []).
Proof. split; [vm_compute; reflexivity|]. run_ok. repeat split; vm_compute; reflexivity. Qed.

(** C4: move assignment of the container 1 2 3 to itself.  [RawMemory]'s
    move assignment releases the buffer, then reads the pointer and the
    capacity back from the same object: the container keeps size 3,
    capacity 3 and a pointer to the released block, and its destructor has
    undefined behaviour; the specification wants size 0, capacity 0 and a
    destructible object. *)
Theorem assign_move_self_dangles :
  ∃ w', assign_move 0 0 (one_vector [1; 2; 3] 3) = Ok w' tt ∧
        sizes w' !! 0 = Some 3 ∧
        raws w' !! 0 = Some (mkRaw (Some (0, 0)) 3) ∧
        heap w' !! 0 = None ∧
        Vector_delete 0 w' = Undefined ∧
        read_at 0 0 w' = Undefined.
Proof. run_ok. repeat split; vm_compute; reflexivity. Qed.

(** C5, as stated, fails: move assignment of a container of capacity 3 to
    one of capacity 4 leaves it with capacity 3. *)
Lemma assign_move_reduces_capacity :
  capacity_of 0 (two_vectors [1; 2] 4 [5; 6; 7] 3) = Some 4 ∧
  ∃ w', assign_move 0 1 (two_vectors [1; 2] 4 [5; 6; 7] 3) = Ok w' tt ∧
        capacity_of 0 w' = Some 3.
Proof. split; [vm_compute; reflexivity|]. run_ok. vm_compute. reflexivity. Qed.

(** C7: [Insert] at [end()] of 1 2 3 with capacity 4.  The last element is
    move-constructed into slot 3, then [std::move_backward] is called with
    first = [begin() + 3] and last = [end() - 1] = [begin() + 2], which is
    not a range: undefined behaviour, where the specification wants
    1 2 3 99.  At a position before [end()] the same container is fine. *)
Theorem Insert_at_end_with_spare_capacity :
  Insert 0 (Some (0, 3)) 99 (one_vector [1; 2; 3] 4) = Undefined ∧
  end_ 0 (one_vector [1; 2; 3] 4) = Ok (one_vector [1; 2; 3] 4) (Some (0, 3)) ∧
  observe_after 0 (Insert 0 (Some (0, 2)) 99 (one_vector [1; 2; 3] 4))
  = Some (4, 4, Some [Some 1; Some 2; Some 99; Some 3]).
Proof. repeat split; vm_compute; reflexivity. Qed.

(** ** The theorems at concrete containers *)

Ltac concrete := repeat split; try (vm_compute; reflexivity); simpl; lia.

(** Bounds on concrete sizes, by computation. *)
Ltac in_range := vm_compute; intuition discriminate.

Lemma PopBack_destroys_last_witness :
  holds (one_vector [1; 2; 3] 3) 0 (Some (0, 0)) 3 [1; 2; 3] ∧
  ∃ w', PopBack 0 (one_vector [1; 2; 3] 3) = Ok w' tt ∧
        holds w' 0 (Some (0, 0)) 3 [1; 2] ∧
        size_of 0 w' = Some 2 ∧
        constructed w' = 3 ∧ destroyed w' = 1 ∧
        read_slot (Some (0, 2)) w' = Some None.
Proof.
  assert (H : holds (one_vector [1; 2; 3] 3) 0 (Some (0, 0)) 3 [1; 2; 3])
    by concrete.
  split; [exact H|].
  exact (PopBack_destroys_last 0 (Some (0, 0)) 3 [1; 2; 3] _ H).
Defined.

Lemma Erase_returns_position_witness :
  holds (one_vector [1; 2; 3; 4] 4) 0 (Some (0, 0)) 4 [1; 2; 3; 4] ∧ 1 < 4 ∧
  ∃ w', Erase 0 (Some (0, 1)) (one_vector [1; 2; 3; 4] 4) = Ok w' (Some (0, 1)) ∧
        holds w' 0 (Some (0, 0)) 4 [1; 3; 4] ∧
        (∀ y, Some 3 = Some y → read_slot (Some (0, 1)) w' = Some (Some y)) ∧
        (Some 3 = None → end_ 0 w' = Ok w' (Some (0, 1))).
Proof.
  assert (H : holds (one_vector [1; 2; 3; 4] 4) 0 (Some (0, 0)) 4 [1; 2; 3; 4])
    by concrete.
  assert (Hd : 1 < 4) by lia.
  split; [exact H|]. split; [exact Hd|].
  exact (Erase_returns_position 0 0 4 [1; 2; 3; 4] 1 _ H Hd).
Defined.



(** Five [PushBack] calls by alternating overloads: the same capacities. *)
Example push_each_five :
  ∃ w', push_each 0 [Lvalue 1; Rvalue 2; Rvalue 3; Lvalue 4; Rvalue 5]
          default_vector = Ok w' [1; 2; 4; 4; 8] ∧
        observe 0 w' =
          Some (5, 8, Some ((Some <$> [1; 2; 3; 4; 5]) ++ replicate 3 None)).
Proof. run_ok. vm_compute. reflexivity. Qed.

(** Five [PushBack] calls: capacities 1 2 4 4 8, growth events 1 2 4 8. *)
Example push_five :
  ∃ w', push_all 0 [1; 2; 3; 4; 5] default_vector = Ok w' [1; 2; 4; 4; 8] ∧
        growth_events 0 [1; 2; 4; 4; 8] = [1; 2; 4; 8].
Proof. run_ok. vm_compute. reflexivity. Qed.

Lemma capacity_never_shrinks_witness :
  0 < next_oid (two_vectors [1; 2; 3] 3 [5; 6; 7; 8; 9] 5) ∧
  capacity_of 0 (two_vectors [1; 2; 3] 3 [5; 6; 7; 8; 9] 5) = Some 3 ∧
  ∃ w',
    run_ops 0 [OpAssign 1; OpPopBack; OpErase (Some (2, 0)); OpResize 1;
               OpPushBack 4; OpReserve 10; OpInsert (Some (3, 1)) 7]
      (two_vectors [1; 2; 3] 3 [5; 6; 7; 8; 9] 5) = Some w' ∧
    observe 0 w' = Some (3, 10, Some ([Some 6; Some 7; Some 4] ++ replicate 7 None)) ∧
    ∃ c', capacity_of 0 w' = Some c' ∧ 3 ≤ c'.
Proof.
  assert (H1 : 0 < next_oid (two_vectors [1; 2; 3] 3 [5; 6; 7; 8; 9] 5))
    by (simpl; lia).
  assert (H2 : capacity_of 0 (two_vectors [1; 2; 3] 3 [5; 6; 7; 8; 9] 5) = Some 3)
    by (vm_compute; reflexivity).
  split; [exact H1|]. split; [exact H2|].
  run_ok. split; [vm_compute; reflexivity|].
  apply (capacity_never_shrinks 0
           [OpAssign 1; OpPopBack; OpErase (Some (2, 0)); OpResize 1;
            OpPushBack 4; OpReserve 10; OpInsert (Some (3, 1)) 7]
           (two_vectors [1; 2; 3] 3 [5; 6; 7; 8; 9] 5) _ 3 H1 H2).
  vm_compute. reflexivity.
Defined.

(** ** The further properties at concrete containers *)

Ltac wf_concrete := apply wf_check_sound; vm_compute; reflexivity.

(** [w] with storage set aside for one more object. *)
Definition with_storage (w : World (T:=nat)) : World (T:=nat) :=
  set_next_oid (S (next_oid w)) w.

Lemma Reserve_keeps_elements_witness :
  holds (one_vector [1; 2; 3] 3) 0 (Some (0, 0)) 3 [1; 2; 3] ∧
  wf (one_vector [1; 2; 3] 3) ∧ allocatable 6 ∧
  Reserve 0 2 (one_vector [1; 2; 3] 3) = Ok (one_vector [1; 2; 3] 3) tt ∧
  returns (Reserve 0 6)
    (λ w' _,
       holds w' 0 (Some (1, 0)) 6 [1; 2; 3] ∧ wf w' ∧
       ∀ a i, Some (0, 0) = Some (a, i) → heap w' !! a = None)
    (one_vector [1; 2; 3] 3).
Proof.
  assert (H : holds (one_vector [1; 2; 3] 3) 0 (Some (0, 0)) 3 [1; 2; 3])
    by concrete.
  assert (Hwf : wf (one_vector [1; 2; 3] 3)) by wf_concrete.
  assert (Ha : allocatable 6) by in_range.
  split; [exact H|]. split; [exact Hwf|]. split; [exact Ha|]. split.
  - apply (Reserve_keeps_elements 0 (Some (0, 0)) 3 [1; 2; 3] 2 _ H Hwf). lia.
  - apply (Reserve_keeps_elements 0 (Some (0, 0)) 3 [1; 2; 3] 6 _ H Hwf);
      [lia|exact Ha].
Defined.

Lemma Resize_truncates_or_pads_witness :
  holds (one_vector [1; 2; 3] 4) 0 (Some (0, 0)) 4 [1; 2; 3] ∧
  wf (one_vector [1; 2; 3] 4) ∧ (4 < 6 → allocatable 6) ∧
  (4 < 1 → allocatable 1) ∧
  returns (Resize 0 6)
    (λ w' _, ∃ b',
       holds w' 0 b' 6 [1; 2; 3; 0; 0; 0] ∧ wf w' ∧ (6 ≤ 4 → b' = Some (0, 0)))
    (one_vector [1; 2; 3] 4) ∧
  returns (Resize 0 1)
    (λ w' _, ∃ b',
       holds w' 0 b' 4 [1] ∧ wf w' ∧ (1 ≤ 4 → b' = Some (0, 0)))
    (one_vector [1; 2; 3] 4).
Proof.
  assert (H : holds (one_vector [1; 2; 3] 4) 0 (Some (0, 0)) 4 [1; 2; 3])
    by concrete.
  assert (Hwf : wf (one_vector [1; 2; 3] 4)) by wf_concrete.
  assert (Ha : 4 < 6 → allocatable 6) by in_range.
  assert (Ha' : 4 < 1 → allocatable 1) by in_range.
  split; [exact H|]. split; [exact Hwf|]. split; [exact Ha|].
  split; [exact Ha'|]. split.
  - exact (Resize_truncates_or_pads 0 (Some (0, 0)) 4 [1; 2; 3] 6 _ H Hwf Ha).
  - exact (Resize_truncates_or_pads 0 (Some (0, 0)) 4 [1; 2; 3] 1 _ H Hwf Ha').
Defined.

Lemma Vector_new_value_initialises_witness :
  wf (with_storage (one_vector [1; 2; 3] 3)) ∧
  fresh (with_storage (one_vector [1; 2; 3] 3)) 1 ∧ allocatable 2 ∧
  returns (Vector_new 1 2)
    (λ w' _,
       holds w' 1 (Some (1, 0)) 2 [0; 0] ∧ wf w' ∧
       constructed w' = 3 + 2 ∧ destroyed w' = 0)
    (with_storage (one_vector [1; 2; 3] 3)).
Proof.
  assert (Hwf : wf (with_storage (one_vector [1; 2; 3] 3))) by wf_concrete.
  assert (Hfr : fresh (with_storage (one_vector [1; 2; 3] 3)) 1)
    by (repeat split; [simpl; lia|vm_compute; reflexivity..]).
  assert (Ha : allocatable 2) by in_range.
  split; [exact Hwf|]. split; [exact Hfr|]. split; [exact Ha|].
  exact (Vector_new_value_initialises 1 2 _ Hwf Hfr Ha).
Defined.

(** [Vector(3)] when the second of the three constructors throws. *)
Lemma Vector_new_unwinds_witness :
  wf (set_elem_faults [false; true] (with_storage default_vector)) ∧
  fresh (set_elem_faults [false; true] (with_storage default_vector)) 1 ∧
  allocatable 3 ∧
  ∃ w', Vector_new 1 3 (set_elem_faults [false; true] (with_storage default_vector))
        = Throw w' ∧
        restored (set_elem_faults [false; true] (with_storage default_vector)) w' ∧
        constructed w' = 1 ∧ destroyed w' = 1.
Proof.
  assert (Hwf : wf (set_elem_faults [false; true] (with_storage default_vector)))
    by wf_concrete.
  assert (Hfr : fresh (set_elem_faults [false; true] (with_storage default_vector)) 1)
    by (repeat split; [simpl; lia|vm_compute; reflexivity..]).
  assert (Ha : allocatable 3) by in_range.
  split; [exact Hwf|]. split; [exact Hfr|]. split; [exact Ha|].
  run_ok. split; [|split; vm_compute; reflexivity].
  apply (Vector_new_unwinds 1 3 _ Hwf Hfr Ha). vm_compute. reflexivity.
Defined.

Lemma Vector_copy_copies_witness :
  holds (with_storage (one_vector [1; 2; 3] 4)) 0 (Some (0, 0)) 4 [1; 2; 3] ∧
  wf (with_storage (one_vector [1; 2; 3] 4)) ∧
  fresh (with_storage (one_vector [1; 2; 3] 4)) 1 ∧
  returns (Vector_copy 1 0)
    (λ w' _, ∃ b',
       holds w' 1 b' 3 [1; 2; 3] ∧ holds w' 0 (Some (0, 0)) 4 [1; 2; 3] ∧
       wf w' ∧ apart b' (Some (0, 0)) ∧
       constructed w' = 3 + 3 ∧ destroyed w' = 0)
    (with_storage (one_vector [1; 2; 3] 4)).
Proof.
  assert (H : holds (with_storage (one_vector [1; 2; 3] 4)) 0 (Some (0, 0)) 4
                [1; 2; 3]) by concrete.
  assert (Hwf : wf (with_storage (one_vector [1; 2; 3] 4))) by wf_concrete.
  assert (Hfr : fresh (with_storage (one_vector [1; 2; 3] 4)) 1)
    by (repeat split; [simpl; lia|vm_compute; reflexivity..]).
  split; [exact H|]. split; [exact Hwf|]. split; [exact Hfr|].
  exact (Vector_copy_copies 1 0 (Some (0, 0)) 4 [1; 2; 3] _ H Hwf Hfr).
Defined.

Lemma Vector_copy_then_delete_witness :
  holds (with_storage (one_vector [1; 2; 3] 4)) 0 (Some (0, 0)) 4 [1; 2; 3] ∧
  wf (with_storage (one_vector [1; 2; 3] 4)) ∧
  fresh (with_storage (one_vector [1; 2; 3] 4)) 1 ∧
  returns (Vector_copy 1 0 ;;; Vector_delete 1)
    (λ w' _, restored (with_storage (one_vector [1; 2; 3] 4)) w' ∧
             holds w' 0 (Some (0, 0)) 4 [1; 2; 3])
    (with_storage (one_vector [1; 2; 3] 4)).
Proof.
  assert (H : holds (with_storage (one_vector [1; 2; 3] 4)) 0 (Some (0, 0)) 4
                [1; 2; 3]) by concrete.
  assert (Hwf : wf (with_storage (one_vector [1; 2; 3] 4))) by wf_concrete.
  assert (Hfr : fresh (with_storage (one_vector [1; 2; 3] 4)) 1)
    by (repeat split; [simpl; lia|vm_compute; reflexivity..]).
  split; [exact H|]. split; [exact Hwf|]. split; [exact Hfr|].
  exact (Vector_copy_then_delete 1 0 (Some (0, 0)) 4 [1; 2; 3] _ H Hwf Hfr).
Defined.

Lemma Vector_move_transfers_witness :
  holds (with_storage (one_vector [1; 2; 3] 4)) 0 (Some (0, 0)) 4 [1; 2; 3] ∧
  wf (with_storage (one_vector [1; 2; 3] 4)) ∧
  fresh (with_storage (one_vector [1; 2; 3] 4)) 1 ∧
  returns (Vector_move 1 0)
    (λ w' _,
       holds w' 1 (Some (0, 0)) 4 [1; 2; 3] ∧ holds w' 0 None 0 [] ∧ wf w' ∧
       heap w' = heap (with_storage (one_vector [1; 2; 3] 4)) ∧
       constructed w' = 3 ∧ destroyed w' = 0)
    (with_storage (one_vector [1; 2; 3] 4)).
Proof.
  assert (H : holds (with_storage (one_vector [1; 2; 3] 4)) 0 (Some (0, 0)) 4
                [1; 2; 3]) by concrete.
  assert (Hwf : wf (with_storage (one_vector [1; 2; 3] 4))) by wf_concrete.
  assert (Hfr : fresh (with_storage (one_vector [1; 2; 3] 4)) 1)
    by (repeat split; [simpl; lia|vm_compute; reflexivity..]).
  split; [exact H|]. split; [exact Hwf|]. split; [exact Hfr|].
  exact (Vector_move_transfers 1 0 (Some (0, 0)) 4 [1; 2; 3] _ H Hwf Hfr).
Defined.

Lemma assign_move_transfers_witness :
  holds (two_vectors [1; 2] 4 [5; 6; 7] 3) 0 (Some (0, 0)) 4 [1; 2] ∧
  holds (two_vectors [1; 2] 4 [5; 6; 7] 3) 1 (Some (1, 0)) 3 [5; 6; 7] ∧
  0 ≠ 1 ∧ apart (Some (0, 0)) (Some (1, 0)) ∧
  ∃ w', assign_move 0 1 (two_vectors [1; 2] 4 [5; 6; 7] 3) = Ok w' tt ∧
        holds w' 0 (Some (1, 0)) 3 [5; 6; 7] ∧ holds w' 1 None 0 [] ∧
        (∀ a i, Some (0, 0) = Some (a, i) → heap w' !! a = None) ∧
        constructed w' = 5 ∧ destroyed w' = 0.
Proof.
  assert (H0 : holds (two_vectors [1; 2] 4 [5; 6; 7] 3) 0 (Some (0, 0)) 4 [1; 2])
    by concrete.
  assert (H1 : holds (two_vectors [1; 2] 4 [5; 6; 7] 3) 1 (Some (1, 0)) 3 [5; 6; 7])
    by concrete.
  assert (Hne : 0 ≠ 1) by lia.
  assert (Hap : apart (Some (0, 0)) (Some (1, 0))) by (simpl; lia).
  split; [exact H0|]. split; [exact H1|]. split; [exact Hne|].
  split; [exact Hap|].
  exact (assign_move_transfers 0 1 (Some (0, 0)) 4 [1; 2] (Some (1, 0)) 3 [5; 6; 7]
           _ H0 H1 Hne Hap).
Defined.

Lemma Swap_exchanges_witness :
  holds (two_vectors [1; 2] 4 [5; 6; 7] 3) 0 (Some (0, 0)) 4 [1; 2] ∧
  holds (two_vectors [1; 2] 4 [5; 6; 7] 3) 1 (Some (1, 0)) 3 [5; 6; 7] ∧
  ∃ w', Swap 0 1 (two_vectors [1; 2] 4 [5; 6; 7] 3) = Ok w' tt ∧
        holds w' 0 (Some (1, 0)) 3 [5; 6; 7] ∧ holds w' 1 (Some (0, 0)) 4 [1; 2] ∧
        heap w' = heap (two_vectors [1; 2] 4 [5; 6; 7] 3) ∧
        constructed w' = 5 ∧ destroyed w' = 0.
Proof.
  assert (H0 : holds (two_vectors [1; 2] 4 [5; 6; 7] 3) 0 (Some (0, 0)) 4 [1; 2])
    by concrete.
  assert (H1 : holds (two_vectors [1; 2] 4 [5; 6; 7] 3) 1 (Some (1, 0)) 3 [5; 6; 7])
    by concrete.
  split; [exact H0|]. split; [exact H1|].
  exact (Swap_exchanges 0 1 (Some (0, 0)) 4 [1; 2] (Some (1, 0)) 3 [5; 6; 7]
           _ H0 H1).
Defined.

Lemma Swap_twice_witness :
  (Swap 0 1 ;;; Swap 0 1) (two_vectors [1; 2] 4 [5; 6; 7] 3)
  = Ok (two_vectors [1; 2] 4 [5; 6; 7] 3) tt ∧
  Swap 0 0 (two_vectors [1; 2] 4 [5; 6; 7] 3)
  = Ok (two_vectors [1; 2] 4 [5; 6; 7] 3) tt.
Proof.
  apply (Swap_twice 0 1 (mkRaw (Some (0, 0)) 4) (mkRaw (Some (1, 0)) 3) 2 3);
    vm_compute; reflexivity.
Defined.

Lemma element_access_witness :
  holds (one_vector [1; 2; 3] 4) 0 (Some (0, 0)) 4 [1; 2; 3] ∧
  Size 0 (one_vector [1; 2; 3] 4) = Ok (one_vector [1; 2; 3] 4) 3 ∧
  Capacity 0 (one_vector [1; 2; 3] 4) = Ok (one_vector [1; 2; 3] 4) 4 ∧
  begin 0 (one_vector [1; 2; 3] 4) = Ok (one_vector [1; 2; 3] 4) (Some (0, 0)) ∧
  end_ 0 (one_vector [1; 2; 3] 4) = Ok (one_vector [1; 2; 3] 4) (Some (0, 3)) ∧
  (∀ i x, [1; 2; 3] !! i = Some x →
     Vector_index 0 i (one_vector [1; 2; 3] 4)
     = Ok (one_vector [1; 2; 3] 4) (Some (0, 0 + i)) ∧
     load (Some (0, 0 + i)) (one_vector [1; 2; 3] 4)
     = Ok (one_vector [1; 2; 3] 4) x) ∧
  (∀ i, 3 ≤ i → Vector_index 0 i (one_vector [1; 2; 3] 4) = Undefined).
Proof.
  assert (H : holds (one_vector [1; 2; 3] 4) 0 (Some (0, 0)) 4 [1; 2; 3])
    by concrete.
  split; [exact H|].
  exact (element_access 0 (Some (0, 0)) 4 [1; 2; 3] _ H).
Defined.

Lemma Vector_delete_destroys_all_witness :
  holds (two_vectors [1; 2] 4 [5; 6; 7] 3) 1 (Some (1, 0)) 3 [5; 6; 7] ∧
  ∃ w', Vector_delete 1 (two_vectors [1; 2] 4 [5; 6; 7] 3) = Ok w' tt ∧
        raws w' = delete 1 (raws (two_vectors [1; 2] 4 [5; 6; 7] 3)) ∧
        sizes w' = delete 1 (sizes (two_vectors [1; 2] 4 [5; 6; 7] 3)) ∧
        heap w' = delete 1 (heap (two_vectors [1; 2] 4 [5; 6; 7] 3)) ∧
        constructed w' = 5 ∧ destroyed w' = 3 + 0.
Proof.
  assert (H1 : holds (two_vectors [1; 2] 4 [5; 6; 7] 3) 1 (Some (1, 0)) 3 [5; 6; 7])
    by concrete.
  split; [exact H1|].
  exact (Vector_delete_destroys_all 1 (Some (1, 0)) 3 [5; 6; 7] _ H1).
Defined.

Lemma Emplace_inserts_witness :
  holds (one_vector [1; 2; 3] 3) 0 (Some (0, 0)) 3 [1; 2; 3] ∧
  wf (one_vector [1; 2; 3] 3) ∧ 1 ≤ 3 ∧ (1 < 3 ∨ 3 = 3 ∨ [1; 2; 3] = []) ∧
  insertable 3 3 1 ∧
  returns (Emplace 0 (Some (0, 1)) (ByCopy 9))
    (λ w' p, ∃ b',
       p = ptr_add b' 1 ∧ holds w' 0 b' 6 [1; 9; 2; 3] ∧ wf w' ∧
       (3 < 3 → b' = Some (0, 0)))
    (one_vector [1; 2; 3] 3).
Proof.
  assert (H : holds (one_vector [1; 2; 3] 3) 0 (Some (0, 0)) 3 [1; 2; 3])
    by concrete.
  assert (Hwf : wf (one_vector [1; 2; 3] 3)) by wf_concrete.
  assert (Hd : 1 ≤ 3) by lia.
  assert (Hc : 1 < 3 ∨ 3 = 3 ∨ [1; 2; 3] = @nil nat) by (left; lia).
  assert (Hin : insertable 3 3 1) by in_range.
  split; [exact H|]. split; [exact Hwf|]. split; [exact Hd|]. split; [exact Hc|].
  split; [exact Hin|].
  exact (Emplace_inserts 0 (Some (0, 0)) 3 [1; 2; 3] 1 (ByCopy 9) _
           H Hwf Hd Hc Hin).
Defined.

Lemma Insert_then_Erase_witness :
  holds (one_vector [1; 2; 3] 3) 0 (Some (0, 0)) 3 [1; 2; 3] ∧
  wf (one_vector [1; 2; 3] 3) ∧ 1 ≤ 3 ∧ (1 < 3 ∨ 3 = 3 ∨ [1; 2; 3] = []) ∧
  insertable 3 3 1 ∧
  returns (p <- Insert 0 (Some (0, 1)) 9 ;; Erase 0 p)
    (λ w' q, ∃ b',
       q = ptr_add b' 1 ∧ holds w' 0 b' 6 [1; 2; 3] ∧ wf w')
    (one_vector [1; 2; 3] 3).
Proof.
  assert (H : holds (one_vector [1; 2; 3] 3) 0 (Some (0, 0)) 3 [1; 2; 3])
    by concrete.
  assert (Hwf : wf (one_vector [1; 2; 3] 3)) by wf_concrete.
  assert (Hd : 1 ≤ 3) by lia.
  assert (Hc : 1 < 3 ∨ 3 = 3 ∨ [1; 2; 3] = @nil nat) by (left; lia).
  assert (Hin : insertable 3 3 1) by in_range.
  split; [exact H|]. split; [exact Hwf|]. split; [exact Hd|]. split; [exact Hc|].
  split; [exact Hin|].
  exact (Insert_then_Erase 0 (Some (0, 0)) 3 [1; 2; 3] 1 9 _ H Hwf Hd Hc Hin).
Defined.

Lemma PushBack_then_PopBack_witness :
  holds (one_vector [1; 2; 3] 3) 0 (Some (0, 0)) 3 [1; 2; 3] ∧
  wf (one_vector [1; 2; 3] 3) ∧ insertable 3 3 3 ∧
  returns (PushBack 0 9 ;;; PopBack 0)
    (λ w' _, ∃ b', holds w' 0 b' 6 [1; 2; 3] ∧ wf w')
    (one_vector [1; 2; 3] 3).
Proof.
  assert (H : holds (one_vector [1; 2; 3] 3) 0 (Some (0, 0)) 3 [1; 2; 3])
    by concrete.
  assert (Hwf : wf (one_vector [1; 2; 3] 3)) by wf_concrete.
  assert (Hin : insertable 3 3 3) by in_range.
  split; [exact H|]. split; [exact Hwf|]. split; [exact Hin|].
  exact (PushBack_then_PopBack 0 (Some (0, 0)) 3 [1; 2; 3] 9 _ H Hwf Hin).
Defined.

Lemma assign_copy_copies_witness :
  holds (two_vectors [1; 2; 3] 3 [5; 6] 2) 0 (Some (0, 0)) 3 [1; 2; 3] ∧
  holds (two_vectors [1; 2; 3] 3 [5; 6] 2) 1 (Some (1, 0)) 2 [5; 6] ∧
  0 ≠ 1 ∧ apart (Some (0, 0)) (Some (1, 0)) ∧
  wf (two_vectors [1; 2; 3] 3 [5; 6] 2) ∧
  (3 < 2 ∨ 2 ≤ 3 ∨ [1; 2; 3] = []) ∧
  returns (assign_copy 0 1)
    (λ w' _, ∃ b',
       holds w' 0 b' 3 [5; 6] ∧ holds w' 1 (Some (1, 0)) 2 [5; 6] ∧ wf w')
    (two_vectors [1; 2; 3] 3 [5; 6] 2).
Proof.
  assert (H0 : holds (two_vectors [1; 2; 3] 3 [5; 6] 2) 0 (Some (0, 0)) 3 [1; 2; 3])
    by concrete.
  assert (H1 : holds (two_vectors [1; 2; 3] 3 [5; 6] 2) 1 (Some (1, 0)) 2 [5; 6])
    by concrete.
  assert (Hne : 0 ≠ 1) by lia.
  assert (Hap : apart (Some (0, 0)) (Some (1, 0))) by (simpl; lia).
  assert (Hwf : wf (two_vectors [1; 2; 3] 3 [5; 6] 2)) by wf_concrete.
  assert (Hc : 3 < 2 ∨ 2 ≤ 3 ∨ [1; 2; 3] = @nil nat) by (right; left; lia).
  split; [exact H0|]. split; [exact H1|]. split; [exact Hne|].
  split; [exact Hap|]. split; [exact Hwf|]. split; [exact Hc|].
  exact (assign_copy_copies 0 1 (Some (0, 0)) 3 [1; 2; 3] (Some (1, 0)) 2 [5; 6]
           _ H0 H1 Hne Hap Hwf Hc).
Defined.

Lemma push_all_appends_witness :
  holds (one_vector [1; 2] 2) 0 (Some (0, 0)) 2 [1; 2] ∧
  wf (one_vector [1; 2] 2) ∧ fits_int (2 + 3) ∧ allocatable (2 * (2 + 3)) ∧
  returns (push_all 0 [3; 4; 5])
    (λ w' cs, ∃ b',
       holds w' 0 b' (default 2 (last cs)) [1; 2; 3; 4; 5] ∧ wf w' ∧
       length cs = 3)
    (one_vector [1; 2] 2).
Proof.
  assert (H : holds (one_vector [1; 2] 2) 0 (Some (0, 0)) 2 [1; 2]) by concrete.
  assert (Hwf : wf (one_vector [1; 2] 2)) by wf_concrete.
  assert (Hi : fits_int (2 + 3)) by in_range.
  assert (Ha : allocatable (2 * (2 + 3))) by in_range.
  split; [exact H|]. split; [exact Hwf|]. split; [exact Hi|]. split; [exact Ha|].
  exact (push_all_appends 0 [3; 4; 5] (Some (0, 0)) 2 [1; 2] _ H Hwf Hi Ha).
Defined.

Lemma Reserve_then_PushBack_witness :
  holds (one_vector [1; 2] 2) 0 (Some (0, 0)) 2 [1; 2] ∧
  wf (one_vector [1; 2] 2) ∧ 2 + 3 ≤ 5 ∧ (2 < 5 → allocatable 5) ∧
  returns
    (Reserve 0 5 ;;;
     b1 <- begin 0 ;;
     cs <- push_all 0 [3; 4; 5] ;;
     b2 <- begin 0 ;;
     ret (b1, cs, b2))
    (λ w' '(b1, cs, b2),
       b1 = b2 ∧ cs = [5; 5; 5] ∧ holds w' 0 b2 5 [1; 2; 3; 4; 5] ∧ wf w')
    (one_vector [1; 2] 2).
Proof.
  assert (H : holds (one_vector [1; 2] 2) 0 (Some (0, 0)) 2 [1; 2]) by concrete.
  assert (Hwf : wf (one_vector [1; 2] 2)) by wf_concrete.
  assert (Hfit : 2 + 3 ≤ 5) by lia.
  assert (Ha : 2 < 5 → allocatable 5) by in_range.
  split; [exact H|]. split; [exact Hwf|]. split; [exact Hfit|].
  split; [exact Ha|].
  exact (Reserve_then_PushBack 0 (Some (0, 0)) 2 [1; 2] [3; 4; 5] 5 _
           H Hwf Hfit Ha).
Defined.

Lemma PushBack_move_appends_witness :
  holds (one_vector [1; 2] 2) 0 (Some (0, 0)) 2 [1; 2] ∧
  wf (one_vector [1; 2] 2) ∧ insertable 2 2 2 ∧
  returns (PushBack_move 0 9)
    (λ w' _, ∃ b',
       holds w' 0 b' 4 [1; 2; 9] ∧ wf w' ∧ (2 < 2 → b' = Some (0, 0)))
    (one_vector [1; 2] 2).
Proof.
  assert (H : holds (one_vector [1; 2] 2) 0 (Some (0, 0)) 2 [1; 2]) by concrete.
  assert (Hwf : wf (one_vector [1; 2] 2)) by wf_concrete.
  assert (Hin : insertable 2 2 2) by in_range.
  split; [exact H|]. split; [exact Hwf|]. split; [exact Hin|].
  exact (PushBack_move_appends 0 (Some (0, 0)) 2 [1; 2] 9 _ H Hwf Hin).
Defined.

Lemma Erase_empty_undefined_witness :
  holds default_vector 0 None 0 [] ∧
  Erase 0 None default_vector = Undefined ∧
  holds (one_vector [] 2) 0 (Some (0, 0)) 2 [] ∧
  Erase 0 (Some (0, 0)) (one_vector [] 2) = Undefined.
Proof.
  assert (H : holds default_vector 0 None 0 []) by concrete.
  assert (H' : holds (one_vector [] 2) 0 (Some (0, 0)) 2 []) by concrete.
  split; [exact H|]. split; [exact (Erase_empty_undefined 0 None 0 None _ H)|].
  split; [exact H'|].
  exact (Erase_empty_undefined 0 (Some (0, 0)) 2 (Some (0, 0)) _ H').
Defined.

Lemma Erase_from_end_pops_witness :
  holds (one_vector [1; 2; 3] 4) 0 (Some (0, 0)) 4 ([1; 2] ++ [3]) ∧
  2 < 3 ∧ 3 ≤ 4 ∧
  ∃ w', Erase 0 (Some (0, 3)) (one_vector [1; 2; 3] 4) = Ok w' (Some (0, 3)) ∧
        holds w' 0 (Some (0, 0)) 4 [1; 2] ∧
        end_ 0 w' = Ok w' (Some (0, 2)).
Proof.
  assert (H : holds (one_vector [1; 2; 3] 4) 0 (Some (0, 0)) 4 ([1; 2] ++ [3]))
    by concrete.
  assert (Hd : 2 < 3) by lia.
  assert (Hc : 3 ≤ 4) by lia.
  split; [exact H|]. split; [exact Hd|]. split; [exact Hc|].
  exact (Erase_from_end_pops 0 0 4 [1; 2] 3 3 _ H Hd Hc).
Defined.

Lemma RawMemory_move_transfers_witness :
  raws (with_storage (one_vector [1; 2; 3] 4)) !! 0 = Some (mkRaw (Some (0, 0)) 4) ∧
  1 ≠ 0 ∧
  RawMemory_move 1 0 (with_storage (one_vector [1; 2; 3] 4))
  = Ok (set_raws (<[1 := mkRaw (Some (0, 0)) 4]>
                    (<[0 := mkRaw None 0]>
                       (raws (with_storage (one_vector [1; 2; 3] 4)))))
          (with_storage (one_vector [1; 2; 3] 4))) tt.
Proof.
  assert (H : raws (with_storage (one_vector [1; 2; 3] 4)) !! 0
              = Some (mkRaw (Some (0, 0)) 4)) by (vm_compute; reflexivity).
  assert (Hne : 1 ≠ 0) by lia.
  split; [exact H|]. split; [exact Hne|].
  exact (RawMemory_move_transfers 1 0 _ _ H Hne).
Defined.

(** [Reserve(6)] when the allocation fails. *)
Lemma Reserve_nothrow_move_strong_witness :
  nothrow_move_constructible = true ∧
  ∃ w', Reserve 0 6 (set_alloc_faults [true] (one_vector [1; 2; 3] 3)) = Throw w' ∧
        restored (set_alloc_faults [true] (one_vector [1; 2; 3] 3)) w'.
Proof.
  assert (Hn : nothrow_move_constructible = true) by reflexivity.
  split; [exact Hn|]. run_ok.
  apply (Reserve_nothrow_move_strong 0 6 _ _ Hn). vm_compute. reflexivity.
Defined.

(** [Insert] at full capacity when the copy of the new element throws. *)
Lemma Emplace_nothrow_move_strong_witness :
  nothrow_move_constructible = true ∧
  holds (set_elem_faults [true] (one_vector [1; 2; 3] 3)) 0 (Some (0, 0)) 3
    [1; 2; 3] ∧
  3 = 3 ∧ 1 ≤ 3 ∧ wf (set_elem_faults [true] (one_vector [1; 2; 3] 3)) ∧
  ∃ w', Emplace 0 (Some (0, 1)) (ByCopy 9)
          (set_elem_faults [true] (one_vector [1; 2; 3] 3)) = Throw w' ∧
        restored (set_elem_faults [true] (one_vector [1; 2; 3] 3)) w' ∧
        holds w' 0 (Some (0, 0)) 3 [1; 2; 3].
Proof.
  assert (Hn : nothrow_move_constructible = true) by reflexivity.
  assert (H : holds (set_elem_faults [true] (one_vector [1; 2; 3] 3)) 0
                (Some (0, 0)) 3 [1; 2; 3]) by concrete.
  assert (Hfull : 3 = 3) by reflexivity.
  assert (Hd : 1 ≤ 3) by lia.
  assert (Hwf : wf (set_elem_faults [true] (one_vector [1; 2; 3] 3)))
    by wf_concrete.
  split; [exact Hn|]. split; [exact H|]. split; [exact Hfull|].
  split; [exact Hd|]. split; [exact Hwf|].
  run_ok.
  apply (Emplace_nothrow_move_strong 0 (Some (0, 0)) 3 [1; 2; 3] 1 (ByCopy 9) _
           Hn H Hfull Hd Hwf).
  vm_compute. reflexivity.
Defined.

(** [Resize(6)] of 1 2 3 when the second value-initialisation throws. *)
Lemma Resize_keeps_elements_on_failure_witness :
  (migrate_by_move = false ∨ nothrow_move_constructible = true) ∧
  holds (set_elem_faults [false; true] (one_vector [1; 2; 3] 3)) 0 (Some (0, 0)) 3
    [1; 2; 3] ∧
  wf (set_elem_faults [false; true] (one_vector [1; 2; 3] 3)) ∧
  (3 < 6 → allocatable 6) ∧
  ∃ w', Resize 0 6 (set_elem_faults [false; true] (one_vector [1; 2; 3] 3))
        = Throw w' ∧
        observe 0 w' = Some (3, 6, Some ([Some 1; Some 2; Some 3] ++ replicate 3 None)) ∧
        ∃ b' cap', holds w' 0 b' cap' [1; 2; 3] ∧ 3 ≤ cap'.
Proof.
  assert (Hp : migrate_by_move = false ∨ nothrow_move_constructible = true)
    by (right; reflexivity).
  assert (H : holds (set_elem_faults [false; true] (one_vector [1; 2; 3] 3)) 0
                (Some (0, 0)) 3 [1; 2; 3]) by concrete.
  assert (Hwf : wf (set_elem_faults [false; true] (one_vector [1; 2; 3] 3)))
    by wf_concrete.
  assert (Ha : 3 < 6 → allocatable 6) by in_range.
  split; [exact Hp|]. split; [exact H|]. split; [exact Hwf|]. split; [exact Ha|].
  run_ok. split; [vm_compute; reflexivity|].
  apply (Resize_keeps_elements_on_failure 0 (Some (0, 0)) 3 [1; 2; 3] 6 _
           Hp H Hwf Ha).
  vm_compute. reflexivity.
Defined.

Lemma moved_from_is_reusable_witness :
  holds (two_vectors [1; 2] 4 [5; 6; 7] 3) 0 (Some (0, 0)) 4 [1; 2] ∧
  holds (two_vectors [1; 2] 4 [5; 6; 7] 3) 1 (Some (1, 0)) 3 [5; 6; 7] ∧
  0 ≠ 1 ∧ wf (two_vectors [1; 2] 4 [5; 6; 7] 3) ∧
  returns (assign_move 0 1 ;;; PushBack 1 9)
    (λ w' _, ∃ b', holds w' 1 b' 1 [9] ∧ wf w')
    (two_vectors [1; 2] 4 [5; 6; 7] 3).
Proof.
  assert (H0 : holds (two_vectors [1; 2] 4 [5; 6; 7] 3) 0 (Some (0, 0)) 4 [1; 2])
    by concrete.
  assert (H1 : holds (two_vectors [1; 2] 4 [5; 6; 7] 3) 1 (Some (1, 0)) 3 [5; 6; 7])
    by concrete.
  assert (Hne : 0 ≠ 1) by lia.
  assert (Hwf : wf (two_vectors [1; 2] 4 [5; 6; 7] 3)) by wf_concrete.
  split; [exact H0|]. split; [exact H1|]. split; [exact Hne|]. split; [exact Hwf|].
  exact (moved_from_is_reusable 0 1 (Some (0, 0)) 4 [1; 2] (Some (1, 0)) 3 [5; 6; 7]
           9 _ H0 H1 Hne Hwf).
Defined.

Lemma Vector_copy_is_independent_witness :
  holds (with_storage (one_vector [1; 2; 3] 4)) 0 (Some (0, 0)) 4 [1; 2; 3] ∧
  wf (with_storage (one_vector [1; 2; 3] 4)) ∧
  fresh (with_storage (one_vector [1; 2; 3] 4)) 1 ∧ 1 < 3 ∧
  returns (Vector_copy 1 0 ;;; p <- Vector_index 1 1 ;; assign_at p 9)
    (λ w' _, ∃ b',
       holds w' 1 b' 3 [1; 9; 3] ∧ holds w' 0 (Some (0, 0)) 4 [1; 2; 3])
    (with_storage (one_vector [1; 2; 3] 4)).
Proof.
  assert (H : holds (with_storage (one_vector [1; 2; 3] 4)) 0 (Some (0, 0)) 4
                [1; 2; 3]) by concrete.
  assert (Hwf : wf (with_storage (one_vector [1; 2; 3] 4))) by wf_concrete.
  assert (Hfr : fresh (with_storage (one_vector [1; 2; 3] 4)) 1)
    by (repeat split; [simpl; lia|vm_compute; reflexivity..]).
  assert (Hi : 1 < 3) by lia.
  split; [exact H|]. split; [exact Hwf|]. split; [exact Hfr|]. split; [exact Hi|].
  exact (Vector_copy_is_independent 1 0 (Some (0, 0)) 4 [1; 2; 3] 1 9 _
           H Hwf Hfr Hi).
Defined.

End Ints.

(** ** Containers of elements that are migrated by copy *)

Module Copies.

#[local] Instance copied_elements : Element nat := throwing_element nat 0.

(** The container 1 2 3 at full capacity, with the third element operation
    that may throw scheduled to throw. *)
Definition third_fails : World (T:=nat) :=
  set_elem_faults [false; false; true] (Ints.one_vector [1; 2; 3] 3).

Lemma strong_guarantee_on_copy_path_witness :
  migrate_by_move = false ∧
  holds third_fails 0 (Some (0, 0)) 3 [1; 2; 3] ∧ wf third_fails ∧
  (∃ w', Reserve 0 6 third_fails = Throw w' ∧
         restored third_fails w' ∧ holds w' 0 (Some (0, 0)) 3 [1; 2; 3]) ∧
  (∃ w', Emplace 0 (Some (0, 1)) (ByCopy 99) third_fails = Throw w' ∧
         restored third_fails w' ∧ holds w' 0 (Some (0, 0)) 3 [1; 2; 3]).
Proof.
  assert (Hm : migrate_by_move = false) by reflexivity.
  assert (H : holds third_fails 0 (Some (0, 0)) 3 [1; 2; 3])
    by (repeat split; try (vm_compute; reflexivity); simpl; lia).
  assert (Hwf : wf third_fails)
    by (apply wf_check_sound; vm_compute; reflexivity).
  destruct (strong_guarantee_on_copy_path 0 (Some (0, 0)) 3 [1; 2; 3] _ Hm H Hwf)
    as [HR HE].
  split; [exact Hm|]. split; [exact H|]. split; [exact Hwf|]. split.
  - Ints.run_ok. apply (HR 6). vm_compute. reflexivity.
  - Ints.run_ok.
    apply (HE 1 (ByCopy 99)); [reflexivity|simpl; lia|]. vm_compute. reflexivity.
Defined.

(** [Vector(const Vector&)] of 1 2 3 when the second copy throws. *)
Definition second_fails : World (T:=nat) :=
  set_elem_faults [false; true] (Ints.with_storage (Ints.one_vector [1; 2; 3] 3)).

Lemma Vector_copy_unwinds_witness :
  holds second_fails 0 (Some (0, 0)) 3 [1; 2; 3] ∧ wf second_fails ∧
  fresh second_fails 1 ∧
  ∃ w', Vector_copy 1 0 second_fails = Throw w' ∧ restored second_fails w' ∧
        constructed w' = 4 ∧ destroyed w' = 1.
Proof.
  assert (H : holds second_fails 0 (Some (0, 0)) 3 [1; 2; 3])
    by (repeat split; try (vm_compute; reflexivity); simpl; lia).
  assert (Hwf : wf second_fails)
    by (apply wf_check_sound; vm_compute; reflexivity).
  assert (Hfr : fresh second_fails 1)
    by (repeat split; [simpl; lia|vm_compute; reflexivity..]).
  split; [exact H|]. split; [exact Hwf|]. split; [exact Hfr|].
  Ints.run_ok. split; [|split; vm_compute; reflexivity].
  apply (Vector_copy_unwinds 1 0 (Some (0, 0)) 3 [1; 2; 3] _ H Hwf Hfr).
  vm_compute. reflexivity.
Defined.

(** [PushBack] at full capacity when the second copy into the new block
    throws, and with spare capacity when the copy of the argument throws. *)
Lemma PushBack_strong_guarantee_witness :
  holds third_fails 0 (Some (0, 0)) 3 [1; 2; 3] ∧ wf third_fails ∧
  (3 = 3 → migrate_by_move = false) ∧
  ∃ w', PushBack 0 9 third_fails = Throw w' ∧
        restored third_fails w' ∧ holds w' 0 (Some (0, 0)) 3 [1; 2; 3].
Proof.
  assert (H : holds third_fails 0 (Some (0, 0)) 3 [1; 2; 3])
    by (repeat split; try (vm_compute; reflexivity); simpl; lia).
  assert (Hwf : wf third_fails)
    by (apply wf_check_sound; vm_compute; reflexivity).
  assert (Hm : 3 = 3 → migrate_by_move = false) by (intros _; reflexivity).
  split; [exact H|]. split; [exact Hwf|]. split; [exact Hm|].
  Ints.run_ok.
  apply (PushBack_strong_guarantee 0 (Some (0, 0)) 3 [1; 2; 3] 9 _ H Hwf Hm).
  vm_compute. reflexivity.
Defined.

(** Copy assignment of 5 6 7 to a container of capacity 2 when the second
    copy throws. *)
Definition assign_fails : World (T:=nat) :=
  set_elem_faults [false; true] (Ints.two_vectors [1; 2] 2 [5; 6; 7] 3).

Lemma assign_copy_realloc_strong_guarantee_witness :
  holds assign_fails 0 (Some (0, 0)) 2 [1; 2] ∧
  holds assign_fails 1 (Some (1, 0)) 3 [5; 6; 7] ∧
  0 ≠ 1 ∧ wf assign_fails ∧ 2 < 3 ∧
  ∃ w', assign_copy 0 1 assign_fails = Throw w' ∧
        restored assign_fails w' ∧
        holds w' 0 (Some (0, 0)) 2 [1; 2] ∧ holds w' 1 (Some (1, 0)) 3 [5; 6; 7].
Proof.
  assert (H0 : holds assign_fails 0 (Some (0, 0)) 2 [1; 2])
    by (repeat split; try (vm_compute; reflexivity); simpl; lia).
  assert (H1 : holds assign_fails 1 (Some (1, 0)) 3 [5; 6; 7])
    by (repeat split; try (vm_compute; reflexivity); simpl; lia).
  assert (Hne : 0 ≠ 1) by lia.
  assert (Hwf : wf assign_fails)
    by (apply wf_check_sound; vm_compute; reflexivity).
  assert (Hgt : 2 < 3) by lia.
  split; [exact H0|]. split; [exact H1|]. split; [exact Hne|].
  split; [exact Hwf|]. split; [exact Hgt|].
  Ints.run_ok.
  apply (assign_copy_realloc_strong_guarantee 0 1 (Some (0, 0)) 2 [1; 2]
           (Some (1, 0)) 3 [5; 6; 7] _ H0 H1 Hne Hwf Hgt).
  vm_compute. reflexivity.
Defined.

End Copies.
